(** * Scene compositor, export engine and silence trimmer

    A shallow embedding of the parts of [src/services/geminiService.ts]
    ([trimSilenceFromAudio], [createWavBlob]) and of
    [src/components/Player.tsx] ([renderSceneFrame], [draw],
    [updateParticles], [handleExport] / [exportLoop]) that the specification
    talks about, with the properties proved about them.

    Numbers.  JavaScript numbers are modelled by exact rationals [Q]: the
    decimal constants of the source ([0.015], [0.4], [0.1], [0.5], [0.05],
    [0.95], [1.05], [1.5]) are the exact decimals and arithmetic does not
    round.  Loop counters and array indices, which the code only ever
    increments by one from zero, are [nat] and are injected into [Q] where
    the code does arithmetic on them.  Fixed-width stores
    ([DataView.setUint32], [Int16Array] element stores) are integers in
    [Z] with the wrap-around written out.  [NaN] and the infinities have
    no counterpart: a [NaN] duration is [None], and a scene is taken to
    last longer than zero seconds wherever the code divides by its
    duration.

    Effects.  The refs of the component are a record threaded through the
    render functions; what a tick draws is returned as a list of layers in
    drawing order; the values of [Math.random()] are inputs; the export
    run is a transition system over its flag, its resources and the
    callbacks the browser holds for it.  Callbacks handed in by the parent
    ([onExportComplete] and the like) are taken to return normally.

    Further code.  Beyond those, the development embeds
    [drawMediaToCanvas] of the player, the retry engine
    ([executeWithRetry]), what [generateScenes] makes of a response, the
    chunking and merging of [generateVoiceOver], the state updates of
    [handleBulkImageUpload] and [handleBulkVideoUpload] and the schedule
    of [runBatchImageGeneration] in the editor, and the geometry of
    [Timeline].  Strings that are cut by index are lists of UTF-16 code
    units; a loop whose counter does not go down by one takes a fuel
    argument and comes with the proof that the fuel given suffices; object
    identity, where [indexOf] depends on it, is an explicit reference. *)

From Stdlib Require Import String Ascii DecimalString DecimalNat.
From Stdlib Require Import ZArith QArith Qround Qminmax Qabs Qpower.
From Stdlib Require Import List Sorted Bool Lia Lqa.
Import ListNotations.

Open Scope Q_scope.

(* ================================================================== *)
(** * Numeric helpers *)
(* ================================================================== *)

(** [x < y] as a boolean, the way the code branches on it. *)
Definition Qltb (x y : Q) : bool := negb (Qle_bool y x).

(** An index or a length, as a number. *)
Definition Qi (k : nat) : Q := inject_Z (Z.of_nat k).

(** Truncation toward zero (the integer conversion of typed-array stores). *)
Definition Qtrunc (q : Q) : Z := Z.quot (Qnum q) (Z.pos (Qden q)).

(* ================================================================== *)
(** * The silence trimmer ([trimSilenceFromAudio])  *)
(* ================================================================== *)

(** [const threshold = 0.015] *)
Definition threshold : Q := 0.015.

(** An element [{ start, end }] of [keepSegments]. *)
Record Segment : Type := mkSegment { seg_start : Q; seg_end : Q }.

(** The mutable locals of the scan: [isSilent], [silenceStart],
    [currentSegmentStart] (with its sentinel [-1]) and [keepSegments]. *)
Record ScanState : Type := mkScan {
  isSilent : bool;
  silenceStart : nat;
  currentSegmentStart : Q;
  keepSegments : list Segment
}.

(** [let isSilent = true; let silenceStart = 0; keepSegments = [];
     let currentSegmentStart = -1;] *)
Definition scan_init : ScanState :=
  {| isSilent := true; silenceStart := 0%nat;
     currentSegmentStart := -1; keepSegments := [] |}.

(** [amplitude > threshold] for the sample [x]. *)
Definition loud (x : Q) : bool := Qltb threshold (Qabs x).

Section Scan.

(** [channelData.length], [minSilenceSamples] and [paddingSamples]. *)
Variable len : nat.
Variables minSilenceSamples paddingSamples : Q.

(** The body of the [for] loop at index [i] with [channelData[i] = x]. *)
Definition scan_step (i : nat) (x : Q) (st : ScanState) : ScanState :=
  if loud x then
    {| isSilent := false;
       silenceStart := i;
       currentSegmentStart :=
         (if Qeq_bool (currentSegmentStart st) (-1)
          then Qmax 0 (Qi i - paddingSamples)
          else currentSegmentStart st);
       keepSegments := keepSegments st |}
  else if negb (isSilent st)
          && Qltb minSilenceSamples (Qi i - Qi (silenceStart st)) then
    {| isSilent := true;
       silenceStart := silenceStart st;
       currentSegmentStart := -1;
       keepSegments :=
         keepSegments st ++
         [ {| seg_start := currentSegmentStart st;
              seg_end := Qmin (Qi len)
                              (Qi i - minSilenceSamples + paddingSamples) |} ] |}
  else st.

(** [for (let i = ...; i < channelData.length; i++)] over the samples that
    remain from index [i] on. *)
Fixpoint scan_loop (i : nat) (samples : list Q) (st : ScanState) : ScanState :=
  match samples with
  | [] => st
  | x :: rest => scan_loop (S i) rest (scan_step i x st)
  end.

(** [if (currentSegmentStart !== -1) keepSegments.push({ start, end: length })] *)
Definition scan_finish (st : ScanState) : list Segment :=
  if Qeq_bool (currentSegmentStart st) (-1)
  then keepSegments st
  else keepSegments st ++
       [ {| seg_start := currentSegmentStart st; seg_end := Qi len |} ].

(** The state a cut at index [d] leaves behind. *)
Definition cut_state (d : nat) (st : ScanState) : ScanState :=
  {| isSilent := true;
     silenceStart := silenceStart st;
     currentSegmentStart := -1;
     keepSegments :=
       keepSegments st ++
       [ {| seg_start := currentSegmentStart st;
            seg_end := Qmin (Qi len) (Qi d - minSilenceSamples + paddingSamples) |} ] |}.

(** The index at which a silence that began after the loud sample [L]
    has lasted more than [minSilenceSamples] samples. *)
Definition detectIndex (L : nat) : nat := (L + 1 + Z.to_nat (Qfloor minSilenceSamples))%nat.

End Scan.

(** [minSilenceSamples = sampleRate * 0.4] and [paddingSamples = sampleRate * 0.1]. *)
Definition minSilenceSamplesOf (sampleRate : Z) : Q := inject_Z sampleRate * 0.4.
Definition paddingSamplesOf (sampleRate : Z) : Q := inject_Z sampleRate * 0.1.

(** The state of the scan after its first [k] iterations. *)
Definition scanPrefix (channelData : list Q) (sampleRate : Z) (k : nat) : ScanState :=
  scan_loop (length channelData) (minSilenceSamplesOf sampleRate)
            (paddingSamplesOf sampleRate) 0 (firstn k channelData) scan_init.

(** [keepSegments] as it stands after the loop and the final push. *)
Definition computeKeepSegments (channelData : list Q) (sampleRate : Z) : list Segment :=
  scan_finish (length channelData)
    (scan_loop (length channelData) (minSilenceSamplesOf sampleRate)
               (paddingSamplesOf sampleRate) 0 channelData scan_init).

(** ** Building the output PCM *)

(** [channelData[j]]: defined at integral in-range positions, [undefined]
    everywhere else. *)
Definition readSample (channelData : list Q) (j : Q) : option Q :=
  if Qeq_bool (inject_Z (Qfloor j)) j && (0 <=? Qfloor j)%Z
  then nth_error channelData (Z.to_nat (Qfloor j))
  else None.

(** Storing a number into an [Int16Array] slot: truncate, wrap to 16 bits,
    read back signed. *)
Definition toInt16 (q : Q) : Z :=
  ((Qtrunc q + 32768) mod 65536 - 32768)%Z.

(** [Math.max(-1, Math.min(1, channelData[j])) * 32767] stored into the
    array; an [undefined] sample gives [NaN], stored as [0]. *)
Definition quantize (v : option Q) : Z :=
  match v with
  | Some x => toInt16 (Qmax (-1) (Qmin 1 x) * 32767)
  | None => 0%Z
  end.

(** The positions [j] visited by [for (let j = seg.start; j < seg.end; j++)]. *)
Definition segPositions (seg : Segment) : list Q :=
  map (fun k => seg_start seg + Qi k)
      (seq 0 (Z.to_nat (Qceiling (seg_end seg - seg_start seg)))).

(** [keepSegments.reduce((acc, seg) => acc + (seg.end - seg.start), 0)] *)
Definition totalSamples (segs : list Segment) : Q :=
  fold_left (fun acc seg => acc + (seg_end seg - seg_start seg)) segs 0.

(** [new Int16Array(totalSamples)] filled by the two nested loops: stores
    beyond the array's length are dropped, slots never stored stay [0].
    A negative length raises [RangeError]. *)
Definition buildPcm (channelData : list Q) (segs : list Segment) : option (list Z) :=
  let total := totalSamples segs in
  if Qltb total 0 then None
  else
    let n := Z.to_nat (Qfloor total) in
    let stores := flat_map (fun seg => map (fun j => quantize (readSample channelData j))
                                           (segPositions seg)) segs in
    Some (firstn n (stores ++ repeat 0%Z n)).

(* ================================================================== *)
(** * The WAV container ([createWavBlob]) *)
(* ================================================================== *)

(** A [Blob]: its bytes (each in [0, 256)) and its MIME type. *)
Record Blob : Type := mkBlob { blob_bytes : list Z; blob_type : string }.

(** [view.setUint8(o, v)] on the bytes behind a [DataView].  (An offset
    past the end raises [RangeError] in the source; [createWavBlob] only
    uses offsets below 44.) *)
Fixpoint setUint8 (view : list Z) (o : nat) (v : Z) : list Z :=
  match view, o with
  | [], _ => []
  | _ :: t, O => (v mod 256)%Z :: t
  | b :: t, S o' => b :: setUint8 t o' v
  end.

(** [view.setUint16(o, v, true)]: [v] modulo [2^16], low byte first. *)
Definition setUint16 (view : list Z) (o : nat) (v : Z) : list Z :=
  let w := (v mod 65536)%Z in
  setUint8 (setUint8 view o w) (o + 1) (w / 256)%Z.

(** [view.setUint32(o, v, true)]: [v] modulo [2^32], low byte first. *)
Definition setUint32 (view : list Z) (o : nat) (v : Z) : list Z :=
  let w := (v mod 4294967296)%Z in
  setUint8 (setUint8 (setUint8 (setUint8 view o w)
                               (o + 1) (w / 256)%Z)
                     (o + 2) (w / 65536)%Z)
           (o + 3) (w / 16777216)%Z.

(** [writeStr(o, s)]: one [setUint8] per character code. *)
Fixpoint writeStr (view : list Z) (o : nat) (s : string) : list Z :=
  match s with
  | EmptyString => view
  | String c s' => writeStr (setUint8 view o (Z.of_nat (nat_of_ascii c))) (S o) s'
  end.

(** [createWavBlob(pcmBuffer, sampleRate)] *)
Definition createWavBlob (pcmBuffer : list Z) (sampleRate : Z) : Blob :=
  let byteLength := Z.of_nat (length pcmBuffer) in
  let view := repeat 0%Z 44 in
  let view := writeStr view 0 "RIFF" in
  let view := setUint32 view 4 (36 + byteLength) in
  let view := writeStr view 8 "WAVE" in
  let view := writeStr view 12 "fmt " in
  let view := setUint32 view 16 16 in
  let view := setUint16 view 20 1 in
  let view := setUint16 view 22 1 in
  let view := setUint32 view 24 sampleRate in
  let view := setUint32 view 28 (sampleRate * 2) in
  let view := setUint16 view 32 2 in
  let view := setUint16 view 34 16 in
  let view := writeStr view 36 "data" in
  let view := setUint32 view 40 byteLength in
  {| blob_bytes := view ++ pcmBuffer; blob_type := "audio/wav" |}.

(** [cleanedPcm.buffer]: the bytes behind an [Int16Array], two per sample,
    low byte first. *)
Definition int16Buffer (pcm : list Z) : list Z :=
  flat_map (fun v => [(v mod 256)%Z; ((v / 256) mod 256)%Z]) pcm.

(** ** Re-parsing a WAV header *)

Definition getUint8 (bytes : list Z) (o : nat) : Z := nth o bytes 0%Z.

Definition getUint16 (bytes : list Z) (o : nat) : Z :=
  (getUint8 bytes o + 256 * getUint8 bytes (o + 1))%Z.

Definition getUint32 (bytes : list Z) (o : nat) : Z :=
  (getUint8 bytes o + 256 * getUint8 bytes (o + 1)
   + 65536 * getUint8 bytes (o + 2) + 16777216 * getUint8 bytes (o + 3))%Z.

Definition readStr (bytes : list Z) (o n : nat) : list Z := firstn n (skipn o bytes).

Definition codes (s : string) : list Z :=
  map (fun c => Z.of_nat (nat_of_ascii c)) (list_ascii_of_string s).

(** The fields of the canonical 44-byte RIFF/WAVE header. *)
Record WavHeader : Type := mkWavHeader {
  wav_riffSize : Z;
  wav_audioFormat : Z;
  wav_channels : Z;
  wav_sampleRate : Z;
  wav_byteRate : Z;
  wav_blockAlign : Z;
  wav_bitsPerSample : Z;
  wav_dataSize : Z
}.

(** Parse the header at the front of a blob's bytes; [None] when the four
    chunk tags are not where the layout puts them. *)
Definition parseWavHeader (bytes : list Z) : option WavHeader :=
  if (44 <=? length bytes)%nat
     && forallb (fun p => if list_eq_dec Z.eq_dec (readStr bytes (fst p) 4) (codes (snd p))
                          then true else false)
                [(0, "RIFF"); (8, "WAVE"); (12, "fmt "); (36, "data")]%nat%string
  then Some {| wav_riffSize := getUint32 bytes 4;
               wav_audioFormat := getUint16 bytes 20;
               wav_channels := getUint16 bytes 22;
               wav_sampleRate := getUint32 bytes 24;
               wav_byteRate := getUint32 bytes 28;
               wav_blockAlign := getUint16 bytes 32;
               wav_bitsPerSample := getUint16 bytes 34;
               wav_dataSize := getUint32 bytes 40 |}
  else None.

(* ================================================================== *)
(** * [trimSilenceFromAudio] *)
(* ================================================================== *)

(** What [decodeAudioData] yields: channel 0 and the sample rate. *)
Record AudioBuffer : Type := mkAudioBuffer {
  getChannelData : list Q;
  buffer_sampleRate : Z
}.

Section Trim.

(** The browser's decoder; [None] stands for a rejected promise. *)
Variable decodeAudioData : Blob -> option AudioBuffer.

Definition trimSilenceFromAudio (blob : Blob) : option Blob :=
  match decodeAudioData blob with
  | None => None
  | Some audioBuffer =>
      let channelData := getChannelData audioBuffer in
      let sampleRate := buffer_sampleRate audioBuffer in
      let keepSegments := computeKeepSegments channelData sampleRate in
      if (length keepSegments =? 0)%nat then Some blob
      else
        match buildPcm channelData keepSegments with
        | None => None
        | Some cleanedPcm => Some (createWavBlob (int16Buffer cleanedPcm) sampleRate)
        end
  end.

End Trim.

(* ================================================================== *)
(** * The compositor ([Player.tsx]): data *)
(* ================================================================== *)

(** [const TRANSITION_DURATION = 1.0] *)
Definition TRANSITION_DURATION : Q := 1.0.

(** [Scene.transitionType] *)
Inductive TransitionType : Type :=
| ZoomThrough     (* 'zoom-through' *)
| PolygonWipe     (* 'polygon-wipe' *)
| Parallax25d     (* 'parallax-2.5d' *)
| Standard.       (* 'standard' *)

(** The fields of [Scene] the player reads. *)
Record Scene : Type := mkScene {
  id : string;
  startTime : Q;
  endTime : Q;
  imageUrl : option string;
  videoClipUrl : option string;
  transitionType : TransitionType
}.

Inductive AspectRatio : Type := Ratio16x9 | Ratio9x16 | Ratio1x1.

(** The props of [Player] that reach the canvas. *)
Record PlayerProps : Type := mkProps {
  scenes : list Scene;
  aspectRatio : AspectRatio;
  enableEmbers : bool;
  kenBurnsStrength : Q;
  filmGrainStrength : Q;
  enableVaporOverlay : bool;
  vaporOverlayOpacity : Q;
  enableLetterboxing : bool;
  enablePolygonAssembly : bool
}.

(** A [<video>] element: what the player reads and writes of it.
    [duration] is [None] while it is [NaN]. *)
Record Video : Type := mkVideo {
  src : string;
  duration : option Q;
  currentTime : Q;
  playbackRate : Q;
  paused : bool;
  readyState : nat
}.

(** An ember, as pushed by [updateParticles]. *)
Record Particle : Type := mkParticle {
  p_x : Q; p_y : Q; p_vx : Q; p_vy : Q; p_size : Q;
  p_life : Z;
  p_green : Z     (* the middle channel of [color] *)
}.

(** The values [Math.random()] returns to one [updateParticles] call, in
    the order it may ask for them. *)
Record EmberDraws : Type := mkDraws {
  r_spawn : Q; r_x : Q; r_vx : Q; r_vy : Q; r_size : Q; r_color : Q
}.

(** The mutable refs of the component. *)
Record Refs : Type := mkRefs {
  video1 : Video;
  video2 : Video;
  imageCache : list string;             (* keys of the [Map] *)
  particlesRef : list Particle;
  grainCacheRef : bool;                 (* the grain tile exists *)
  vaporReady : bool;                    (* the overlay video is mounted, readyState >= 2 *)
  lastActiveSceneId : option string
}.

(** ** What a tick puts on the canvas *)

(** [cos] or [sin] of [k * PI / 3], kept symbolic. *)
Inductive Trig : Type := Cos (k : nat) | Sin (k : nat).

(** The coordinate [base + radius * trig]. *)
Record Coord : Type := mkCoord { c_base : Q; c_radius : Q; c_trig : Trig }.

Inductive PathOp : Type :=
| MoveTo (x y : Coord)
| LineTo (x y : Coord).

(** One call of [renderSceneFrame]: the parameters it resolves and the
    layers it draws with them. *)
Record SceneRender : Type := mkSceneRender {
  sr_scene : string;                    (* [scene.id] *)
  sr_outgoing : bool;
  sr_scale : Q;
  sr_opacity : Q;
  sr_xOffset : Q;
  sr_yOffset : Q;
  sr_clip : option (list PathOp);       (* the path given to [ctx.clip()] *)
  sr_assembly : option (Z * Q);         (* triangle count and fill alpha *)
  sr_image : bool;                      (* layer 1 drawn *)
  sr_video : option nat                 (* layer 2 drawn, from slot 1 or 2 *)
}.

(** The passes of a tick, in drawing order. *)
Inductive Layer : Type :=
| LBlack                                (* [fillRect(0, 0, width, height)] in '#000' *)
| LScene (r : SceneRender)
| LEmbers (isDeterministic : bool) (drawn : list Particle)
| LVapor (alpha : Q)
| LGrain (alpha : Q)
| LLetterbox (barHeight : Q).

Definition Frame : Type := list Layer.

(* ================================================================== *)
(** * The compositor: operations *)
(* ================================================================== *)

(** JavaScript truthiness of an optional string. *)
Definition truthy (u : option string) : bool :=
  match u with
  | Some s => negb (String.eqb s "")
  | None => false
  end.

(** [video.src === scene.videoClipUrl] *)
Definition srcMatches (v : Video) (url : option string) : bool :=
  match url with
  | Some u => String.eqb (src v) u
  | None => false
  end.

(** [getDimensions()] *)
Definition getDimensions (a : AspectRatio) : Q * Q :=
  match a with
  | Ratio9x16 => (720, 1280)
  | Ratio1x1 => (720, 720)
  | Ratio16x9 => (1280, 720)
  end.

(** [scenes.findIndex(pred)], counting from [i]. *)
Fixpoint findIndexFrom {A} (pred : A -> bool) (l : list A) (i : nat) : option nat :=
  match l with
  | [] => None
  | a :: rest => if pred a then Some i else findIndexFrom pred rest (S i)
  end.

(** [s => t >= s.startTime && t < s.endTime] *)
Definition activeAt (t : Q) (s : Scene) : bool :=
  Qle_bool (startTime s) t && Qltb t (endTime s).

Definition findActive (scs : list Scene) (t : Q) : option nat :=
  findIndexFrom (activeAt t) scs 0.

(** [scene.id.charCodeAt(scene.id.length - 1) % 2 === 0 ? 1 : -1]; the
    empty string has no last character and gives [-1]. *)
Fixpoint lastCharCode (s : string) : option nat :=
  match s with
  | EmptyString => None
  | String c EmptyString => Some (nat_of_ascii c)
  | String _ rest => lastCharCode rest
  end.

Definition panSeed (sceneId : string) : Q :=
  match lastCharCode sceneId with
  | Some c => if Nat.even c then 1 else -1
  | None => -1
  end.

(** The six vertices of the wipe: [moveTo] for [i = 0], [lineTo] after. *)
Definition hexagonPath (width height size : Q) : list PathOp :=
  map (fun i =>
         let x := {| c_base := width / 2; c_radius := size; c_trig := Cos i |} in
         let y := {| c_base := height / 2; c_radius := size; c_trig := Sin i |} in
         if (i =? 0)%nat then MoveTo x y else LineTo x y)
      (seq 0 6).

(** [v.duration || sceneDuration] *)
Definition durationOr (v : Video) (sceneDuration : Q) : Q :=
  match duration v with
  | Some d => if Qeq_bool d 0 then sceneDuration else d
  | None => sceneDuration
  end.

(** The velocity-sync block of [renderSceneFrame] (the body of
    [if (scene.videoClipUrl && v && v.readyState >= 2)] up to the draw). *)
Definition velocitySync (isPlaying : bool) (sceneDuration elapsed : Q) (v : Video) : Video :=
  let baseRate := durationOr v sceneDuration / sceneDuration in
  let targetTime := elapsed * baseRate in
  let drift := currentTime v - targetTime in
  let v1 :=
    if Qltb 0.5 (Qabs drift) then
      {| src := src v; duration := duration v; currentTime := targetTime;
         playbackRate := playbackRate v; paused := paused v; readyState := readyState v |}
    else if Qltb 0.05 (Qabs drift) then
      {| src := src v; duration := duration v; currentTime := currentTime v;
         playbackRate := (if Qltb 0 drift then baseRate * 0.95 else baseRate * 1.05);
         paused := paused v; readyState := readyState v |}
    else
      {| src := src v; duration := duration v; currentTime := currentTime v;
         playbackRate := baseRate; paused := paused v; readyState := readyState v |} in
  if isPlaying && paused v1 then
    {| src := src v1; duration := duration v1; currentTime := currentTime v1;
       playbackRate := playbackRate v1; paused := false; readyState := readyState v1 |}
  else v1.

Definition setVideo1 (r : Refs) (v : Video) : Refs :=
  {| video1 := v; video2 := video2 r; imageCache := imageCache r;
     particlesRef := particlesRef r; grainCacheRef := grainCacheRef r;
     vaporReady := vaporReady r; lastActiveSceneId := lastActiveSceneId r |}.

Definition setVideo2 (r : Refs) (v : Video) : Refs :=
  {| video1 := video1 r; video2 := v; imageCache := imageCache r;
     particlesRef := particlesRef r; grainCacheRef := grainCacheRef r;
     vaporReady := vaporReady r; lastActiveSceneId := lastActiveSceneId r |}.

Definition setParticles (r : Refs) (ps : list Particle) : Refs :=
  {| video1 := video1 r; video2 := video2 r; imageCache := imageCache r;
     particlesRef := ps; grainCacheRef := grainCacheRef r;
     vaporReady := vaporReady r; lastActiveSceneId := lastActiveSceneId r |}.

Definition setLastActive (r : Refs) (sid : string) : Refs :=
  {| video1 := video1 r; video2 := video2 r; imageCache := imageCache r;
     particlesRef := particlesRef r; grainCacheRef := grainCacheRef r;
     vaporReady := vaporReady r; lastActiveSceneId := Some sid |}.

Section Render.

Variable props : PlayerProps.

(** [isPlaying], as captured by the closure. *)
Variable isPlaying : bool.

Definition width : Q := fst (getDimensions (aspectRatio props)).
Definition height : Q := snd (getDimensions (aspectRatio props)).

(** [renderSceneFrame(ctx, scene, time, transitionProgress, isOutgoing)]:
    the parameters it resolves, which of its two layers it hands to
    [drawMediaToCanvas] (which itself skips a medium of zero width or
    height), and the refs with the selected clip synced. *)
Definition renderSceneFrame (refs : Refs) (scene : Scene) (time transitionProgress : Q)
           (isOutgoing : bool) : SceneRender * Refs :=
  let sceneDuration := endTime scene - startTime scene in
  let elapsed := time - startTime scene in
  let progress := Qmin 1 (Qmax 0 (elapsed / sceneDuration)) in
  (* Parallax 2.5D *)
  let moving :=
    match transitionType scene with Parallax25d => true | _ => false end
    || Qltb 0 (kenBurnsStrength props) in
  let ease := if Qltb progress 0.5 then 2 * progress * progress
              else -1 + (4 - 2 * progress) * progress in
  let scale0 := if moving then 1.0 + kenBurnsStrength props * 0.15 + ease * 0.05 else 1.0 in
  let xOffset := if moving then ease * 20 * panSeed (id scene) else 0 in
  let yOffset := 0 in
  (* Transition logic *)
  let '(scale, opacity, clip) :=
    if isOutgoing then
      match transitionType scene with
      | ZoomThrough => (scale0 * (1 + transitionProgress * 4), 1 - transitionProgress, None)
      | PolygonWipe => (scale0, 1.0, None)
      | _ => (scale0, 1 - transitionProgress, None)
      end
    else
      match transitionType scene with
      | ZoomThrough => (scale0, transitionProgress, None)
      | PolygonWipe =>
          let p := transitionProgress in
          let size := Qmax width height * p * 1.5 in
          (scale0, 1.0, Some (hexagonPath width height size))
      | _ => (scale0, transitionProgress, None)
      end in
  (* Polygon assembly effect *)
  let assembly :=
    if enablePolygonAssembly props && negb isOutgoing && Qltb elapsed 1.0
    then Some (Qfloor (20 * (1.0 - elapsed)), 0.3 * (1.0 - elapsed))
    else None in
  (* Layer 1: persistent image *)
  let image :=
    match imageUrl scene with
    | Some u => truthy (imageUrl scene) && existsb (String.eqb u) (imageCache refs)
    | None => false
    end in
  (* Layer 2: video with dynamic sync *)
  let slot :=
    if srcMatches (video1 refs) (videoClipUrl scene) then Some 1%nat
    else if srcMatches (video2 refs) (videoClipUrl scene) then Some 2%nat
    else None in
  let synced (v : Video) : option Video :=
    if truthy (videoClipUrl scene) && (2 <=? readyState v)%nat
    then Some (velocitySync isPlaying sceneDuration elapsed v)
    else None in
  let '(video, refs') :=
    match slot with
    | Some 1%nat =>
        match synced (video1 refs) with
        | Some v' => (Some 1%nat, setVideo1 refs v')
        | None => (None, refs)
        end
    | Some _ =>
        match synced (video2 refs) with
        | Some v' => (Some 2%nat, setVideo2 refs v')
        | None => (None, refs)
        end
    | None => (None, refs)
    end in
  ({| sr_scene := id scene; sr_outgoing := isOutgoing;
      sr_scale := scale; sr_opacity := opacity;
      sr_xOffset := xOffset; sr_yOffset := yOffset;
      sr_clip := clip; sr_assembly := assembly;
      sr_image := image; sr_video := video |}, refs').

(** The pre-loading block shared by [draw] and [exportLoop]:
    [nextV.src = url; nextV.load(); nextV.currentTime = 0]. *)
Definition loadClip (url : string) : Video :=
  {| src := url; duration := None; currentTime := 0;
     playbackRate := 1; paused := true; readyState := 0 |}.

Definition preload (refs : Refs) (activeScene : Scene) : Refs :=
  if match lastActiveSceneId refs with
     | Some last => String.eqb (id activeScene) last
     | None => false
     end
  then refs
  else
    let refs := setLastActive refs (id activeScene) in
    let v1Match := srcMatches (video1 refs) (videoClipUrl activeScene) in
    let v2Match := srcMatches (video2 refs) (videoClipUrl activeScene) in
    match videoClipUrl activeScene with
    | Some url =>
        if negb v1Match && negb v2Match && truthy (videoClipUrl activeScene) then
          if paused (video1 refs) then setVideo1 refs (loadClip url)
          else setVideo2 refs (loadClip url)
        else refs
    | None => refs
    end.

(** The transition / stable phase: one or two [renderSceneFrame] calls. *)
Definition renderScenes (refs : Refs) (idx : nat) (activeScene : Scene) (t : Q)
  : list SceneRender * Refs :=
  let tIn := t - startTime activeScene in
  match (if (0 <? idx)%nat && Qltb tIn TRANSITION_DURATION
         then nth_error (scenes props) (idx - 1) else None) with
  | Some prevScene =>
      let transitionProgress := tIn / TRANSITION_DURATION in
      let '(out, refs1) := renderSceneFrame refs prevScene t transitionProgress true in
      let '(inc, refs2) := renderSceneFrame refs1 activeScene t transitionProgress false in
      ([out; inc], refs2)
  | None =>
      let '(r, refs1) := renderSceneFrame refs activeScene t 1.0 false in
      ([r], refs1)
  end.

(** The particle [updateParticles] pushes. *)
Definition newParticle (r : EmberDraws) : Particle :=
  {| p_x := r_x r * width; p_y := height + 10;
     p_vx := (r_vx r - 0.5) * 1.2; p_vy := - r_vy r * 2.5 - 0.8;
     p_size := r_size r * 2.0 + 0.5; p_life := 180;
     p_green := (Qfloor (r_color r * 100) + 120)%Z |}.

(** [p.x += p.vx; p.y += p.vy; p.life--] *)
Definition moveParticle (p : Particle) : Particle :=
  {| p_x := p_x p + p_vx p; p_y := p_y p + p_vy p; p_vx := p_vx p; p_vy := p_vy p;
     p_size := p_size p; p_life := (p_life p - 1)%Z; p_green := p_green p |}.

(** [p.life <= 0 || p.y < -20] *)
Definition expired (p : Particle) : bool :=
  (p_life p <=? 0)%Z || Qltb (p_y p) (-20).

(** The spawn test and push at the top of [updateParticles]. *)
Definition spawnParticle (isDeterministic : bool) (r : EmberDraws)
           (ps : list Particle) : list Particle :=
  if (length ps <? 50)%nat && (isDeterministic || Qltb 0.6 (r_spawn r))
  then ps ++ [newParticle r]
  else ps.

(** The backward loop of [updateParticles]: every particle is moved and
    drawn, last first, and spliced out when expired. *)
Fixpoint sweepParticles (ps : list Particle) : list Particle * list Particle :=
  match ps with
  | [] => ([], [])
  | p :: rest =>
      let '(drawn, kept) := sweepParticles rest in
      let p' := moveParticle p in
      (drawn ++ [p'], if expired p' then kept else p' :: kept)
  end.

(** [updateParticles(ctx, isDeterministic)]: the particles drawn (when the
    pass runs) and the new contents of [particlesRef]. *)
Definition updateParticles (isDeterministic : bool) (r : EmberDraws)
           (ps : list Particle) : option (list Particle) * list Particle :=
  if negb (enableEmbers props) then (None, [])
  else
    let '(drawn, kept) := sweepParticles (spawnParticle isDeterministic r ps) in
    (Some drawn, kept).

Definition embersPass (isDeterministic : bool) (r : EmberDraws) (refs : Refs)
  : Frame * Refs :=
  if enableEmbers props then
    match updateParticles isDeterministic r (particlesRef refs) with
    | (Some drawn, kept) => ([LEmbers isDeterministic drawn], setParticles refs kept)
    | (None, kept) => ([], setParticles refs kept)
    end
  else ([], refs).

(** [drawFilmGrain(ctx)], guarded by [filmGrainStrength > 0]. *)
Definition grainPass (refs : Refs) : Frame :=
  if Qltb 0 (filmGrainStrength props) && grainCacheRef refs
  then [LGrain (filmGrainStrength props * 0.15)]
  else [].

Definition vaporPass (refs : Refs) : Frame :=
  if enableVaporOverlay props && vaporReady refs
  then [LVapor (vaporOverlayOpacity props)]
  else [].

Definition letterboxPass : Frame :=
  if enableLetterboxing props then [LLetterbox (height * 0.1)] else [].

(** The black fill both loops start with when there is nothing to show. *)
Definition blankPass (active : option Scene) : Frame :=
  match active with
  | None => [LBlack]
  | Some s => if negb (truthy (imageUrl s)) && negb (truthy (videoClipUrl s))
              then [LBlack] else []
  end.

(** One run of [draw] at [audio.currentTime = currentTime], short of the
    rescheduling at its end. *)
Definition draw (isExporting : bool) (r : EmberDraws) (refs : Refs) (currentTime : Q)
  : Frame * Refs :=
  if isExporting then ([], refs)
  else
    let idx := findActive (scenes props) currentTime in
    let activeScene := match idx with
                       | Some i => nth_error (scenes props) i
                       | None => None
                       end in
    let refs := match activeScene with
                | Some s => preload refs s
                | None => refs
                end in
    let blank := blankPass activeScene in
    let '(content, refs) :=
      match idx, activeScene with
      | Some i, Some s =>
          let '(rs, refs') := renderScenes refs i s currentTime in
          (LBlack :: map LScene rs, refs')
      | _, _ => ([], refs)
      end in
    let '(embers, refs) := embersPass false r refs in
    let vapor := vaporPass refs in
    let grain := grainPass refs in
    (blank ++ content ++ embers ++ vapor ++ grain ++ letterboxPass, refs).

(** The drawing part of one [exportLoop] iteration at
    [currentT = audioCtx.currentTime - startT]. *)
Definition exportFrame (r : EmberDraws) (refs : Refs) (currentT : Q) : Frame * Refs :=
  let idx := findActive (scenes props) currentT in
  let s := match idx with
           | Some i => nth_error (scenes props) i
           | None => None
           end in
  let blank := blankPass s in
  let '(content, refs) :=
    match idx, s with
    | Some i, Some sc =>
        let refs := preload refs sc in
        let '(rs, refs') := renderScenes refs i sc currentT in
        (map LScene rs, refs')
    | _, _ => ([], refs)
    end in
  let '(embers, refs) := embersPass true r refs in
  let grain := grainPass refs in
  (blank ++ content ++ embers ++ grain, refs).

End Render.

(* ================================================================== *)
(** * The export run ([handleExport] and its [exportLoop]) *)
(* ================================================================== *)

(** [MediaRecorder.state] and [AudioContext.state], as far as the export
    run distinguishes them. *)
Inductive RecorderState : Type := RecInactive | RecRecording.
Inductive ContextState : Type := CtxRunning | CtxClosed.

(** The [ProcessingStatus] values the export run reports. *)
Inductive ProcessingStatus : Type :=
| StatusWarming                                  (* exporting, 5, 'Warming Master Render Engine...' *)
| StatusExporting (progress : Z) (part : Z) (parts : nat)
                                                 (* exporting, 'Seamless Export: Part i/n' *)
| StatusCrash.                                   (* idle, 0, 'Export engine crash.' *)

(** One export run: the shared liveness flag, the React state, the
    resources the run acquired, and what the event loop holds for it. *)
Record ExportState : Type := mkExport {
  isExportingRef : bool;       (* [isExportingRef.current] *)
  isExporting : bool;          (* the [isExporting] state *)
  audioCtx : ContextState;     (* the run's [audioCtx] *)
  recorder : RecorderState;    (* the run's [recorder] *)
  stopQueued : bool;           (* a 'stop' event of [recorder] awaits its handler *)
  loopScheduled : bool;        (* a call of [exportLoop] is pending *)
  downloads : nat;             (* clicks on the download link *)
  status : ProcessingStatus;   (* last [setProcessingStatus] *)
  laterExport : bool           (* a later [handleExport] call holds the flag *)
}.

(** The state [handleExport] reaches once [recorder.start()] and
    [mainSource.start(0)] have run, with the first [exportLoop()] call
    about to be made. *)
Definition exportStarted : ExportState :=
  {| isExportingRef := true; isExporting := true;
     audioCtx := CtxRunning; recorder := RecRecording;
     stopQueued := false; loopScheduled := true;
     downloads := 0; status := StatusWarming; laterExport := false |}.

(** The state the [catch] of [handleExport] leaves when the set-up or the
    first, synchronous [exportLoop()] call throws: both flags cleared, the
    crash reported, no call pending, and whatever was acquired by then
    left as it is. *)
Definition exportCrashed (rec : RecorderState) : ExportState :=
  {| isExportingRef := false; isExporting := false;
     audioCtx := CtxRunning; recorder := rec;
     stopQueued := false; loopScheduled := false;
     downloads := 0; status := StatusCrash; laterExport := false |}.

(** [recorder.onstop]: download, clear both flags, notify, close the
    audio context. *)
Definition onstop (st : ExportState) : ExportState :=
  {| isExportingRef := false; isExporting := false;
     audioCtx := CtxClosed; recorder := recorder st;
     stopQueued := false; loopScheduled := loopScheduled st;
     downloads := S (downloads st); status := status st;
     laterExport := laterExport st |}.

(** [Math.round(x)] *)
Definition jsRound (x : Q) : Z := Qfloor (x + 0.5).

Section ExportLoop.

Variable props : PlayerProps.
Variable isPlaying : bool.

(** [mainBuffer.duration] *)
Variable totalT : Q.

(** One call of [exportLoop], with [currentT = audioCtx.currentTime - startT]
    and [hasCanvas] telling whether the 2d context was obtained. *)
Definition exportLoop (hasCanvas : bool) (currentT : Q) (r : EmberDraws)
           (st : ExportState) (refs : Refs) : Frame * ExportState * Refs :=
  let st0 := {| isExportingRef := isExportingRef st; isExporting := isExporting st;
                audioCtx := audioCtx st; recorder := recorder st;
                stopQueued := stopQueued st; loopScheduled := false;
                downloads := downloads st; status := status st;
                laterExport := laterExport st |} in
  if negb (isExportingRef st) then ([], st0, refs)
  else if negb hasCanvas then ([], st0, refs)
  else
    let '(frame, refs') := exportFrame props isPlaying r refs currentT in
    let idx := match findActive (scenes props) currentT with
               | Some i => Z.of_nat i
               | None => (-1)%Z
               end in
    let st1 := {| isExportingRef := isExportingRef st; isExporting := isExporting st;
                  audioCtx := audioCtx st; recorder := recorder st;
                  stopQueued := stopQueued st; loopScheduled := false;
                  downloads := downloads st;
                  status := StatusExporting
                              (Z.min 99 (jsRound (currentT / totalT * 100)))
                              (idx + 1) (length (scenes props));
                  laterExport := laterExport st |} in
    if Qltb currentT totalT then
      (* requestAnimationFrame(exportLoop) *)
      (frame,
       {| isExportingRef := isExportingRef st1; isExporting := isExporting st1;
          audioCtx := audioCtx st1; recorder := recorder st1;
          stopQueued := stopQueued st1; loopScheduled := true;
          downloads := downloads st1; status := status st1;
          laterExport := laterExport st1 |}, refs')
    else
      (* recorder.stop(): an inactive recorder throws instead *)
      match recorder st1 with
      | RecRecording =>
          (frame,
           {| isExportingRef := isExportingRef st1; isExporting := isExporting st1;
              audioCtx := audioCtx st1; recorder := RecInactive;
              stopQueued := true; loopScheduled := false;
              downloads := downloads st1; status := status st1;
              laterExport := laterExport st1 |}, refs')
      | RecInactive => (frame, st1, refs')
      end.

(** What can happen to a started export run, one event at a time. *)
Inductive export_step : ExportState * Refs -> ExportState * Refs -> Prop :=
| step_frame st refs hasCanvas currentT r :
    (* the pending [exportLoop] call runs *)
    loopScheduled st = true ->
    export_step (st, refs)
                (snd (fst (exportLoop hasCanvas currentT r st refs)),
                 snd (exportLoop hasCanvas currentT r st refs))
| step_recorder_ends st refs :
    (* the browser ends the recording by itself *)
    recorder st = RecRecording ->
    export_step (st, refs)
                ({| isExportingRef := isExportingRef st; isExporting := isExporting st;
                    audioCtx := audioCtx st; recorder := RecInactive;
                    stopQueued := true; loopScheduled := loopScheduled st;
                    downloads := downloads st; status := status st;
                    laterExport := laterExport st |}, refs)
| step_onstop st refs :
    (* the queued 'stop' event is delivered *)
    stopQueued st = true ->
    export_step (st, refs) (onstop st, refs)
| step_later_export st refs :
    (* another [handleExport] call passes [if (isExportingRef.current) return] *)
    isExportingRef st = false ->
    export_step (st, refs)
                ({| isExportingRef := true; isExporting := true;
                    audioCtx := audioCtx st; recorder := recorder st;
                    stopQueued := stopQueued st; loopScheduled := loopScheduled st;
                    downloads := downloads st; status := StatusWarming;
                    laterExport := true |}, refs)
| step_later_export_ends st refs crashed :
    (* that call's own [onstop], or its [catch] *)
    laterExport st = true ->
    export_step (st, refs)
                ({| isExportingRef := false; isExporting := false;
                    audioCtx := audioCtx st; recorder := recorder st;
                    stopQueued := stopQueued st; loopScheduled := loopScheduled st;
                    downloads := downloads st;
                    status := (if crashed : bool then StatusCrash else status st);
                    laterExport := false |}, refs).

(** The states an export run can be in. *)
Inductive export_reachable (refs0 : Refs) : ExportState * Refs -> Prop :=
| reach_start : export_reachable refs0 (exportStarted, refs0)
| reach_crash rec : export_reachable refs0 (exportCrashed rec, refs0)
| reach_step s s' : export_reachable refs0 s -> export_step s s' ->
                    export_reachable refs0 s'.

End ExportLoop.

(* ================================================================== *)
(** * Cover-fit drawing ([drawMediaToCanvas]) *)
(* ================================================================== *)

(** The call [ctx.drawImage(media, x, y, drawWidth, drawHeight)] made
    under [ctx.globalAlpha = opacity]. *)
Record DrawImage : Type := mkDrawImage {
  di_x : Q; di_y : Q; di_width : Q; di_height : Q; di_alpha : Q
}.

(** [drawMediaToCanvas(ctx, media, scale, opacity, xOffset, yOffset)] for a
    medium of intrinsic size [mWidth] by [mHeight] ([media.width] and
    [media.height], or [videoWidth] and [videoHeight]); [None] is the early
    return. *)
Definition drawMediaToCanvas (props : PlayerProps) (mWidth mHeight : nat)
           (scale opacity xOffset yOffset : Q) : option DrawImage :=
  if (mWidth =? 0)%nat || (mHeight =? 0)%nat then None
  else
    let baseScale := Qmax (width props / Qi mWidth) (height props / Qi mHeight) in
    let finalScale := baseScale * scale in
    let drawWidth := Qi mWidth * finalScale in
    let drawHeight := Qi mHeight * finalScale in
    (* Center anchor *)
    let x := (width props - drawWidth) / 2 + xOffset in
    let y := (height props - drawHeight) / 2 + yOffset in
    Some {| di_x := x; di_y := y; di_width := drawWidth; di_height := drawHeight;
            di_alpha := opacity |}.

(* ================================================================== *)
(** * The retry engine ([executeWithRetry]) *)
(* ================================================================== *)

(** What the engine reads of a thrown value: [error.status] and
    [error.response?.status], each a number or [undefined] ([None]). *)
Record ApiError : Type := mkApiError {
  err_status : option Z;
  err_responseStatus : option Z
}.

(** [error.status || error.response?.status] *)
Definition statusOf (error : ApiError) : option Z :=
  match err_status error with
  | Some s => if (s =? 0)%Z then err_responseStatus error else Some s
  | None => err_responseStatus error
  end.

(** [status === 429 || status >= 500 || !status] *)
Definition isTransient (status : option Z) : bool :=
  match status with
  | Some s => (s =? 429)%Z || (500 <=? s)%Z || (s =? 0)%Z
  | None => true
  end.

(** [status === 429 ? 5000 : 1000] *)
Definition baseDelayOf (status : option Z) : Q :=
  match status with
  | Some 429%Z => 5000
  | _ => 1000
  end.

(** [Math.min(baseDelay * Math.pow(2, attemptNumber), 45000)] with
    [attemptNumber = 3 - retries]. *)
Definition delayMsOf (status : option Z) (retries : nat) : Q :=
  let baseDelay := baseDelayOf status in
  let attemptNumber := (3 - Z.of_nat retries)%Z in
  Qmin (baseDelay * 2 ^ attemptNumber) 45000.

(** [process.env.GEMINI_API_KEY || process.env.API_KEY] *)
Definition apiKeyOf (GEMINI_API_KEY API_KEY : option string) : option string :=
  if truthy GEMINI_API_KEY then GEMINI_API_KEY else API_KEY.

(** [!apiKey || apiKey === "undefined" || apiKey === ""] *)
Definition keyMissing (apiKey : option string) : bool :=
  negb (truthy apiKey)
  || match apiKey with
     | Some k => String.eqb k "undefined" || String.eqb k ""
     | None => false
     end.

(** How a call of the engine ends: with the operation's value, or by
    throwing either its own error or the last one the operation threw. *)
Inductive Rejection : Type :=
| MissingKey                    (* "GEMINI_API_KEY is missing. ..." *)
| Thrown (error : ApiError).

(** What a call of the engine does, in order: calls of [operation] with
    how each ended, and the [setTimeout] waits between them. *)
Inductive RetryEvent (T : Type) : Type :=
| Called (outcome : T + ApiError)
| Waited (delayMs : Q).

Arguments Called {T} outcome.
Arguments Waited {T} delayMs.

Section Retry.

Context {T State : Type}.

(** The environment's key, and the operation as a step on whatever state
    it acts on, returning its value or the error it throws. *)
Variable apiKey : option string.
Variable operation : State -> (T + ApiError) * State.

(** [executeWithRetry(operation, retries)]: the retry test
    [isTransient && retries > 0] is the [S] branch with [isTransient]
    inside it. *)
Fixpoint executeWithRetry (retries : nat) (s : State)
  : (T + Rejection) * list (RetryEvent T) * State :=
  if keyMissing apiKey then (inr MissingKey, [], s)
  else
    match operation s with
    | (inl value, s1) => (inl value, [Called (inl value)], s1)
    | (inr error, s1) =>
        let status := statusOf error in
        match retries with
        | S retries' =>
            if isTransient status then
              let delayMs := delayMsOf status retries in
              let '(result, log, s2) := executeWithRetry retries' s1 in
              (result, Called (inr error) :: Waited delayMs :: log, s2)
            else (inr (Thrown error), [Called (inr error)], s1)
        | O => (inr (Thrown error), [Called (inr error)], s1)
        end
    end.

End Retry.

(* ================================================================== *)
(** * Scene generation ([generateScenes]): what is made of the response *)
(* ================================================================== *)

(** [Scene.visualStyle] and [Scene.medium] *)
Inductive VisualStyle : Type := Style3dPoly | StyleRealistic.
Inductive Medium : Type := MediumImage | MediumVideo.

(** An item of [data.scenes], as the response schema has it; a field is
    [None] when it is missing or falsy. *)
Record SceneData : Type := mkSceneData {
  sd_scriptSegment : option string;
  sd_visualDescription : option string;
  sd_visualStyle : option VisualStyle;
  sd_transitionType : option TransitionType;
  sd_medium : option Medium
}.

(** The fields of a generated [Scene] the player does not read. *)
Record SceneInfo : Type := mkSceneInfo {
  scriptSegment : option string;
  visualDescription : option string;
  visualStyle : VisualStyle;
  medium : Medium;
  isGeneratingImage : bool
}.

(** Decimal rendering of an index and of a clock reading, as template
    literals render them. *)
Definition decimalOfNat (n : nat) : string := NilEmpty.string_of_uint (Nat.to_uint n).
Definition decimalOfN (n : N) : string := NilEmpty.string_of_uint (N.to_uint n).

(** [Math.max(1, Math.ceil(totalDuration / 10))] *)
Definition targetSceneCount (totalDuration : Q) : Z :=
  Z.max 1 (Qceiling (totalDuration / 10)).

(** [a || b] on an optional value. *)
Definition orDefault {A} (a : option A) (b : A) : A :=
  match a with
  | Some x => x
  | None => b
  end.

(** The tail of the [generateScenes] callback, from [scenesData] on:
    [dateNow i] is what [Date.now()] returns while item [i] is mapped. *)
Definition generateScenes (dateNow : nat -> N) (scenesData : list SceneData)
           (totalDuration : Q) : list (Scene * SceneInfo) :=
  let actualTarget :=
    if (0 <? length scenesData)%nat then Qi (length scenesData)
    else inject_Z (targetSceneCount totalDuration) in
  let segmentDuration := totalDuration / actualTarget in
  map (fun '(i, s) =>
         ({| id := "scene-" ++ decimalOfNat i ++ "-" ++ decimalOfN (dateNow i);
             startTime := Qi i * segmentDuration;
             endTime := (Qi i + 1) * segmentDuration;
             imageUrl := None;
             videoClipUrl := None;
             transitionType := orDefault (sd_transitionType s) Parallax25d |},
          {| scriptSegment := sd_scriptSegment s;
             visualDescription := sd_visualDescription s;
             visualStyle := orDefault (sd_visualStyle s) StyleRealistic;
             medium := orDefault (sd_medium s) MediumVideo;
             isGeneratingImage := false |}))
      (combine (seq 0 (length scenesData)) scenesData).

(* ================================================================== *)
(** * Narration synthesis ([generateVoiceOver]): chunking and merging *)
(* ================================================================== *)

(** A JavaScript string, as its UTF-16 code units. *)
Definition JsString : Type := list N.

(** The characters of the class [[*_#~`]]. *)
Definition isMarkup (c : N) : bool :=
  (c =? 42)%N || (c =? 95)%N || (c =? 35)%N || (c =? 126)%N || (c =? 96)%N.

(** The code units [String.prototype.trim] strips: white space and line
    terminators. *)
Definition isWhiteSpace (c : N) : bool :=
  ((9 <=? c)%N && (c <=? 13)%N)
  || (c =? 32)%N || (c =? 160)%N || (c =? 5760)%N
  || ((8192 <=? c)%N && (c <=? 8202)%N)
  || (c =? 8232)%N || (c =? 8233)%N || (c =? 8239)%N || (c =? 8287)%N
  || (c =? 12288)%N || (c =? 65279)%N.

Fixpoint trimStart (s : JsString) : JsString :=
  match s with
  | [] => []
  | c :: rest => if isWhiteSpace c then trimStart rest else s
  end.

Definition trimEnd (s : JsString) : JsString := rev (trimStart (rev s)).

(** [s.trim()] *)
Definition trim (s : JsString) : JsString := trimEnd (trimStart s).

(** [text.replace(/[*_#~`]/g, '').trim()] *)
Definition cleanText (text : JsString) : JsString :=
  trim (filter (fun c => negb (isMarkup c)) text).

(** [s.substring(a, b)]: both indices are clamped to the length and
    swapped when out of order. *)
Definition substring (s : JsString) (a b : nat) : JsString :=
  let a' := Nat.min a (length s) in
  let b' := Nat.min b (length s) in
  let lo := Nat.min a' b' in
  let hi := Nat.max a' b' in
  firstn (hi - lo) (skipn lo s).

(** Whether ['. '] sits at index [k]. *)
Definition periodSpaceAt (s : JsString) (k : nat) : bool :=
  match nth_error s k, nth_error s (S k) with
  | Some c1, Some c2 => (c1 =? 46)%N && (c2 =? 32)%N
  | _, _ => false
  end.

(** The backward search of [lastIndexOf], from [k] down to 0. *)
Fixpoint lastIndexDown (s : JsString) (k : nat) : option nat :=
  if periodSpaceAt s k then Some k
  else match k with
       | O => None
       | S k' => lastIndexDown s k'
       end.

(** [s.lastIndexOf('. ', fromIndex)]; [None] stands for [-1]. *)
Definition lastIndexOf (s : JsString) (fromIndex : nat) : option nat :=
  if (length s <? 2)%nat then None
  else lastIndexDown s (Nat.min fromIndex (length s - 2)).

(** [end] as the body of the chunking loop settles it. *)
Definition chunkEnd (cleanedText : JsString) (pos : nat) : nat :=
  let end0 := Nat.min (pos + 800) (length cleanedText) in
  if (end0 <? length cleanedText)%nat then
    match lastIndexOf cleanedText end0 with
    | Some lastPeriod => if (pos <? lastPeriod)%nat then lastPeriod + 1 else end0
    | None => end0
    end
  else end0.

(** The [while (pos < cleanedText.length)] loop, run for at most [fuel]
    iterations; [None] when they do not suffice. *)
Fixpoint chunkLoop (fuel : nat) (cleanedText : JsString) (pos : nat)
  : option (list JsString) :=
  if (pos <? length cleanedText)%nat then
    match fuel with
    | O => None
    | S fuel' =>
        let end_ := chunkEnd cleanedText pos in
        match chunkLoop fuel' cleanedText end_ with
        | Some chunks => Some (trim (substring cleanedText pos end_) :: chunks)
        | None => None
        end
    end
  else Some [].

(** [target.set(source, offset)] on a [Uint8Array]; [None] stands for the
    [RangeError] of a source that does not fit. *)
Definition typedArraySet (target source : list Z) (offset : nat) : option (list Z) :=
  if (offset + length source <=? length target)%nat
  then Some (firstn offset target ++ source ++ skipn (offset + length source) target)
  else None.

(** The merge of the audio chunks into one [Uint8Array]. *)
Definition mergePcm (audioChunks : list (list Z)) : option (list Z) :=
  let totalLen := fold_left (fun acc curr => (acc + length curr)%nat) audioChunks 0%nat in
  let mergedPcm := repeat 0%Z totalLen in
  option_map fst
    (fold_left (fun state chunk =>
                  match state with
                  | Some (merged, offset) =>
                      match typedArraySet merged chunk offset with
                      | Some merged' => Some (merged', (offset + length chunk)%nat)
                      | None => None
                      end
                  | None => None
                  end)
               audioChunks (Some (mergedPcm, 0%nat))).

(** [createWavBlob(mergedPcm.buffer, 24000)] *)
Definition initialBlob (audioChunks : list (list Z)) : option Blob :=
  option_map (fun mergedPcm => createWavBlob mergedPcm 24000) (mergePcm audioChunks).

(* ================================================================== *)
(** * The editor ([App]): asset import and batch generation *)
(* ================================================================== *)

(** A scene object of [project.scenes]: its identity, which
    [Array.prototype.indexOf] compares, and its fields. *)
Record SceneObject : Type := mkSceneObject {
  so_ref : nat;
  so_scene : Scene;
  so_info : SceneInfo
}.

Definition isImageScene (o : SceneObject) : bool :=
  match medium (so_info o) with MediumImage => true | MediumVideo => false end.

Definition isVideoScene (o : SceneObject) : bool :=
  match medium (so_info o) with MediumVideo => true | MediumImage => false end.

(** [list.indexOf(scene)]; [None] stands for [-1]. *)
Definition indexOf (array : list SceneObject) (scene : SceneObject) : option nat :=
  findIndexFrom (fun o => (so_ref o =? so_ref scene)%nat) array 0.

(** [{ ...scene, imageUrl: url }] and [{ ...scene, videoClipUrl: url }] *)
Definition withImageUrl (s : Scene) (url : string) : Scene :=
  {| id := id s; startTime := startTime s; endTime := endTime s;
     imageUrl := Some url; videoClipUrl := videoClipUrl s;
     transitionType := transitionType s |}.

Definition withVideoClipUrl (s : Scene) (url : string) : Scene :=
  {| id := id s; startTime := startTime s; endTime := endTime s;
     imageUrl := imageUrl s; videoClipUrl := Some url;
     transitionType := transitionType s |}.

(** The state update of [handleBulkImageUpload]: the fields of the scenes
    it returns, from the sorted files' data URLs and [prev.scenes]. *)
Definition handleBulkImageUpload (imageData : list string) (prevScenes : list SceneObject)
  : list (Scene * SceneInfo) :=
  (* Map only to scenes that require 'image' medium *)
  let imageScenes := filter isImageScene prevScenes in
  map (fun scene =>
         if isImageScene scene then
           match indexOf imageScenes scene with
           | Some idx =>
               match nth_error imageData idx with
               | Some url => (withImageUrl (so_scene scene) url, so_info scene)
               | None => (so_scene scene, so_info scene)
               end
           | None => (so_scene scene, so_info scene)
           end
         else (so_scene scene, so_info scene))
      prevScenes.

(** The state update of [handleBulkVideoUpload], from the object URLs of
    the sorted files. *)
Definition handleBulkVideoUpload (fileUrls : list string) (prevScenes : list SceneObject)
  : list (Scene * SceneInfo) :=
  (* Map only to scenes that require 'video' medium *)
  let videoScenes := filter isVideoScene prevScenes in
  map (fun scene =>
         if isVideoScene scene then
           match indexOf videoScenes scene with
           | Some idx =>
               match nth_error fileUrls idx with
               | Some url => (withVideoClipUrl (so_scene scene) url, so_info scene)
               | None => (so_scene scene, so_info scene)
               end
           | None => (so_scene scene, so_info scene)
           end
         else (so_scene scene, so_info scene))
      prevScenes.

(** ** [runBatchImageGeneration]: the schedule *)

Definition batchSize : nat := 4.
Definition batchInterval : Z := 15000.   (* 15 seconds *)
Definition interBatchGap : Z := 30000.   (* 30 seconds *)

(** One iteration of the batch loop: the progress and batch number it
    reports, the scenes it generates in parallel, and the progress and
    seconds of each status update of the wait that follows. *)
Record BatchRound (A : Type) : Type := mkBatchRound {
  br_progress : Z;
  br_number : nat;
  br_scenes : list A;
  br_waitTicks : list (Z * nat)
}.

Arguments br_progress {A}.
Arguments br_number {A}.
Arguments br_scenes {A}.
Arguments br_waitTicks {A}.

(** [for (let seconds = n; seconds > 0; seconds--)] *)
Fixpoint countdown (seconds : nat) : list nat :=
  match seconds with
  | O => []
  | S s => seconds :: countdown s
  end.

(** [for (let i = ...; i < imageScenes.length; i += batchSize)], run for at
    most [fuel] iterations; [None] when they do not suffice. *)
Fixpoint batchLoop {A} (fuel : nat) (imageScenes : list A) (i : nat)
  : option (list (BatchRound A)) :=
  if (i <? length imageScenes)%nat then
    match fuel with
    | O => None
    | S fuel' =>
        let currentBatch := firstn batchSize (skipn i imageScenes) in
        let waitTicks :=
          if (i + batchSize <? length imageScenes)%nat then
            let isNextBatchInSameSet := negb (((i + batchSize) / batchSize) mod 2 =? 0)%nat in
            let waitTime := if isNextBatchInSameSet then batchInterval else interBatchGap in
            map (fun seconds =>
                   (jsRound (Qi (i + batchSize) / Qi (length imageScenes) * 100), seconds))
                (countdown (Z.to_nat (waitTime / 1000)))
          else [] in
        match batchLoop fuel' imageScenes (i + batchSize) with
        | Some rounds =>
            Some ({| br_progress := jsRound (Qi i / Qi (length imageScenes) * 100);
                     br_number := (i / batchSize + 1)%nat;
                     br_scenes := currentBatch;
                     br_waitTicks := waitTicks |} :: rounds)
        | None => None
        end
    end
  else Some [].

(* ================================================================== *)
(** * The timeline ([Timeline]) *)
(* ================================================================== *)

Section Timeline.

Variable audioDuration : Q.

Definition getLeft (time : Q) : Q := time / audioDuration * 100.
Definition getWidth (start end_ : Q) : Q := (end_ - start) / audioDuration * 100.

(** The [left] and [width] percentages of the tile of each scene. *)
Definition tiles (scenes : list Scene) : list (Q * Q) :=
  map (fun scene => (getLeft (startTime scene),
                     getWidth (startTime scene) (endTime scene))) scenes.

(** The labels of the eleven time markers. *)
Definition timeMarkers : list Z :=
  map (fun i => jsRound (audioDuration / 10 * Qi i)) (seq 0 11).

End Timeline.

(* ================================================================== *)
(** * Notions used in the statements about the trimmer and the container *)
(* ================================================================== *)

(** A kept segment lies inside a signal of [n] samples and is not empty. *)
Definition seg_wf (n : Q) (s : Segment) : Prop :=
  0 <= seg_start s /\ seg_start s < seg_end s /\ seg_end s <= n.

(** Segment [a] ends no later than segment [b] starts. *)
Definition seg_before (a b : Segment) : Prop := seg_end a <= seg_start b.

(** The recursive reading of [totalSamples]. *)
Fixpoint sumLen (segs : list Segment) : Q :=
  match segs with
  | [] => 0
  | s :: rest => (seg_end s - seg_start s) + sumLen rest
  end.

(** What holds of the scan's locals before iteration [i]. *)
Definition scan_inv (len : nat) (pad : Q) (i : nat) (st : ScanState) : Prop :=
  Forall (seg_wf (Qi len)) (keepSegments st) /\
  StronglySorted seg_before (keepSegments st) /\
  if isSilent st
  then currentSegmentStart st = -1 /\
       Forall (fun s => seg_end s <= Qi i - pad) (keepSegments st)
  else 0 <= currentSegmentStart st /\
       currentSegmentStart st <= Qi (silenceStart st) /\
       (silenceStart st < i)%nat /\
       Forall (fun s => seg_end s <= currentSegmentStart st) (keepSegments st).

(** Once a sample has been loud, a segment is open or has been pushed. *)
Definition scan_opened (st : ScanState) : Prop :=
  keepSegments st <> [] \/ 0 <= currentSegmentStart st.

(** [currentSegmentStart] is the sentinel or a position. *)
Definition scan_shape (st : ScanState) : Prop :=
  currentSegmentStart st = -1 \/ 0 <= currentSegmentStart st.

(** The closing index in the specification's words: the index at which the
    silence run starts, minus [minSilenceSamples], plus [paddingSamples],
    clamped to the signal length. *)
Definition spec_closeIndex (len : nat) (minS pad : Q) (silenceRunStartIndex : nat) : Q :=
  Qmin (Qi len) (Qi silenceRunStartIndex - minS + pad).

(** Byte [k] of the little-endian layout of [w]. *)
Definition leByte (k : nat) (w : Z) : Z := ((w / 256 ^ Z.of_nat k) mod 256)%Z.

(** The 44 bytes [createWavBlob] writes, spelled out. *)
Definition wavHeaderBytes (byteLength sampleRate : Z) : list Z :=
  let riff := ((36 + byteLength) mod 4294967296)%Z in
  let rate := (sampleRate mod 4294967296)%Z in
  let byteRate := ((sampleRate * 2) mod 4294967296)%Z in
  let data := (byteLength mod 4294967296)%Z in
  [82; 73; 70; 70; leByte 0 riff; leByte 1 riff; leByte 2 riff; leByte 3 riff;
   87; 65; 86; 69; 102; 109; 116; 32; 16; 0; 0; 0; 1; 0; 1; 0;
   leByte 0 rate; leByte 1 rate; leByte 2 rate; leByte 3 rate;
   leByte 0 byteRate; leByte 1 byteRate; leByte 2 byteRate; leByte 3 byteRate;
   2; 0; 16; 0; 100; 97; 116; 97;
   leByte 0 data; leByte 1 data; leByte 2 data; leByte 3 data]%Z.

(** Both ends of a kept segment are sample indices. *)
Definition seg_integral (s : Segment) : Prop :=
  exists a b : nat, seg_start s == Qi a /\ seg_end s == Qi b.

(** The scan has only produced whole indices so far. *)
Definition scan_integral (st : ScanState) : Prop :=
  Forall seg_integral (keepSegments st) /\
  if isSilent st then currentSegmentStart st = -1
  else exists a : nat, currentSegmentStart st == Qi a.

(* ================================================================== *)
(** * Notions used in the statements about the compositor *)
(* ================================================================== *)

(** The [renderSceneFrame] calls of a frame, in drawing order. *)
Fixpoint sceneRenders (f : Frame) : list SceneRender :=
  match f with
  | [] => []
  | LScene r :: rest => r :: sceneRenders rest
  | _ :: rest => sceneRenders rest
  end.

(** The kind of a pass, forgetting its parameters. *)
Inductive LayerKind : Type :=
  KBlack | KScene | KEmbers | KVapor | KGrain | KLetterbox.

Definition layerKind (l : Layer) : LayerKind :=
  match l with
  | LBlack => KBlack
  | LScene _ => KScene
  | LEmbers _ _ => KEmbers
  | LVapor _ => KVapor
  | LGrain _ => KGrain
  | LLetterbox _ => KLetterbox
  end.

(** The slot and element [renderSceneFrame] syncs and draws for [scene]:
    the first of the two whose [src] is the scene's clip, provided the
    scene has a clip and the element has data ([readyState >= 2]). *)
Definition selectedClip (refs : Refs) (scene : Scene) : option (nat * Video) :=
  if srcMatches (video1 refs) (videoClipUrl scene) then
    if truthy (videoClipUrl scene) && (2 <=? readyState (video1 refs))%nat
    then Some (1%nat, video1 refs) else None
  else if srcMatches (video2 refs) (videoClipUrl scene) then
    if truthy (videoClipUrl scene) && (2 <=? readyState (video2 refs))%nat
    then Some (2%nat, video2 refs) else None
  else None.

Definition videoAt (refs : Refs) (slot : nat) : Video :=
  match slot with
  | 1%nat => video1 refs
  | _ => video2 refs
  end.

(** The velocity-sync rule in the specification's words: the base rate is
    the clip's duration over the scene's. *)
Definition spec_velocitySync (clipDuration sceneDuration elapsed : Q) (v : Video) : Video :=
  let baseRate := clipDuration / sceneDuration in
  let targetPosition := elapsed * baseRate in
  let drift := currentTime v - targetPosition in
  if Qltb 0.5 (Qabs drift) then
    {| src := src v; duration := duration v; currentTime := targetPosition;
       playbackRate := playbackRate v; paused := paused v; readyState := readyState v |}
  else if Qltb 0.05 (Qabs drift) then
    {| src := src v; duration := duration v; currentTime := currentTime v;
       playbackRate := (if Qltb 0 drift then baseRate * 0.95 else baseRate * 1.05);
       paused := paused v; readyState := readyState v |}
  else
    {| src := src v; duration := duration v; currentTime := currentTime v;
       playbackRate := baseRate; paused := paused v; readyState := readyState v |}.

(** The ember population over a run of ticks: for each tick, its size
    right after the spawn and its size when [updateParticles] returns.
    A tick is the [isDeterministic] flag and the random draws. *)
Fixpoint populations (props : PlayerProps) (ticks : list (bool * EmberDraws))
         (ps : list Particle) : list nat :=
  match ticks with
  | [] => []
  | (isDeterministic, r) :: rest =>
      let spawned := spawnParticle props isDeterministic r ps in
      let ps' := snd (updateParticles props isDeterministic r ps) in
      length (if enableEmbers props then spawned else []) :: length ps'
        :: populations props rest ps'
  end.

(** ** Sample inputs *)

Definition sceneA : Scene :=
  {| id := "s1"; startTime := 0; endTime := 5;
     imageUrl := Some "a.png"%string; videoClipUrl := None;
     transitionType := Standard |}.

Definition sceneB : Scene :=
  {| id := "s2"; startTime := 5; endTime := 10;
     imageUrl := Some "b.png"%string; videoClipUrl := None;
     transitionType := Standard |}.

Definition sceneClip : Scene :=
  {| id := "s3"; startTime := 0; endTime := 5;
     imageUrl := None; videoClipUrl := Some "clip.webm"%string;
     transitionType := PolygonWipe |}.

Definition emptyVideo : Video :=
  {| src := ""; duration := None; currentTime := 0;
     playbackRate := 1; paused := true; readyState := 0 |}.

Definition demoRefs : Refs :=
  {| video1 := emptyVideo; video2 := emptyVideo;
     imageCache := ["a.png"; "b.png"]%string; particlesRef := [];
     grainCacheRef := true; vaporReady := true; lastActiveSceneId := None |}.

(** 16:9, every optional effect off. *)
Definition plainProps (scs : list Scene) : PlayerProps :=
  {| scenes := scs; aspectRatio := Ratio16x9; enableEmbers := false;
     kenBurnsStrength := 0; filmGrainStrength := 0;
     enableVaporOverlay := false; vaporOverlayOpacity := 0;
     enableLetterboxing := false; enablePolygonAssembly := false |}.

(** 16:9 with the ambient overlay and the letterbox bars switched on. *)
Definition cinemaProps (scs : list Scene) : PlayerProps :=
  {| scenes := scs; aspectRatio := Ratio16x9; enableEmbers := false;
     kenBurnsStrength := 0; filmGrainStrength := 0;
     enableVaporOverlay := true; vaporOverlayOpacity := 0.5;
     enableLetterboxing := true; enablePolygonAssembly := false |}.

(** 16:9 with the embers on. *)
Definition emberProps : PlayerProps :=
  {| scenes := []; aspectRatio := Ratio16x9; enableEmbers := true;
     kenBurnsStrength := 0; filmGrainStrength := 0;
     enableVaporOverlay := false; vaporOverlayOpacity := 0;
     enableLetterboxing := false; enablePolygonAssembly := false |}.

Definition noDraws : EmberDraws :=
  {| r_spawn := 0; r_x := 0; r_vx := 0; r_vy := 0; r_size := 0; r_color := 0 |}.

(** ** The export run *)

(** What every state of an export run satisfies while a call of
    [exportLoop] is pending: a queued 'stop' event means the recorder has
    stopped; and either the run still holds the liveness flag, or its
    recorder has stopped and its audio context is closed. *)
Definition export_inv (st : ExportState) : Prop :=
  loopScheduled st = true ->
  (stopQueued st = true -> recorder st = RecInactive) /\
  ((isExportingRef st = true /\ laterExport st = false) \/
   (audioCtx st = CtxClosed /\ recorder st = RecInactive)).

(* ================================================================== *)
(** * Notions used in the further properties *)
(* ================================================================== *)

(** The samples of [channelData] a kept segment spans, when its bounds
    are whole indices. *)
Definition segSamples (channelData : list Q) (s : Segment) : list Q :=
  let a := Z.to_nat (Qfloor (seg_start s)) in
  let b := Z.to_nat (Qfloor (seg_end s)) in
  firstn (b - a) (skipn a channelData).

(** Sample [j] lies in one of the segments, together with the [pad]
    positions on either side of it as far as the signal reaches. *)
Definition keptAround (len : nat) (pad : Q) (segs : list Segment) (j : nat) : Prop :=
  Exists (fun s => seg_start s <= Qmax 0 (Qi j - pad)
                   /\ Qmin (Qi len) (Qi j + pad) <= seg_end s
                   /\ Qi j < seg_end s) segs.

(** Before iteration [k], every loud sample met so far is kept, in a
    pushed segment or in the open one. *)
Definition scan_keeps (channelData : list Q) (pad : Q) (k : nat) (st : ScanState) : Prop :=
  (isSilent st = false ->
   currentSegmentStart st <= Qmax 0 (Qi (silenceStart st) - pad))
  /\ forall j x, (j < k)%nat -> nth_error channelData j = Some x -> loud x = true ->
       keptAround (length channelData) pad (keepSegments st) j
       \/ (isSilent st = false
           /\ currentSegmentStart st <= Qmax 0 (Qi j - pad)
           /\ (j <= silenceStart st)%nat).

(** ** The compositor *)

(** [progress] and [ease] of [renderSceneFrame]. *)
Definition sceneProgress (scene : Scene) (time : Q) : Q :=
  Qmin 1 (Qmax 0 ((time - startTime scene) / (endTime scene - startTime scene))).

Definition easeInOut (progress : Q) : Q :=
  if Qltb progress 0.5 then 2 * progress * progress
  else -1 + (4 - 2 * progress) * progress.

(** Whether the parallax block of [renderSceneFrame] runs. *)
Definition sceneMoves (props : PlayerProps) (scene : Scene) : bool :=
  match transitionType scene with Parallax25d => true | _ => false end
  || Qltb 0 (kenBurnsStrength props).

(** The [drawImage] call either layer of a [renderSceneFrame] makes for a
    medium of the given size: both pass the render's [scale], [opacity],
    [xOffset] and [yOffset] on to [drawMediaToCanvas]. *)
Definition drawLayer (props : PlayerProps) (r : SceneRender) (mWidth mHeight : nat)
  : option DrawImage :=
  drawMediaToCanvas props mWidth mHeight
                    (sr_scale r) (sr_opacity r) (sr_xOffset r) (sr_yOffset r).

(** The canvas lies inside the rectangle a [drawImage] call paints. *)
Definition coversCanvas (props : PlayerProps) (d : DrawImage) : Prop :=
  di_x d <= 0 /\ width props <= di_x d + di_width d /\
  di_y d <= 0 /\ height props <= di_y d + di_height d.

(** [Math.min(0.7, p.life / 60)], the alpha an ember is filled with. *)
Definition emberAlpha (p : Particle) : Q :=
  Qmin 0.7 (inject_Z (p_life p) / 60).

(** An ember as [particlesRef] holds it between ticks: some life left, out
    of the 180 ticks it starts with, and not yet above the canvas. *)
Definition emberAlive (p : Particle) : Prop :=
  (0 < p_life p <= 180)%Z /\ -20 <= p_y p.

(** ** The export run *)

(** The [progress] field of a reported [ProcessingStatus]. *)
Definition statusProgress (s : ProcessingStatus) : Z :=
  match s with
  | StatusWarming => 5
  | StatusExporting progress _ _ => progress
  | StatusCrash => 0
  end.

(** What a started run still owes or has delivered: downloads made, a
    'stop' event queued, a recorder still recording. *)
Definition exportTokens (st : ExportState) : nat :=
  downloads st
  + (if stopQueued st then 1 else 0)
  + (match recorder st with RecRecording => 1 | RecInactive => 0 end).

Definition export_once (st : ExportState) : Prop :=
  (exportTokens st <= 1)%nat /\ (downloads st = 1%nat -> audioCtx st = CtxClosed).

(** ** The retry engine *)

(** The operation's outcomes and the waits of a log, each in order. *)
Fixpoint callsOf {T} (log : list (RetryEvent T)) : list (T + ApiError) :=
  match log with
  | [] => []
  | Called outcome :: rest => outcome :: callsOf rest
  | Waited _ :: rest => callsOf rest
  end.

Fixpoint waitsOf {T} (log : list (RetryEvent T)) : list Q :=
  match log with
  | [] => []
  | Called _ :: rest => waitsOf rest
  | Waited delayMs :: rest => delayMs :: waitsOf rest
  end.

(** An outcome that makes the engine try again, retries permitting. *)
Definition transientFailure {T} (outcome : T + ApiError) : Prop :=
  match outcome with
  | inl _ => False
  | inr error => isTransient (statusOf error) = true
  end.

(** The state after [n] calls of the operation in a row. *)
Fixpoint afterCalls {T State} (operation : State -> (T + ApiError) * State)
         (n : nat) (s : State) : State :=
  match n with
  | O => s
  | S n' => afterCalls operation n' (snd (operation s))
  end.

(** How the engine ends on the outcome of its last call. *)
Definition settles {T} (outcome : T + ApiError) : T + Rejection :=
  match outcome with
  | inl value => inl value
  | inr error => inr (Thrown error)
  end.

(** An operation on a call counter that fails with the statuses listed,
    one per call, and then succeeds with the number of calls made. *)
Definition scripted (failures : list Z) (calls : nat) : (nat + ApiError) * nat :=
  match nth_error failures calls with
  | Some status =>
      (inr {| err_status := Some status; err_responseStatus := None |}, S calls)
  | None => (inl calls, S calls)
  end.


(** ** Narration chunks *)

(** The cut points of the chunking loop: the [(pos, end)] pairs of its
    iterations, for at most [fuel] of them. *)
Fixpoint chunkCuts (fuel : nat) (cleanedText : JsString) (pos : nat) : list (nat * nat) :=
  if (pos <? length cleanedText)%nat then
    match fuel with
    | O => []
    | S fuel' =>
        (pos, chunkEnd cleanedText pos)
          :: chunkCuts fuel' cleanedText (chunkEnd cleanedText pos)
    end
  else [].

(** Consecutive cuts that start at [from] and stop at [to]. *)
Fixpoint cutsChain (from to : nat) (cuts : list (nat * nat)) : Prop :=
  match cuts with
  | [] => from = to
  | (a, b) :: rest => a = from /\ cutsChain b to rest
  end.

(** [scale] as the parallax block of [renderSceneFrame] leaves it, before
    the transition logic. *)
Definition restScale (props : PlayerProps) (scene : Scene) (time : Q) : Q :=
  if sceneMoves props scene
  then 1.0 + kenBurnsStrength props * 0.15
       + easeInOut (sceneProgress scene time) * 0.05
  else 1.0.

(** ** Sample scene objects *)

Definition imageObject (ref : nat) (s : Scene) : SceneObject :=
  {| so_ref := ref; so_scene := s;
     so_info := {| scriptSegment := None; visualDescription := None;
                   visualStyle := StyleRealistic; medium := MediumImage;
                   isGeneratingImage := false |} |}.

Definition videoObject (ref : nat) (s : Scene) : SceneObject :=
  {| so_ref := ref; so_scene := s;
     so_info := {| scriptSegment := None; visualDescription := None;
                   visualStyle := StyleRealistic; medium := MediumVideo;
                   isGeneratingImage := false |} |}.

(** ** Scene identifiers *)

(** No hyphen occurs in the string. *)
Fixpoint dashFree (s : string) : bool :=
  match s with
  | EmptyString => true
  | String c rest => negb (Ascii.eqb c "-") && dashFree rest
  end.

(* ================================================================== *)
(** * Facts about the numeric helpers *)
(* ================================================================== *)

Lemma Qltb_lt (x y : Q) : Qltb x y = true <-> x < y.
Proof.
  unfold Qltb. rewrite negb_true_iff. split; intro H.
  - apply Qnot_le_lt. intro Hle. apply Qle_bool_iff in Hle. congruence.
  - destruct (Qle_bool y x) eqn:E; [|reflexivity].
    apply Qle_bool_iff in E. exfalso. exact (Qlt_not_le _ _ H E).
Qed.

Lemma Qltb_ge (x y : Q) : Qltb x y = false <-> y <= x.
Proof.
  unfold Qltb. rewrite negb_false_iff. apply Qle_bool_iff.
Qed.

Lemma Qi_S (k : nat) : Qi (S k) == Qi k + 1.
Proof.
  unfold Qi. rewrite Nat2Z.inj_succ. unfold Z.succ.
  rewrite inject_Z_plus. reflexivity.
Qed.

Lemma Qi_add (a b : nat) : Qi (a + b) == Qi a + Qi b.
Proof. unfold Qi. rewrite Nat2Z.inj_add, inject_Z_plus. reflexivity. Qed.

Lemma Qi_nonneg (k : nat) : 0 <= Qi k.
Proof. unfold Qi. change 0 with (inject_Z 0). rewrite <- Zle_Qle. lia. Qed.

Lemma Qi_le (a b : nat) : (a <= b)%nat -> Qi a <= Qi b.
Proof. intro H. unfold Qi. rewrite <- Zle_Qle. lia. Qed.

Lemma Qi_lt (a b : nat) : (a < b)%nat -> Qi a + 1 <= Qi b.
Proof.
  intro H. rewrite <- Qi_S. apply Qi_le. lia.
Qed.

Lemma Qi_0 : Qi 0 == 0.
Proof. reflexivity. Qed.

(** Case analysis on every [Qmin] / [Qmax] of the goal and context. *)
Ltac split_minmax :=
  repeat match goal with
  | |- context [Qmin ?a ?b] =>
      let H := fresh "Hmin" in
      destruct (Q.min_spec a b) as [[? H]|[? H]];
      generalize dependent (Qmin a b); intros
  | |- context [Qmax ?a ?b] =>
      let H := fresh "Hmax" in
      destruct (Q.max_spec a b) as [[? H]|[? H]];
      generalize dependent (Qmax a b); intros
  | H0 : context [Qmin ?a ?b] |- _ =>
      let H := fresh "Hmin" in
      destruct (Q.min_spec a b) as [[? H]|[? H]];
      generalize dependent (Qmin a b); intros
  | H0 : context [Qmax ?a ?b] |- _ =>
      let H := fresh "Hmax" in
      destruct (Q.max_spec a b) as [[? H]|[? H]];
      generalize dependent (Qmax a b); intros
  end.

Lemma Qeq_bool_minus1_nonneg (q : Q) : 0 <= q -> Qeq_bool q (-1) = false.
Proof.
  intro H. destruct (Qeq_bool q (-1)) eqn:E; [|reflexivity].
  apply Qeq_bool_iff in E. lra.
Qed.

(* ================================================================== *)
(** * The scan: structural lemmas *)
(* ================================================================== *)

Section ScanFacts.

Variable len : nat.
Variables minS pad : Q.

Local Abbreviation step := (scan_step len minS pad).
Local Abbreviation loop := (scan_loop len minS pad).

Lemma scan_loop_app (l1 l2 : list Q) : forall i st,
  loop i (l1 ++ l2) st = loop (i + length l1) l2 (loop i l1 st).
Proof.
  induction l1 as [|x l1 IH]; intros i st; simpl.
  - now rewrite Nat.add_0_r.
  - rewrite IH. f_equal. lia.
Qed.

(** A quiet sample met while [isSilent] holds changes nothing. *)
Lemma scan_step_quiet_idle i x st :
  loud x = false -> isSilent st = true -> step i x st = st.
Proof.
  intros Hx Hs. unfold scan_step. rewrite Hx, Hs. reflexivity.
Qed.

Lemma scan_loop_quiet_idle (l : list Q) : forall i st,
  Forall (fun x => loud x = false) l -> isSilent st = true ->
  loop i l st = st.
Proof.
  induction l as [|x l IH]; intros i st Hl Hs; simpl; [reflexivity|].
  inversion Hl; subst.
  rewrite scan_step_quiet_idle by assumption. now apply IH.
Qed.

Hypothesis minS_nonneg : 0 <= minS.

Lemma floor_minS_nonneg : (0 <= Qfloor minS)%Z.
Proof.
  change 0%Z with (Qfloor (inject_Z 0)) at 1.
  rewrite Qfloor_Z. change 0%Z with (Qfloor 0).
  apply Qfloor_resp_le. exact minS_nonneg.
Qed.

Lemma Qi_floor_minS : Qi (Z.to_nat (Qfloor minS)) == inject_Z (Qfloor minS).
Proof.
  unfold Qi. rewrite Z2Nat.id by apply floor_minS_nonneg. reflexivity.
Qed.

Lemma detect_fires (L : nat) : minS < Qi (detectIndex minS L) - Qi L.
Proof.
  unfold detectIndex. rewrite !Qi_add, Qi_floor_minS.
  pose proof (Qlt_floor minS) as H. rewrite inject_Z_plus in H.
  change (Qi 1) with 1. change (inject_Z 1) with 1 in H. lra.
Qed.

Lemma before_detect_quiet (L i : nat) :
  (i < detectIndex minS L)%nat -> Qi i - Qi L <= minS.
Proof.
  unfold detectIndex. intro H.
  assert (Hi : Qi i <= Qi (L + Z.to_nat (Qfloor minS))) by (apply Qi_le; lia).
  rewrite Qi_add, Qi_floor_minS in Hi.
  pose proof (Qfloor_le minS). lra.
Qed.

(** A run of quiet samples after a loud one: nothing happens before the
    detection index, and the cut happens exactly there. *)
Lemma scan_loop_quiet_run (l : list Q) : forall i st,
  Forall (fun x => loud x = false) l ->
  isSilent st = false ->
  (i <= detectIndex minS (silenceStart st))%nat ->
  loop i l st =
    if (detectIndex minS (silenceStart st) <? i + length l)%nat
    then cut_state len minS pad (detectIndex minS (silenceStart st)) st
    else st.
Proof.
  induction l as [|x l IH]; intros i st Hl Hs Hi; simpl.
  - destruct (Nat.ltb_spec (detectIndex minS (silenceStart st)) (i + 0)); [lia|reflexivity].
  - inversion Hl as [|? ? Hx Hl']; subst.
    destruct (Nat.eq_dec i (detectIndex minS (silenceStart st))) as [E|E].
    + assert (Hstep : step i x st = cut_state len minS pad i st).
      { unfold scan_step. rewrite Hx, Hs. simpl.
        pose proof (detect_fires (silenceStart st)) as Hf. rewrite <- E in Hf.
        apply Qltb_lt in Hf. rewrite Hf. reflexivity. }
      rewrite Hstep, scan_loop_quiet_idle by (assumption || reflexivity).
      destruct (Nat.ltb_spec (detectIndex minS (silenceStart st)) (i + S (length l)));
        [now rewrite E | lia].
    + assert (Hstep : step i x st = st).
      { unfold scan_step. rewrite Hx, Hs. simpl.
        assert (Hq : Qi i - Qi (silenceStart st) <= minS)
          by (apply before_detect_quiet; lia).
        apply Qltb_ge in Hq. rewrite Hq. reflexivity. }
      rewrite Hstep, IH by (assumption || lia).
      replace (S i + length l)%nat with (i + S (length l))%nat by lia.
      reflexivity.
Qed.

(** The detection index is passed within a run of [m] quiet samples
    exactly when the run is longer than [minS]. *)
Lemma detect_within_run (L m : nat) :
  (detectIndex minS L < S L + m)%nat <-> minS < Qi m.
Proof.
  unfold detectIndex. split; intro H.
  - assert (Hm : Qi (Z.to_nat (Qfloor minS)) + 1 <= Qi m) by (apply Qi_lt; lia).
    rewrite Qi_floor_minS in Hm.
    pose proof (Qlt_floor minS) as Hf. rewrite inject_Z_plus in Hf.
    change (inject_Z 1) with 1 in Hf. lra.
  - assert (Hz : (Qfloor minS < Z.of_nat m)%Z).
    { destruct (Z.lt_ge_cases (Qfloor minS) (Z.of_nat m)) as [|Hge]; [assumption|].
      exfalso. rewrite Zle_Qle in Hge. fold (Qi m) in Hge.
      pose proof (Qfloor_le minS). lra. }
    pose proof floor_minS_nonneg. lia.
Qed.

End ScanFacts.

(* ================================================================== *)
(** * The scan: the invariant behind well-formed segments *)
(* ================================================================== *)

Lemma StronglySorted_snoc {A} (R : A -> A -> Prop) (l : list A) (x : A) :
  StronglySorted R l -> Forall (fun a => R a x) l -> StronglySorted R (l ++ [x]).
Proof.
  induction 1 as [|a l Hl IH Ha]; intro Hx; simpl.
  - repeat constructor.
  - inversion Hx; subst. constructor; [now apply IH|].
    apply Forall_app. split; [assumption|]. now repeat constructor.
Qed.

Lemma totalSamples_sumLen (segs : list Segment) : totalSamples segs == sumLen segs.
Proof.
  unfold totalSamples.
  assert (G : forall l acc,
            fold_left (fun a s => a + (seg_end s - seg_start s)) l acc == acc + sumLen l).
  { induction l as [|s l IH]; intro acc; simpl; [lra|]. rewrite IH. lra. }
  rewrite G. lra.
Qed.

Lemma sumLen_bound (n : Q) (segs : list Segment) : forall lo,
  lo <= n ->
  Forall (seg_wf n) segs -> StronglySorted seg_before segs ->
  Forall (fun s => lo <= seg_start s) segs ->
  0 <= sumLen segs /\ sumLen segs <= n - lo.
Proof.
  induction segs as [|s segs IH]; intros lo Hlo Hwf Hs Hlo'; simpl; [lra|].
  inversion Hwf as [|? ? [H0 [H1 H2]] Hwf']; subst.
  inversion Hs as [|? ? Hs' Hb]; subst.
  inversion Hlo' as [|? ? Hl0 _]; subst.
  destruct (IH (seg_end s) H2 Hwf' Hs' Hb) as [Ha Hb'].
  lra.
Qed.

Section ScanInvariant.

Variable len : nat.
Variables minS pad : Q.
Hypothesis pad_nonneg : 0 <= pad.
Hypothesis pad_twice : 2 * pad <= minS.

Local Abbreviation step := (scan_step len minS pad).
Local Abbreviation loop := (scan_loop len minS pad).

Lemma scan_inv_init : scan_inv len pad 0 scan_init.
Proof.
  unfold scan_inv, scan_init; simpl.
  repeat split; constructor.
Qed.

Lemma scan_inv_step i x st :
  (i < len)%nat -> scan_inv len pad i st -> scan_inv len pad (S i) (step i x st).
Proof.
  intros Hi (Hwf & Hsorted & Hst).
  pose proof (Qi_S i) as HS. pose proof (Qi_lt _ _ Hi) as Hlen.
  pose proof (Qi_nonneg i) as Hi0.
  unfold scan_step. destruct (loud x).
  - (* a loud sample *)
    unfold scan_inv; simpl. split; [assumption|]. split; [assumption|].
    destruct (isSilent st).
    + destruct Hst as [Hc Hends]. rewrite Hc. simpl.
      repeat split; try lia.
      * apply Q.le_max_l.
      * split_minmax; lra.
      * eapply Forall_impl; [|exact Hends]. simpl. intros s Hs.
        split_minmax; lra.
    + destruct Hst as (Hc0 & HcL & HL & Hends).
      rewrite (Qeq_bool_minus1_nonneg _ Hc0).
      pose proof (Qi_lt _ _ HL). repeat split; try lia; try assumption. lra.
  - (* a quiet sample *)
    destruct (isSilent st) eqn:Hsil; simpl.
    + unfold scan_inv. rewrite Hsil. destruct Hst as [Hc Hends].
      repeat split; try assumption.
      eapply Forall_impl; [|exact Hends]. simpl. intros; lra.
    + destruct Hst as (Hc0 & HcL & HL & Hends).
      pose proof (Qi_lt _ _ HL) as HLi.
      destruct (Qltb minS (Qi i - Qi (silenceStart st))) eqn:Hcut.
      * apply Qltb_lt in Hcut.
        unfold scan_inv; simpl. repeat split.
        -- apply Forall_app. split; [assumption|].
           constructor; [|constructor]. unfold seg_wf; simpl.
           split; [assumption|]. split; [|apply Q.le_min_l].
           split_minmax; lra.
        -- apply StronglySorted_snoc; [assumption|].
           eapply Forall_impl; [|exact Hends]. unfold seg_before; simpl. intros; lra.
        -- apply Forall_app. split.
           ++ eapply Forall_impl; [|exact Hends]. simpl. intros; lra.
           ++ constructor; [|constructor]. simpl. split_minmax; lra.
      * unfold scan_inv. rewrite Hsil. repeat split; try assumption. lia.
Qed.

Lemma scan_inv_loop (l : list Q) : forall i st,
  (i + length l = len)%nat -> scan_inv len pad i st ->
  scan_inv len pad len (loop i l st).
Proof.
  induction l as [|x l IH]; intros i st Hi Hinv; simpl in *.
  - assert (E : i = len) by lia. rewrite E in Hinv. exact Hinv.
  - apply IH; [lia|]. apply scan_inv_step; [lia|assumption].
Qed.

Lemma scan_inv_finish st :
  scan_inv len pad len st ->
  Forall (seg_wf (Qi len)) (scan_finish len st) /\
  StronglySorted seg_before (scan_finish len st).
Proof.
  intros (Hwf & Hsorted & Hst). unfold scan_finish.
  destruct (isSilent st).
  - destruct Hst as [Hc _]. rewrite Hc. simpl. split; assumption.
  - destruct Hst as (Hc0 & HcL & HL & Hends).
    rewrite (Qeq_bool_minus1_nonneg _ Hc0).
    pose proof (Qi_lt _ _ HL). split.
    + apply Forall_app. split; [assumption|].
      constructor; [|constructor]. unfold seg_wf; simpl. lra.
    + apply StronglySorted_snoc; [assumption|].
      eapply Forall_impl; [|exact Hends]. unfold seg_before; simpl. intros; lra.
Qed.

End ScanInvariant.

(* ================================================================== *)
(** * The trimmer's parameters at a positive sample rate *)
(* ================================================================== *)

Lemma rate_pos_Q (sampleRate : Z) : (0 < sampleRate)%Z -> 0 < inject_Z sampleRate.
Proof. intro H. change 0 with (inject_Z 0). now rewrite <- Zlt_Qlt. Qed.

Lemma padding_nonneg (sampleRate : Z) :
  (0 < sampleRate)%Z -> 0 <= paddingSamplesOf sampleRate.
Proof. intro H. apply rate_pos_Q in H. unfold paddingSamplesOf. lra. Qed.

Lemma padding_twice (sampleRate : Z) :
  (0 < sampleRate)%Z -> 2 * paddingSamplesOf sampleRate <= minSilenceSamplesOf sampleRate.
Proof.
  intro H. apply rate_pos_Q in H. unfold paddingSamplesOf, minSilenceSamplesOf. lra.
Qed.

Lemma minSilence_nonneg (sampleRate : Z) :
  (0 < sampleRate)%Z -> 0 <= minSilenceSamplesOf sampleRate.
Proof. intro H. apply rate_pos_Q in H. unfold minSilenceSamplesOf. lra. Qed.

Lemma computeKeepSegments_inv (channelData : list Q) (sampleRate : Z) :
  (0 < sampleRate)%Z ->
  Forall (seg_wf (Qi (length channelData))) (computeKeepSegments channelData sampleRate) /\
  StronglySorted seg_before (computeKeepSegments channelData sampleRate).
Proof.
  intro H. unfold computeKeepSegments.
  apply scan_inv_finish with (pad := paddingSamplesOf sampleRate).
  apply scan_inv_loop; auto using padding_nonneg, padding_twice, scan_inv_init.
Qed.

Lemma segPositions_in (s : Segment) (j : Q) :
  In j (segPositions s) -> seg_start s <= j /\ j < seg_end s.
Proof.
  unfold segPositions. intro H. apply in_map_iff in H.
  destruct H as (k & Hj & Hk). apply in_seq in Hk. subst j.
  pose proof (Qi_nonneg k) as Hk0.
  pose proof (Qceiling_lt (seg_end s - seg_start s)) as Hc.
  assert (Hle : Qi k <= inject_Z (Qceiling (seg_end s - seg_start s) - 1)).
  { unfold Qi. rewrite <- Zle_Qle. lia. }
  lra.
Qed.

Lemma buildPcm_length (channelData : list Q) (segs : list Segment) :
  0 <= totalSamples segs -> totalSamples segs <= Qi (length channelData) ->
  exists cleanedPcm,
    buildPcm channelData segs = Some cleanedPcm /\
    length cleanedPcm = Z.to_nat (Qfloor (totalSamples segs)) /\
    (length cleanedPcm <= length channelData)%nat.
Proof.
  intros H0 Hn. unfold buildPcm.
  assert (E : Qltb (totalSamples segs) 0 = false) by now apply Qltb_ge.
  rewrite E. eexists. split; [reflexivity|].
  assert (L : forall (n : nat) (l : list Z), length (firstn n (l ++ repeat 0%Z n)) = n).
  { intros n l. rewrite length_firstn, length_app, repeat_length. lia. }
  rewrite L. split; [reflexivity|].
  apply Qfloor_resp_le in Hn. unfold Qi in Hn. rewrite Qfloor_Z in Hn. lia.
Qed.

(* ================================================================== *)
(** * Claims about the silence trimmer *)
(* ================================================================== *)

(** C10.  At a positive sample rate every kept segment satisfies
    [0 <= start < end <= channelData.length]; the segments come in
    increasing order and do not overlap; every position the copy loop
    reads lies in [[0, channelData.length)]; and the output sample count,
    the sum of the segment lengths, does not exceed the input's. *)
Theorem keepSegments_well_formed (channelData : list Q) (sampleRate : Z) :
  (0 < sampleRate)%Z ->
  let segs := computeKeepSegments channelData sampleRate in
  let n := Qi (length channelData) in
  Forall (fun s => 0 <= seg_start s /\ seg_start s < seg_end s /\ seg_end s <= n) segs
  /\ StronglySorted (fun a b => seg_end a <= seg_start b) segs
  /\ (forall s j, In s segs -> In j (segPositions s) -> 0 <= j /\ j < n)
  /\ totalSamples segs <= n
  /\ exists cleanedPcm,
       buildPcm channelData segs = Some cleanedPcm /\
       length cleanedPcm = Z.to_nat (Qfloor (totalSamples segs)) /\
       (length cleanedPcm <= length channelData)%nat.
Proof.
  intros Hrate segs n.
  destruct (computeKeepSegments_inv channelData sampleRate Hrate) as [Hwf Hsorted].
  fold segs in Hwf, Hsorted. fold n in Hwf.
  assert (Hsum : 0 <= sumLen segs /\ sumLen segs <= n - 0).
  { apply sumLen_bound; try assumption.
    - apply Qi_nonneg.
    - eapply Forall_impl; [|exact Hwf]. intros s Hs. apply Hs. }
  pose proof (totalSamples_sumLen segs) as Htot. destruct Hsum as [Hs0 Hs1].
  split; [exact Hwf|]. split; [exact Hsorted|]. split; [|split].
  - intros s j Hs Hj. apply segPositions_in in Hj. destruct Hj as [Hj1 Hj2].
    rewrite Forall_forall in Hwf. destruct (Hwf s Hs) as (? & ? & ?).
    split; lra.
  - lra.
  - unfold n in *. apply buildPcm_length; lra.
Qed.

Lemma keepSegments_well_formed_witness :
  (0 < 10)%Z /\
  let cd := [1; 0; 0; 0; 0; 0; 0; 1] in
  Forall (fun s => 0 <= seg_start s /\ seg_start s < seg_end s
                   /\ seg_end s <= Qi (length cd))
         (computeKeepSegments cd 10)
  /\ totalSamples (computeKeepSegments cd 10) <= Qi (length cd).
Proof.
  split; [reflexivity|]. intro cd.
  pose proof (keepSegments_well_formed cd 10 eq_refl) as H.
  split; apply H.
Defined.

(** ** Whole-number parameters *)

Lemma Qi_sub (a b : nat) : (b <= a)%nat -> Qi (a - b) == Qi a - Qi b.
Proof.
  intro H. unfold Qi. rewrite Nat2Z.inj_sub by assumption.
  unfold Zminus. rewrite inject_Z_plus, inject_Z_opp. reflexivity.
Qed.

Lemma Qi_lt_inv (a b : nat) : Qi a < Qi b -> (a < b)%nat.
Proof. unfold Qi. rewrite <- Zlt_Qlt. lia. Qed.

Lemma Qmax_0_Qi_sub (i p : nat) : Qmax 0 (Qi i - Qi p) == Qi (i - p).
Proof.
  destruct (Nat.le_gt_cases p i) as [H|H].
  - rewrite Qi_sub by assumption. apply Q.max_r.
    pose proof (Qi_le _ _ H). lra.
  - replace (i - p)%nat with 0%nat by lia. change (Qi 0) with 0.
    apply Q.max_l. pose proof (Qi_lt _ _ H). lra.
Qed.

Lemma Qmin_Qi (a b : nat) : Qmin (Qi a) (Qi b) == Qi (Nat.min a b).
Proof.
  destruct (Nat.le_gt_cases a b) as [H|H].
  - rewrite Nat.min_l by assumption. apply Q.min_l. now apply Qi_le.
  - rewrite Nat.min_r by lia. apply Q.min_r. apply Qi_le. lia.
Qed.

Section ScanIntegral.

Variable len : nat.
Variables minS pad : Q.
Variables m p : nat.
Hypothesis minS_whole : minS == Qi m.
Hypothesis pad_whole : pad == Qi p.

Lemma scan_integral_step i x st :
  scan_integral st -> scan_integral (scan_step len minS pad i x st).
Proof.
  intros [Hsegs Hc]. unfold scan_step, scan_integral.
  destruct (loud x); simpl.
  - split; [assumption|].
    destruct (isSilent st).
    + rewrite Hc. simpl. exists (i - p)%nat.
      rewrite pad_whole. apply Qmax_0_Qi_sub.
    + destruct Hc as [a Ha]. exists a.
      rewrite Qeq_bool_minus1_nonneg; [assumption|].
      rewrite Ha. apply Qi_nonneg.
  - destruct (isSilent st) eqn:Hsil; simpl.
    + rewrite Hsil. split; assumption.
    + destruct (Qltb minS (Qi i - Qi (silenceStart st))) eqn:Hcut; simpl.
      * split; [|reflexivity].
        apply Forall_app. split; [assumption|].
        constructor; [|constructor].
        destruct Hc as [a Ha]. exists a, (Nat.min len (i - m + p)). simpl.
        split; [assumption|].
        apply Qltb_lt in Hcut. rewrite minS_whole in Hcut.
        assert (Hm : (m < i)%nat).
        { apply Qi_lt_inv. pose proof (Qi_nonneg (silenceStart st)). lra. }
        rewrite <- Qmin_Qi, Qi_add, Qi_sub, minS_whole, pad_whole by lia.
        reflexivity.
      * rewrite Hsil. split; assumption.
Qed.

Lemma scan_integral_loop (l : list Q) : forall i st,
  scan_integral st -> scan_integral (scan_loop len minS pad i l st).
Proof.
  induction l as [|x l IH]; intros i st H; simpl; [assumption|].
  apply IH. now apply scan_integral_step.
Qed.

Lemma scan_integral_finish st :
  scan_integral st -> Forall seg_integral (scan_finish len st).
Proof.
  intros [Hsegs Hc]. unfold scan_finish.
  destruct (isSilent st).
  - rewrite Hc. simpl. assumption.
  - destruct Hc as [a Ha].
    rewrite Qeq_bool_minus1_nonneg by (rewrite Ha; apply Qi_nonneg).
    apply Forall_app. split; [assumption|].
    constructor; [|constructor]. exists a, len. simpl. split; [assumption|reflexivity].
Qed.

End ScanIntegral.

(** At a sample rate that is a positive multiple of ten (24000 Hz, the
    rate the decoding context is created with, is one) both parameters
    are whole numbers of samples, every segment bound is a sample index,
    and every position the copy loop visits holds a sample. *)
Lemma keepSegments_integral (channelData : list Q) (sampleRate : Z) :
  (0 < sampleRate)%Z -> (10 | sampleRate)%Z ->
  Forall seg_integral (computeKeepSegments channelData sampleRate).
Proof.
  intros Hpos [k Hk].
  assert (Hk0 : (0 < k)%Z) by lia.
  unfold computeKeepSegments.
  apply scan_integral_finish.
  apply scan_integral_loop with (m := Z.to_nat (4 * k)) (p := Z.to_nat k).
  - unfold minSilenceSamplesOf, Qi. rewrite Z2Nat.id by lia. subst sampleRate.
    rewrite !inject_Z_mult. field.
  - unfold paddingSamplesOf, Qi. rewrite Z2Nat.id by lia. subst sampleRate.
    rewrite !inject_Z_mult. field.
  - split; [constructor|reflexivity].
Qed.

Lemma readSample_index (channelData : list Q) (j : Q) (k : nat) :
  j == Qi k -> readSample channelData j = nth_error channelData k.
Proof.
  intro H. unfold readSample.
  assert (Hf : Qfloor j = Z.of_nat k).
  { rewrite (Qfloor_comp _ _ H). apply Qfloor_Z. }
  rewrite Hf.
  assert (E : Qeq_bool (inject_Z (Z.of_nat k)) j = true).
  { apply Qeq_bool_iff. symmetry. exact H. }
  rewrite E. destruct (Z.leb_spec 0 (Z.of_nat k)); [|lia].
  simpl. now rewrite Nat2Z.id.
Qed.

Lemma copy_reads_samples (channelData : list Q) (sampleRate : Z) (s : Segment) (j : Q) :
  (0 < sampleRate)%Z -> (10 | sampleRate)%Z ->
  In s (computeKeepSegments channelData sampleRate) ->
  In j (segPositions s) ->
  exists x, readSample channelData j = Some x.
Proof.
  intros Hpos Hdiv Hs Hj.
  pose proof (keepSegments_integral channelData sampleRate Hpos Hdiv) as Hint.
  rewrite Forall_forall in Hint. destruct (Hint s Hs) as (a & b & Ha & Hb).
  destruct (computeKeepSegments_inv channelData sampleRate Hpos) as [Hwf _].
  rewrite Forall_forall in Hwf. destruct (Hwf s Hs) as (_ & _ & Hend).
  destruct (segPositions_in s j Hj) as [_ Hlt'].
  assert (Hlt : j < Qi (length channelData)) by lra.
  unfold segPositions in Hj. apply in_map_iff in Hj. destruct Hj as (k & Hjk & _).
  assert (E : j == Qi (a + k)) by (rewrite <- Hjk, Qi_add, Ha; reflexivity).
  rewrite (readSample_index _ _ _ E).
  rewrite E in Hlt. apply Qi_lt_inv in Hlt.
  destruct (nth_error channelData (a + k)) as [x|] eqn:En; [now exists x|].
  apply nth_error_None in En. lia.
Qed.

(** ** Prefixes of the scan *)

Lemma firstn_add_skipn {A} (a b : nat) (l : list A) :
  firstn (a + b) l = firstn a l ++ firstn b (skipn a l).
Proof.
  revert l. induction a as [|a IH]; intro l; simpl; [reflexivity|].
  destruct l as [|y l]; simpl.
  - now rewrite firstn_nil.
  - now rewrite IH.
Qed.

Lemma firstn_1_skipn {A} (L : nat) (l : list A) (x : A) :
  nth_error l L = Some x -> firstn 1 (skipn L l) = [x].
Proof.
  revert l. induction L as [|L IH]; intros [|y l] H; simpl in *; try discriminate.
  - now inversion H.
  - now apply IH.
Qed.

Lemma nth_error_length {A} (l : list A) (k : nat) (x : A) :
  nth_error l k = Some x -> (k < length l)%nat.
Proof. intro H. apply nth_error_Some. congruence. Qed.

(** One more iteration, on the sample at index [L]. *)
Lemma scanPrefix_S (channelData : list Q) (sampleRate : Z) (L : nat) (x : Q) :
  nth_error channelData L = Some x ->
  scanPrefix channelData sampleRate (S L)
  = scan_step (length channelData) (minSilenceSamplesOf sampleRate)
              (paddingSamplesOf sampleRate) L x
              (scanPrefix channelData sampleRate L).
Proof.
  intro H. unfold scanPrefix.
  replace (S L) with (L + 1)%nat by lia.
  rewrite firstn_add_skipn, (firstn_1_skipn _ _ _ H), scan_loop_app.
  apply nth_error_length in H.
  rewrite length_firstn, Nat.min_l by lia. reflexivity.
Qed.

(** [m] more iterations from index [k] on. *)
Lemma scanPrefix_add (channelData : list Q) (sampleRate : Z) (k m : nat) :
  (k <= length channelData)%nat ->
  scanPrefix channelData sampleRate (k + m)
  = scan_loop (length channelData) (minSilenceSamplesOf sampleRate)
              (paddingSamplesOf sampleRate) k
              (firstn m (skipn k channelData))
              (scanPrefix channelData sampleRate k).
Proof.
  intro H. unfold scanPrefix.
  rewrite firstn_add_skipn, scan_loop_app, length_firstn, Nat.min_l by lia.
  reflexivity.
Qed.

Lemma scanPrefix_inv (channelData : list Q) (sampleRate : Z) (k : nat) :
  (0 < sampleRate)%Z -> (k <= length channelData)%nat ->
  scan_inv (length channelData) (paddingSamplesOf sampleRate) k
           (scanPrefix channelData sampleRate k).
Proof.
  intros Hrate. induction k as [|k IH]; intro Hk.
  - apply scan_inv_init.
  - destruct (nth_error channelData k) as [x|] eqn:E.
    + rewrite (scanPrefix_S _ _ _ _ E).
      apply scan_inv_step; auto using padding_nonneg, padding_twice with arith.
    + apply nth_error_None in E. lia.
Qed.

Lemma quiet_run_Forall (channelData : list Q) (L m : nat) :
  (forall j, (L < j <= L + m)%nat ->
             exists y, nth_error channelData j = Some y /\ loud y = false) ->
  Forall (fun y => loud y = false) (firstn m (skipn (S L) channelData)) /\
  length (firstn m (skipn (S L) channelData)) = m.
Proof.
  intro H.
  assert (Hlen : (m = 0 \/ L + m < length channelData)%nat).
  { destruct m as [|m]; [now left|right].
    destruct (H (L + S m)%nat) as (y & Hy & _); [lia|].
    now apply nth_error_length in Hy. }
  split.
  - apply Forall_forall. intros y Hy.
    apply In_nth_error in Hy. destruct Hy as (k & Hk).
    assert (Hkm : (k < m)%nat).
    { apply nth_error_length in Hk. rewrite length_firstn in Hk. lia. }
    rewrite nth_error_firstn in Hk.
    destruct (Nat.ltb_spec k m); [|lia].
    rewrite nth_error_skipn in Hk.
    destruct (H (S L + k)%nat) as (y' & Hy' & Hq); [lia|]. congruence.
  - rewrite length_firstn, length_skipn. lia.
Qed.

(** ** When no segment is kept *)

Lemma quiet_iff (x : Q) : loud x = false <-> Qabs x <= threshold.
Proof. unfold loud. apply Qltb_ge. Qed.

Lemma all_quiet_no_segments (channelData : list Q) (sampleRate : Z) :
  Forall (fun x => Qabs x <= threshold) channelData ->
  computeKeepSegments channelData sampleRate = [].
Proof.
  intro H. unfold computeKeepSegments.
  rewrite scan_loop_quiet_idle; [reflexivity| |reflexivity].
  eapply Forall_impl; [|exact H]. intros x Hx. now apply quiet_iff.
Qed.

Lemma scan_step_shape len minS pad i x st :
  scan_shape st -> scan_shape (scan_step len minS pad i x st).
Proof.
  unfold scan_shape, scan_step. intro Hc.
  destruct (loud x); simpl.
  - right. destruct Hc as [Hc|Hc].
    + rewrite Hc. simpl. apply Q.le_max_l.
    + now rewrite (Qeq_bool_minus1_nonneg _ Hc).
  - destruct (negb (isSilent st) && Qltb minS (Qi i - Qi (silenceStart st)));
      [now left|assumption].
Qed.

Lemma scan_step_opened len minS pad i x st :
  scan_opened st \/ loud x = true -> scan_shape st ->
  scan_opened (scan_step len minS pad i x st).
Proof.
  intros Ho Hc. unfold scan_step, scan_opened.
  destruct (loud x) eqn:Hx; simpl.
  - right. destruct Hc as [Hc|Hc].
    + rewrite Hc. simpl. apply Q.le_max_l.
    + now rewrite (Qeq_bool_minus1_nonneg _ Hc).
  - destruct Ho as [Ho|Ho]; [|discriminate].
    destruct (negb (isSilent st) && Qltb minS (Qi i - Qi (silenceStart st))); simpl.
    + left. intro E. now apply app_eq_nil in E as [_ E].
    + assumption.
Qed.

Lemma scan_loop_opened len minS pad (l : list Q) : forall i st,
  scan_opened st \/ Exists (fun x => loud x = true) l -> scan_shape st ->
  scan_opened (scan_loop len minS pad i l st).
Proof.
  induction l as [|x l IH]; intros i st Ho Hc; simpl.
  - destruct Ho as [Ho|Ho]; [exact Ho|inversion Ho].
  - apply IH; [|now apply scan_step_shape].
    destruct Ho as [Ho|Ho].
    + left. apply scan_step_opened; auto.
    + inversion Ho as [? ? Hx|? ? Hl]; subst.
      * left. apply scan_step_opened; auto.
      * now right.
Qed.

(** Zero segments are kept exactly when no sample is above the threshold. *)
Lemma no_segments_iff_all_quiet (channelData : list Q) (sampleRate : Z) :
  computeKeepSegments channelData sampleRate = [] <->
  Forall (fun x => Qabs x <= threshold) channelData.
Proof.
  split; [|apply all_quiet_no_segments].
  intro H. apply Forall_forall. intros x Hx.
  apply quiet_iff. destruct (loud x) eqn:E; [exfalso|reflexivity].
  assert (Hex : Exists (fun y => loud y = true) channelData)
    by (apply Exists_exists; eauto).
  pose proof (scan_loop_opened (length channelData) (minSilenceSamplesOf sampleRate)
                (paddingSamplesOf sampleRate) channelData 0 scan_init
                (or_intror Hex) (or_introl eq_refl)) as Ho.
  unfold computeKeepSegments, scan_finish in H.
  destruct Ho as [Ho|Ho].
  - destruct (Qeq_bool _ _); [contradiction|].
    now apply app_eq_nil in H as [_ H].
  - rewrite (Qeq_bool_minus1_nonneg _ Ho) in H.
    now apply app_eq_nil in H as [_ H].
Qed.

(** C1.  Whenever the scan keeps no segment, [trimSilenceFromAudio]
    resolves to the very blob it was given; this is the case in
    particular when every sample is at or below the amplitude threshold. *)
Theorem trim_returns_original_when_nothing_kept
    (decodeAudioData : Blob -> option AudioBuffer) (blob : Blob) (audioBuffer : AudioBuffer) :
  decodeAudioData blob = Some audioBuffer ->
  let channelData := getChannelData audioBuffer in
  let sampleRate := buffer_sampleRate audioBuffer in
  (computeKeepSegments channelData sampleRate = [] ->
     trimSilenceFromAudio decodeAudioData blob = Some blob)
  /\ (Forall (fun x => Qabs x <= threshold) channelData ->
        computeKeepSegments channelData sampleRate = [] /\
        trimSilenceFromAudio decodeAudioData blob = Some blob).
Proof.
  intros Hdec channelData sampleRate.
  assert (G : computeKeepSegments channelData sampleRate = [] ->
              trimSilenceFromAudio decodeAudioData blob = Some blob).
  { intro H. unfold trimSilenceFromAudio. rewrite Hdec.
    fold channelData sampleRate. cbv zeta. rewrite H. reflexivity. }
  split; [exact G|].
  intro Hq. pose proof (all_quiet_no_segments channelData sampleRate Hq) as H.
  split; [exact H|exact (G H)].
Qed.

Lemma trim_returns_original_when_nothing_kept_witness :
  let blob := {| blob_bytes := [82; 73; 70; 70]%Z; blob_type := "audio/mpeg" |} in
  let audioBuffer := {| getChannelData := [0; 0.01; -0.015; 0]; buffer_sampleRate := 24000 |} in
  let decodeAudioData := fun _ : Blob => Some audioBuffer in
  decodeAudioData blob = Some audioBuffer /\
  Forall (fun x => Qabs x <= threshold) (getChannelData audioBuffer) /\
  trimSilenceFromAudio decodeAudioData blob = Some blob.
Proof.
  intros blob audioBuffer decodeAudioData.
  assert (Hq : Forall (fun x => Qabs x <= threshold) (getChannelData audioBuffer)).
  { repeat constructor; unfold Qle; simpl; lia. }
  split; [reflexivity|]. split; [exact Hq|].
  apply (trim_returns_original_when_nothing_kept decodeAudioData blob audioBuffer eq_refl).
  exact Hq.
Defined.

(** ** Where a cut closes the segment *)

(** C4, as the code has it.  Let sample [L] be loud and the [m] samples
    after it quiet.  If [m] is at most [minSilenceSamples] the scan state
    after the run is the state before it: no cut.  If [m] exceeds
    [minSilenceSamples], exactly one segment is pushed; it starts where the
    open segment started and ends at [d - minSilenceSamples + paddingSamples]
    clamped to the signal length, where [d = L + 1 + floor minSilenceSamples]
    is the first index whose distance from [L] exceeds [minSilenceSamples]
    (so the unclamped end is within one sample of the run's first index
    [L + 1] plus [paddingSamples]); and a loud sample right after the run
    opens the next segment at its own index minus [paddingSamples].  A
    segment still open when the loop ends is closed at the signal length. *)
Theorem scan_cut_rule (channelData : list Q) (sampleRate : Z) (L m : nat) (x : Q) :
  (0 < sampleRate)%Z ->
  nth_error channelData L = Some x -> loud x = true ->
  (forall j, (L < j <= L + m)%nat ->
             exists y, nth_error channelData j = Some y /\ loud y = false) ->
  let minS := minSilenceSamplesOf sampleRate in
  let pad := paddingSamplesOf sampleRate in
  let n := length channelData in
  let before := scanPrefix channelData sampleRate (S L) in
  let after := scanPrefix channelData sampleRate (S L + m) in
  let d := (L + 1 + Z.to_nat (Qfloor minS))%nat in
  (Qi m <= minS -> after = before)
  /\ (minS < Qi m ->
        minS < Qi d - Qi L
        /\ (forall i, (i < d)%nat -> Qi i - Qi L <= minS)
        /\ Qi (S L) + pad - 1 < Qi d - minS + pad <= Qi (S L) + pad
        /\ keepSegments after
           = keepSegments before ++
             [ {| seg_start := currentSegmentStart before;
                  seg_end := Qmin (Qi n) (Qi d - minS + pad) |} ]
        /\ (forall y, nth_error channelData (S L + m) = Some y -> loud y = true ->
              currentSegmentStart (scanPrefix channelData sampleRate (S (S L + m)))
              == Qi (S L + m) - pad))
  /\ (let final := scanPrefix channelData sampleRate n in
      isSilent final = false ->
      computeKeepSegments channelData sampleRate
      = keepSegments final ++
        [ {| seg_start := currentSegmentStart final; seg_end := Qi n |} ]).
Proof.
  intros Hrate HL Hx Hq minS pad n before after d.
  pose proof (minSilence_nonneg sampleRate Hrate) as HminS.
  pose proof (padding_nonneg sampleRate Hrate) as Hpad.
  pose proof (padding_twice sampleRate Hrate) as Hpad2.
  fold minS in HminS, Hpad2. fold pad in Hpad, Hpad2.
  destruct (quiet_run_Forall channelData L m Hq) as [Hrun Hrunlen].
  pose proof (nth_error_length _ _ _ HL) as HLlen.
  assert (Hbefore : before = scan_step n minS pad L x (scanPrefix channelData sampleRate L))
    by (apply scanPrefix_S; assumption).
  assert (Hbs : isSilent before = false /\ silenceStart before = L).
  { rewrite Hbefore. unfold scan_step. rewrite Hx. split; reflexivity. }
  destruct Hbs as [Hbsil HbL].
  assert (Hafter : after =
            if (d <? S L + m)%nat then cut_state n minS pad d before else before).
  { unfold after. rewrite scanPrefix_add by lia. fold n minS pad before.
    rewrite (scan_loop_quiet_run n minS pad HminS _ (S L) before Hrun Hbsil).
    - rewrite HbL, Hrunlen. reflexivity.
    - rewrite HbL. unfold detectIndex. lia. }
  split; [|split].
  - intro Hm. rewrite Hafter.
    destruct (Nat.ltb_spec d (S L + m)) as [Hd|Hd]; [|reflexivity].
    apply (detect_within_run minS HminS L m) in Hd. lra.
  - intro Hm.
    assert (Hd : (d < S L + m)%nat) by (apply (detect_within_run minS HminS L m); exact Hm).
    split; [apply (detect_fires minS HminS L)|].
    split; [intros i Hi; apply (before_detect_quiet minS HminS L i Hi)|].
    split.
    { assert (Hf : minS < Qi d - Qi L) by apply (detect_fires minS HminS L).
      assert (Hb : Qi (d - 1) - Qi L <= minS)
        by (apply (before_detect_quiet minS HminS L); unfold detectIndex, d; lia).
      assert (Hd1 : Qi d == Qi (d - 1) + 1).
      { rewrite <- Qi_S. replace (S (d - 1)) with d by (unfold d; lia). reflexivity. }
      pose proof (Qi_S L) as HSL. split; lra. }
    apply Nat.ltb_lt in Hd. rewrite Hd in Hafter.
    split; [rewrite Hafter; reflexivity|].
    intros y Hy Hloud.
    rewrite (scanPrefix_S _ _ _ _ Hy). fold after. rewrite Hafter.
    unfold scan_step. rewrite Hloud. simpl. fold pad.
    pose proof (Qi_S (L + m)) as HS. pose proof (Qi_add L m) as Ha.
    pose proof (Qi_nonneg L) as Hs.
    apply Q.max_r. lra.
  - intros final Hsil.
    assert (Hfin : final = scan_loop n minS pad 0 channelData scan_init).
    { unfold final, scanPrefix, n. now rewrite firstn_all. }
    pose proof (scanPrefix_inv channelData sampleRate n Hrate (le_n _)) as Hinv.
    fold final in Hinv. destruct Hinv as (_ & _ & Hst). rewrite Hsil in Hst.
    destruct Hst as (Hc0 & _).
    unfold computeKeepSegments, scan_finish. fold n minS pad. rewrite <- Hfin.
    now rewrite (Qeq_bool_minus1_nonneg _ Hc0).
Qed.

Lemma scan_cut_rule_witness :
  let channelData := [1; 0; 0; 0; 0; 0; 0; 1] in
  (0 < 10)%Z /\ nth_error channelData 0 = Some 1 /\ loud 1 = true /\
  keepSegments (scanPrefix channelData 10 (1 + 6))
  = keepSegments (scanPrefix channelData 10 1) ++
    [ {| seg_start := currentSegmentStart (scanPrefix channelData 10 1);
         seg_end := Qmin (Qi 8) (Qi (0 + 1 + Z.to_nat (Qfloor (minSilenceSamplesOf 10)))
                                 - minSilenceSamplesOf 10 + paddingSamplesOf 10) |} ].
Proof.
  intro channelData.
  split; [reflexivity|]. split; [reflexivity|]. split; [reflexivity|].
  assert (Hq : forall j, (0 < j <= 0 + 6)%nat ->
                 exists y, nth_error channelData j = Some y /\ loud y = false).
  { intros j Hj.
    assert (Hc : (j = 1 \/ j = 2 \/ j = 3 \/ j = 4 \/ j = 5 \/ j = 6)%nat) by lia.
    destruct Hc as [E|[E|[E|[E|[E|E]]]]]; subst j; exists 0; split; reflexivity. }
  destruct (scan_cut_rule channelData 10 0 6 1 eq_refl eq_refl eq_refl Hq)
    as (_ & Hcut & _).
  apply Hcut. reflexivity.
Defined.

(** C4 as worded fails: with a loud sample at index 0, six quiet samples
    (minSilenceSamples = 4, paddingSamples = 1) and a loud one, the first
    segment closes at index 2, while the silence run's start index minus
    minSilenceSamples plus paddingSamples is negative, whichever of the
    last loud index (0) or the first quiet index (1) is taken as the start
    of the run. *)
Lemma spec_closeIndex_differs :
  let channelData := [1; 0; 0; 0; 0; 0; 0; 1] in
  exists s rest,
    computeKeepSegments channelData 10 = s :: rest /\
    seg_end s == 2 /\
    ~ seg_end s == spec_closeIndex 8 (minSilenceSamplesOf 10) (paddingSamplesOf 10) 1 /\
    ~ seg_end s == spec_closeIndex 8 (minSilenceSamplesOf 10) (paddingSamplesOf 10) 0.
Proof.
  intro channelData. eexists. eexists. split; [reflexivity|].
  split; [reflexivity|]. split; intro H; vm_compute in H; discriminate.
Qed.

(* ================================================================== *)
(** * The WAV header *)
(* ================================================================== *)

Lemma createWavBlob_bytes (pcmBuffer : list Z) (sampleRate : Z) :
  blob_bytes (createWavBlob pcmBuffer sampleRate)
  = wavHeaderBytes (Z.of_nat (length pcmBuffer)) sampleRate ++ pcmBuffer.
Proof.
  unfold createWavBlob, wavHeaderBytes, leByte.
  cbn [blob_bytes]. f_equal.
  set (n := Z.of_nat (length pcmBuffer)).
  unfold setUint32, setUint16.
  cbn [writeStr setUint8 repeat Nat.add].
  rewrite !Z.div_1_r.
  reflexivity.
Qed.

Lemma leByte_combine (w : Z) :
  (0 <= w < 4294967296)%Z ->
  (leByte 0 w + 256 * leByte 1 w + 65536 * leByte 2 w + 16777216 * leByte 3 w = w)%Z.
Proof.
  intro H. unfold leByte.
  change (256 ^ Z.of_nat 0)%Z with 1%Z. change (256 ^ Z.of_nat 1)%Z with 256%Z.
  change (256 ^ Z.of_nat 2)%Z with 65536%Z. change (256 ^ Z.of_nat 3)%Z with 16777216%Z.
  Z.div_mod_to_equations. lia.
Qed.

Lemma int16Buffer_length (pcm : list Z) : length (int16Buffer pcm) = (2 * length pcm)%nat.
Proof.
  unfold int16Buffer. induction pcm as [|v pcm IH]; simpl; [reflexivity|].
  rewrite IH. lia.
Qed.

(** Re-parsing what [createWavBlob] wrote: the fields come back modulo
    the widths they were stored in. *)
Lemma parse_createWavBlob (pcmBuffer : list Z) (sampleRate : Z) :
  let byteLength := Z.of_nat (length pcmBuffer) in
  parseWavHeader (blob_bytes (createWavBlob pcmBuffer sampleRate))
  = Some {| wav_riffSize := ((36 + byteLength) mod 4294967296)%Z;
            wav_audioFormat := 1;
            wav_channels := 1;
            wav_sampleRate := (sampleRate mod 4294967296)%Z;
            wav_byteRate := ((sampleRate * 2) mod 4294967296)%Z;
            wav_blockAlign := 2;
            wav_bitsPerSample := 16;
            wav_dataSize := (byteLength mod 4294967296)%Z |}.
Proof.
  intro byteLength. rewrite createWavBlob_bytes. fold byteLength.
  assert (Hmod : forall v, (0 <= v mod 4294967296 < 4294967296)%Z)
    by (intro v; apply Z.mod_pos_bound; lia).
  unfold parseWavHeader, wavHeaderBytes.
  cbn [length app Nat.leb forallb fst snd readStr skipn firstn andb].
  change (codes "RIFF") with [82; 73; 70; 70]%Z.
  change (codes "WAVE") with [87; 65; 86; 69]%Z.
  change (codes "fmt ") with [102; 109; 116; 32]%Z.
  change (codes "data") with [100; 97; 116; 97]%Z.
  repeat match goal with
         | |- context [list_eq_dec Z.eq_dec ?a ?a] =>
             destruct (list_eq_dec Z.eq_dec a a) as [_|Hne]; [|contradiction]
         end.
  cbn [andb]. unfold getUint32, getUint16, getUint8.
  cbn [nth Nat.add].
  rewrite !leByte_combine by apply Hmod.
  reflexivity.
Qed.

(** C5, as the code has it.  For every array of 16-bit samples and every
    sample rate that fit the header's 32-bit fields, the blob is the
    44-byte header followed by two bytes per sample, and re-parsing the
    header gives channel count 1, 16 bits per sample, the sample rate
    given, a data chunk size of twice the sample count and a RIFF size of
    36 plus the payload's byte length. *)
Theorem wav_header_roundtrip (cleanedPcm : list Z) (sampleRate : Z) :
  (0 <= sampleRate < 4294967296)%Z ->
  (36 + 2 * Z.of_nat (length cleanedPcm) < 4294967296)%Z ->
  let blob := createWavBlob (int16Buffer cleanedPcm) sampleRate in
  length (blob_bytes blob) = (44 + 2 * length cleanedPcm)%nat
  /\ skipn 44 (blob_bytes blob) = int16Buffer cleanedPcm
  /\ exists h,
       parseWavHeader (blob_bytes blob) = Some h
       /\ wav_channels h = 1%Z
       /\ wav_bitsPerSample h = 16%Z
       /\ wav_sampleRate h = sampleRate
       /\ wav_dataSize h = (2 * Z.of_nat (length cleanedPcm))%Z
       /\ wav_riffSize h = (36 + Z.of_nat (length (int16Buffer cleanedPcm)))%Z.
Proof.
  intros Hrate Hlen blob.
  pose proof (int16Buffer_length cleanedPcm) as Hb.
  split; [|split].
  - unfold blob. rewrite createWavBlob_bytes, length_app, Hb. reflexivity.
  - unfold blob. rewrite createWavBlob_bytes. reflexivity.
  - eexists. split; [apply parse_createWavBlob|]. cbn [wav_channels wav_bitsPerSample
      wav_sampleRate wav_dataSize wav_riffSize].
    rewrite Hb. rewrite !Z.mod_small by lia.
    repeat split; lia.
Qed.

Lemma wav_header_roundtrip_witness :
  (0 <= 24000 < 4294967296)%Z /\
  (36 + 2 * Z.of_nat (length [0; 16383; -32767]%Z) < 4294967296)%Z /\
  exists h,
    parseWavHeader (blob_bytes (createWavBlob (int16Buffer [0; 16383; -32767]%Z) 24000)) = Some h
    /\ wav_channels h = 1%Z /\ wav_bitsPerSample h = 16%Z /\ wav_sampleRate h = 24000%Z
    /\ wav_dataSize h = 6%Z /\ wav_riffSize h = 42%Z.
Proof.
  assert (H1 : (0 <= 24000 < 4294967296)%Z) by lia.
  assert (H2 : (36 + 2 * Z.of_nat (length [0; 16383; -32767]%Z) < 4294967296)%Z)
    by (simpl; lia).
  split; [exact H1|]. split; [exact H2|].
  destruct (wav_header_roundtrip [0; 16383; -32767]%Z 24000 H1 H2)
    as (_ & _ & h & Hp & Hc & Hb & Hr & Hd & Hf).
  exists h. repeat split; assumption.
Defined.

(** C5 as worded fails once a value does not fit its 32-bit field: a
    sample rate of [2^32 + 24000] reads back as 24000, and the data chunk
    size of [2^31] samples (4 GiB of payload) reads back as 0. *)
Lemma wav_header_sampleRate_wraps :
  (exists h,
     parseWavHeader (blob_bytes (createWavBlob (int16Buffer [0]%Z) 4294991296)) = Some h
     /\ wav_sampleRate h = 24000%Z
     /\ wav_sampleRate h <> 4294991296%Z)
  /\ (let cleanedPcm := repeat 0%Z (Z.to_nat 2147483648) in
      exists h,
        parseWavHeader (blob_bytes (createWavBlob (int16Buffer cleanedPcm) 24000)) = Some h
        /\ wav_dataSize h = 0%Z
        /\ wav_dataSize h <> (2 * Z.of_nat (length cleanedPcm))%Z).
Proof.
  split.
  - eexists. split; [vm_compute; reflexivity|]. split; [reflexivity|discriminate].
  - intro cleanedPcm. eexists. split; [apply parse_createWavBlob|].
    cbn [wav_dataSize].
    assert (Hlen : Z.of_nat (length cleanedPcm) = 2147483648%Z).
    { unfold cleanedPcm. rewrite repeat_length. apply Z2Nat.id. discriminate. }
    assert (Hbytes : Z.of_nat (length (int16Buffer cleanedPcm)) = 4294967296%Z).
    { rewrite int16Buffer_length, Nat2Z.inj_mul, Hlen. reflexivity. }
    rewrite Hbytes, Hlen. split; [reflexivity|discriminate].
Qed.

(* ------------------------------------------------------------------ *)
(** ** Small runs of the trimmer *)

Example keep_10Hz :
  computeKeepSegments [1; 0; 0; 0; 0; 0; 0; 1] 10
  = [ {| seg_start := Qmax 0 (Qi 0 - paddingSamplesOf 10);
         seg_end := Qmin (Qi 8) (Qi 5 - minSilenceSamplesOf 10 + paddingSamplesOf 10) |};
      {| seg_start := Qmax 0 (Qi 7 - paddingSamplesOf 10); seg_end := Qi 8 |} ].
Proof. reflexivity. Qed.

(** At 100 Hz (40 samples of minimum silence, 10 of padding) with a gap
    of 41 quiet samples: the first segment keeps 10 samples of the gap,
    the second starts 10 samples before the sound resumes. *)
Example keep_100Hz :
  let channelData := [0.5] ++ repeat 0 41 ++ [0.5] in
  map (fun s => (Qred (seg_start s), Qred (seg_end s)))
      (computeKeepSegments channelData 100)
  = [(0, 11); (32, 43)].
Proof. vm_compute. reflexivity. Qed.

(* ================================================================== *)
(** * The velocity-sync engine *)
(* ================================================================== *)

(** What [renderSceneFrame] leaves in the refs: the selected clip, synced. *)
Lemma renderSceneFrame_refs props isPlaying refs scene time tp isOutgoing :
  snd (renderSceneFrame props isPlaying refs scene time tp isOutgoing)
  = match selectedClip refs scene with
    | Some (1%nat, v) =>
        setVideo1 refs (velocitySync isPlaying (endTime scene - startTime scene)
                                     (time - startTime scene) v)
    | Some (_, v) =>
        setVideo2 refs (velocitySync isPlaying (endTime scene - startTime scene)
                                     (time - startTime scene) v)
    | None => refs
    end.
Proof.
  unfold renderSceneFrame, selectedClip.
  destruct isOutgoing, (transitionType scene);
    destruct (srcMatches (video1 refs) (videoClipUrl scene));
    destruct (srcMatches (video2 refs) (videoClipUrl scene));
    destruct (truthy (videoClipUrl scene));
    destruct (2 <=? readyState (video1 refs))%nat;
    destruct (2 <=? readyState (video2 refs))%nat; reflexivity.
Qed.

Lemma selectedClip_slot refs scene slot v :
  selectedClip refs scene = Some (slot, v) ->
  (slot = 1%nat \/ slot = 2%nat) /\ v = videoAt refs slot /\
  srcMatches v (videoClipUrl scene) = true /\
  truthy (videoClipUrl scene) = true /\ (2 <= readyState v)%nat.
Proof.
  unfold selectedClip. intro H.
  destruct (srcMatches (video1 refs) (videoClipUrl scene)) eqn:E1.
  - destruct (truthy (videoClipUrl scene)) eqn:Et; [|discriminate].
    destruct (Nat.leb_spec 2 (readyState (video1 refs))); [|discriminate].
    inversion H; subst. auto.
  - destruct (srcMatches (video2 refs) (videoClipUrl scene)) eqn:E2; [|discriminate].
    destruct (truthy (videoClipUrl scene)) eqn:Et; [|discriminate].
    destruct (Nat.leb_spec 2 (readyState (video2 refs))); [|discriminate].
    inversion H; subst. auto.
Qed.

Lemma durationOr_cases (v : Video) (sceneDuration : Q) :
  (forall d, duration v = Some d -> ~ d == 0 -> durationOr v sceneDuration = d) /\
  (duration v = None \/ (exists d, duration v = Some d /\ d == 0) ->
   durationOr v sceneDuration = sceneDuration).
Proof.
  unfold durationOr. split.
  - intros d Hd Hnz. rewrite Hd.
    destruct (Qeq_bool d 0) eqn:E; [|reflexivity].
    apply Qeq_bool_iff in E. contradiction.
  - intros [Hn|(d & Hd & Hz)].
    + now rewrite Hn.
    + rewrite Hd. apply Qeq_bool_iff in Hz. now rewrite Hz.
Qed.

(** C3, as the code has it.  On a tick that renders [scene] with its clip
    [v] selected, let [clipDuration] be [v.duration] when that is a
    non-zero number and the scene's own duration otherwise,
    [baseRate = clipDuration / sceneDuration],
    [targetPosition = elapsed * baseRate] and
    [drift = v.currentTime - targetPosition].  If [|drift| > 0.5] the
    position is set to [targetPosition] and the rate is left alone;
    else if [|drift| > 0.05] the rate is set to [baseRate * 0.95] when
    [drift > 0] and to [baseRate * 1.05] otherwise; else the rate is set
    to [baseRate]; in the last two cases the position is left alone. *)
Theorem velocity_sync_rule props isPlaying refs scene time tp isOutgoing slot v :
  startTime scene < endTime scene ->
  selectedClip refs scene = Some (slot, v) ->
  let sceneDuration := endTime scene - startTime scene in
  let elapsed := time - startTime scene in
  let clipDuration := durationOr v sceneDuration in
  let baseRate := clipDuration / sceneDuration in
  let targetPosition := elapsed * baseRate in
  let drift := currentTime v - targetPosition in
  let v' := videoAt (snd (renderSceneFrame props isPlaying refs scene time tp isOutgoing)) slot in
  (forall d, duration v = Some d -> ~ d == 0 -> clipDuration = d)
  /\ (duration v = None \/ (exists d, duration v = Some d /\ d == 0) -> baseRate == 1)
  /\ (0.5 < Qabs drift ->
        currentTime v' = targetPosition /\ playbackRate v' = playbackRate v)
  /\ (Qabs drift <= 0.5 -> 0.05 < Qabs drift -> 0 < drift ->
        playbackRate v' = baseRate * 0.95 /\ currentTime v' = currentTime v)
  /\ (Qabs drift <= 0.5 -> 0.05 < Qabs drift -> drift <= 0 ->
        playbackRate v' = baseRate * 1.05 /\ currentTime v' = currentTime v)
  /\ (Qabs drift <= 0.05 ->
        playbackRate v' = baseRate /\ currentTime v' = currentTime v).
Proof.
  intros Hdur Hsel sceneDuration elapsed clipDuration baseRate targetPosition drift v'.
  assert (Hv' : v' = velocitySync isPlaying sceneDuration elapsed v).
  { unfold v'. rewrite renderSceneFrame_refs, Hsel.
    destruct (selectedClip_slot _ _ _ _ Hsel) as ([E|E] & _); subst slot; reflexivity. }
  destruct (durationOr_cases v sceneDuration) as [Hd1 Hd2].
  split; [exact Hd1|]. split.
  { intro H. unfold baseRate, clipDuration. rewrite (Hd2 H).
    unfold sceneDuration. field. lra. }
  rewrite Hv'. unfold velocitySync.
  fold clipDuration. fold baseRate. fold targetPosition. fold drift.
  assert (Hplay : forall w : Video,
            currentTime (if isPlaying && paused w
                         then {| src := src w; duration := duration w;
                                 currentTime := currentTime w;
                                 playbackRate := playbackRate w; paused := false;
                                 readyState := readyState w |}
                         else w) = currentTime w /\
            playbackRate (if isPlaying && paused w
                          then {| src := src w; duration := duration w;
                                  currentTime := currentTime w;
                                  playbackRate := playbackRate w; paused := false;
                                  readyState := readyState w |}
                          else w) = playbackRate w).
  { intro w. destruct (isPlaying && paused w); split; reflexivity. }
  split; [|split; [|split]].
  - intro H. apply Qltb_lt in H. rewrite H.
    destruct (Hplay {| src := src v; duration := duration v; currentTime := targetPosition;
                       playbackRate := playbackRate v; paused := paused v;
                       readyState := readyState v |}) as [Hc Hr].
    split; [exact Hc|exact Hr].
  - intros H1 H2 H3. apply Qltb_ge in H1. apply Qltb_lt in H2. apply Qltb_lt in H3.
    rewrite H1, H2, H3.
    destruct (Hplay {| src := src v; duration := duration v; currentTime := currentTime v;
                       playbackRate := baseRate * 0.95; paused := paused v;
                       readyState := readyState v |}) as [Hc Hr].
    split; [exact Hr|exact Hc].
  - intros H1 H2 H3. apply Qltb_ge in H1. apply Qltb_lt in H2. apply Qltb_ge in H3.
    rewrite H1, H2, H3.
    destruct (Hplay {| src := src v; duration := duration v; currentTime := currentTime v;
                       playbackRate := baseRate * 1.05; paused := paused v;
                       readyState := readyState v |}) as [Hc Hr].
    split; [exact Hr|exact Hc].
  - intro H.
    assert (H1 : Qabs drift <= 0.5) by lra.
    apply Qltb_ge in H1. apply Qltb_ge in H. rewrite H1, H.
    destruct (Hplay {| src := src v; duration := duration v; currentTime := currentTime v;
                       playbackRate := baseRate; paused := paused v;
                       readyState := readyState v |}) as [Hc Hr].
    split; [exact Hr|exact Hc].
Qed.

Lemma velocity_sync_rule_witness :
  let v := {| src := "clip.webm"; duration := Some 10; currentTime := 3;
              playbackRate := 1; paused := false; readyState := 4 |} in
  let refs := setVideo1 demoRefs v in
  startTime sceneClip < endTime sceneClip /\
  selectedClip refs sceneClip = Some (1%nat, v) /\
  currentTime (videoAt (snd (renderSceneFrame (plainProps [sceneClip]) true refs
                                              sceneClip 1 1 false)) 1)
  = (1 - startTime sceneClip)
    * (durationOr v (endTime sceneClip - startTime sceneClip)
       / (endTime sceneClip - startTime sceneClip)).
Proof.
  intros v refs.
  assert (H1 : startTime sceneClip < endTime sceneClip) by reflexivity.
  assert (H2 : selectedClip refs sceneClip = Some (1%nat, v)) by reflexivity.
  split; [exact H1|]. split; [exact H2|].
  apply (velocity_sync_rule (plainProps [sceneClip]) true refs sceneClip 1 1 false 1 v H1 H2).
  reflexivity.
Defined.

(** C3 as worded fails for a clip whose reported duration is zero: the
    code falls back to the scene's duration (base rate 1) and seeks,
    where [clipDuration / sceneDuration] would give base rate 0 and only
    set the rate. *)
Lemma velocity_sync_zero_duration :
  let v := {| src := "clip.webm"; duration := Some 0; currentTime := 0;
              playbackRate := 1; paused := false; readyState := 4 |} in
  let refs := setVideo1 demoRefs v in
  let v' := videoAt (snd (renderSceneFrame (plainProps [sceneClip]) true refs
                                           sceneClip 1 1 false)) 1 in
  let claimed := spec_velocitySync 0 (endTime sceneClip - startTime sceneClip)
                                   (1 - startTime sceneClip) v in
  selectedClip refs sceneClip = Some (1%nat, v) /\
  currentTime v' == 1 /\ playbackRate v' == 1 /\
  currentTime claimed == 0 /\ playbackRate claimed == 0 /\
  ~ currentTime v' == currentTime claimed /\
  ~ playbackRate v' == playbackRate claimed.
Proof.
  intros v refs v' claimed.
  repeat split; try reflexivity; intro H; vm_compute in H; discriminate.
Qed.

(* ================================================================== *)
(** * The transition state machine *)
(* ================================================================== *)

Lemma renderSceneFrame_opacity props isPlaying refs scene time tp isOutgoing :
  sr_opacity (fst (renderSceneFrame props isPlaying refs scene time tp isOutgoing))
  = if isOutgoing
    then match transitionType scene with
         | PolygonWipe => 1.0
         | _ => 1 - tp
         end
    else match transitionType scene with
         | PolygonWipe => 1.0
         | _ => tp
         end.
Proof.
  unfold renderSceneFrame.
  destruct isOutgoing, (transitionType scene);
    destruct (srcMatches (video1 refs) (videoClipUrl scene));
    destruct (srcMatches (video2 refs) (videoClipUrl scene));
    destruct (truthy (videoClipUrl scene));
    destruct (2 <=? readyState (video1 refs))%nat;
    destruct (2 <=? readyState (video2 refs))%nat; reflexivity.
Qed.

Lemma renderSceneFrame_clip props isPlaying refs scene time tp isOutgoing :
  sr_clip (fst (renderSceneFrame props isPlaying refs scene time tp isOutgoing))
  = match isOutgoing, transitionType scene with
    | false, PolygonWipe =>
        Some (hexagonPath (width props) (height props)
                          (Qmax (width props) (height props) * tp * 1.5))
    | _, _ => None
    end.
Proof.
  unfold renderSceneFrame.
  destruct isOutgoing, (transitionType scene);
    destruct (srcMatches (video1 refs) (videoClipUrl scene));
    destruct (srcMatches (video2 refs) (videoClipUrl scene));
    destruct (truthy (videoClipUrl scene));
    destruct (2 <=? readyState (video1 refs))%nat;
    destruct (2 <=? readyState (video2 refs))%nat; reflexivity.
Qed.

Lemma renderSceneFrame_who props isPlaying refs scene time tp isOutgoing :
  sr_scene (fst (renderSceneFrame props isPlaying refs scene time tp isOutgoing)) = id scene /\
  sr_outgoing (fst (renderSceneFrame props isPlaying refs scene time tp isOutgoing)) = isOutgoing.
Proof.
  unfold renderSceneFrame.
  destruct isOutgoing, (transitionType scene);
    destruct (srcMatches (video1 refs) (videoClipUrl scene));
    destruct (srcMatches (video2 refs) (videoClipUrl scene));
    destruct (truthy (videoClipUrl scene));
    destruct (2 <=? readyState (video1 refs))%nat;
    destruct (2 <=? readyState (video2 refs))%nat; split; reflexivity.
Qed.

(** ** Which scenes a frame renders *)

Lemma sceneRenders_app (f g : Frame) :
  sceneRenders (f ++ g) = sceneRenders f ++ sceneRenders g.
Proof.
  induction f as [|l f IH]; simpl; [reflexivity|].
  destruct l; simpl; now rewrite IH.
Qed.

Lemma sceneRenders_map (rs : list SceneRender) : sceneRenders (map LScene rs) = rs.
Proof. induction rs as [|r rs IH]; simpl; [reflexivity|now rewrite IH]. Qed.

Lemma sceneRenders_blank (a : option Scene) : sceneRenders (blankPass a) = [].
Proof.
  unfold blankPass. destruct a as [s|]; [|reflexivity].
  destruct (negb (truthy (imageUrl s)) && negb (truthy (videoClipUrl s))); reflexivity.
Qed.

Lemma sceneRenders_embers props det r refs :
  sceneRenders (fst (embersPass props det r refs)) = [].
Proof.
  unfold embersPass. destruct (enableEmbers props); [|reflexivity].
  destruct (updateParticles props det r (particlesRef refs)) as [[drawn|] kept]; reflexivity.
Qed.

Lemma sceneRenders_effects props refs :
  sceneRenders (vaporPass props refs) = [] /\
  sceneRenders (grainPass props refs) = [] /\
  sceneRenders (letterboxPass props) = [].
Proof.
  unfold vaporPass, grainPass, letterboxPass.
  destruct (enableVaporOverlay props && vaporReady refs);
    destruct (Qltb 0 (filmGrainStrength props) && grainCacheRef refs);
    destruct (enableLetterboxing props); repeat split; reflexivity.
Qed.

(** The scene renders of a [draw] tick are those of [renderScenes] for the
    active scene. *)
Lemma draw_sceneRenders props isPlaying r refs t idx active :
  findActive (scenes props) t = Some idx ->
  nth_error (scenes props) idx = Some active ->
  sceneRenders (fst (draw props isPlaying false r refs t))
  = fst (renderScenes props isPlaying (preload refs active) idx active t).
Proof.
  intros Hidx Hact. unfold draw. rewrite Hidx, Hact.
  destruct (renderScenes props isPlaying (preload refs active) idx active t) as [rs refs1].
  pose proof (sceneRenders_embers props false r refs1) as He.
  destruct (embersPass props false r refs1) as [embers refs2]. simpl in He.
  destruct (sceneRenders_effects props refs2) as (Hv & Hg & Hl).
  cbn [fst]. rewrite !sceneRenders_app, sceneRenders_blank, He, Hv, Hg, Hl.
  simpl. rewrite sceneRenders_map. now rewrite app_nil_r.
Qed.

Lemma findIndexFrom_Some {A} (pred : A -> bool) (l : list A) : forall i k,
  findIndexFrom pred l i = Some k ->
  (i <= k)%nat /\ exists a, nth_error l (k - i) = Some a /\ pred a = true.
Proof.
  induction l as [|a l IH]; intros i k H; simpl in H; [discriminate|].
  destruct (pred a) eqn:E.
  - inversion H; subst. split; [lia|]. exists a. rewrite Nat.sub_diag. auto.
  - destruct (IH _ _ H) as (Hle & b & Hb & Hp). split; [lia|].
    exists b. split; [|assumption].
    replace (k - i)%nat with (S (k - S i)) by lia. exact Hb.
Qed.

(** C6.  Inside the transition window of a scene that is not the first,
    when both scenes use the standard fade, [draw] renders exactly two
    scenes: the previous one first (beneath) as outgoing at opacity
    [1 - p], then the active one (above) as incoming at opacity [p],
    with [p = elapsedIntoScene / TRANSITION_DURATION] in [[0, 1)]. *)
Theorem standard_fade_transition props isPlaying r refs t idx prev active :
  findActive (scenes props) t = Some idx ->
  (0 < idx)%nat ->
  nth_error (scenes props) (idx - 1) = Some prev ->
  nth_error (scenes props) idx = Some active ->
  transitionType prev = Standard ->
  transitionType active = Standard ->
  t - startTime active < TRANSITION_DURATION ->
  let p := (t - startTime active) / TRANSITION_DURATION in
  0 <= p /\ p < 1 /\
  exists out inc,
    sceneRenders (fst (draw props isPlaying false r refs t)) = [out; inc]
    /\ sr_scene out = id prev /\ sr_outgoing out = true /\ sr_opacity out == 1 - p
    /\ sr_scene inc = id active /\ sr_outgoing inc = false /\ sr_opacity inc == p.
Proof.
  intros Hidx Hpos Hprev Hact Htp Hta Hwin p.
  assert (Hstart : startTime active <= t).
  { destruct (findIndexFrom_Some _ _ _ _ Hidx) as (_ & a & Ha & Hp).
    rewrite Nat.sub_0_r, Hact in Ha. inversion Ha; subst a.
    unfold activeAt in Hp. apply andb_prop in Hp as [Hp _].
    now apply Qle_bool_iff in Hp. }
  unfold TRANSITION_DURATION in Hwin.
  assert (Hp : p == t - startTime active).
  { unfold p, TRANSITION_DURATION. field. }
  split; [lra|]. split; [lra|].
  rewrite (draw_sceneRenders _ _ _ _ _ _ _ Hidx Hact).
  unfold renderScenes.
  assert (Hc : ((0 <? idx)%nat && Qltb (t - startTime active) TRANSITION_DURATION) = true).
  { apply andb_true_intro. split; [now apply Nat.ltb_lt|].
    apply Qltb_lt. unfold TRANSITION_DURATION. exact Hwin. }
  rewrite Hc, Hprev. fold p.
  set (refs0 := preload refs active).
  pose proof (renderSceneFrame_opacity props isPlaying refs0 prev t p true) as Ho.
  pose proof (renderSceneFrame_who props isPlaying refs0 prev t p true) as [Ho1 Ho2].
  destruct (renderSceneFrame props isPlaying refs0 prev t p true) as [out refs1].
  pose proof (renderSceneFrame_opacity props isPlaying refs1 active t p false) as Hi.
  pose proof (renderSceneFrame_who props isPlaying refs1 active t p false) as [Hi1 Hi2].
  destruct (renderSceneFrame props isPlaying refs1 active t p false) as [inc refs2].
  cbn [fst] in *. rewrite Htp in Ho. rewrite Hta in Hi.
  exists out, inc. rewrite Ho, Hi. repeat split; try assumption; reflexivity.
Qed.

(** The scenario of the specification: scenes [[0,5)] and [[5,10)], both
    standard fade, rendered at [t = 5.4]. *)
Lemma standard_fade_transition_witness :
  let props := plainProps [sceneA; sceneB] in
  findActive (scenes props) 5.4 = Some 1%nat /\
  transitionType sceneA = Standard /\ transitionType sceneB = Standard /\
  5.4 - startTime sceneB < TRANSITION_DURATION /\
  exists out inc,
    sceneRenders (fst (draw props true false noDraws demoRefs 5.4)) = [out; inc]
    /\ sr_scene out = "s1"%string /\ sr_outgoing out = true /\ sr_opacity out == 0.6
    /\ sr_scene inc = "s2"%string /\ sr_outgoing inc = false /\ sr_opacity inc == 0.4
    /\ sr_image out = true /\ sr_image inc = true.
Proof.
  intro props.
  assert (H1 : findActive (scenes props) 5.4 = Some 1%nat) by reflexivity.
  assert (H2 : 5.4 - startTime sceneB < TRANSITION_DURATION) by reflexivity.
  split; [exact H1|]. split; [reflexivity|]. split; [reflexivity|]. split; [exact H2|].
  destruct (standard_fade_transition props true noDraws demoRefs 5.4 1 sceneA sceneB
              H1 (le_n 1) eq_refl eq_refl eq_refl eq_refl H2)
    as (_ & _ & out & inc & Hf & Ho1 & Ho2 & Ho3 & Hi1 & Hi2 & Hi3).
  exists out, inc.
  assert (Himg : sr_image out = true /\ sr_image inc = true).
  { change (sceneRenders (fst (draw props true false noDraws demoRefs 5.4)))
      with [fst (renderSceneFrame props true demoRefs sceneA 5.4 ((5.4 - 5) / 1.0) true);
            fst (renderSceneFrame props true demoRefs sceneB 5.4 ((5.4 - 5) / 1.0) false)]
      in Hf.
    inversion Hf; subst out inc. split; reflexivity. }
  destruct Himg as [Himg1 Himg2].
  repeat split; try assumption.
  - rewrite Ho3. reflexivity.
  - rewrite Hi3. reflexivity.
Defined.

(** C7.  A polygon-wipe scene is drawn at opacity 1 in both roles: as
    outgoing without any clip, as incoming clipped to the hexagon centred
    at [(width / 2, height / 2)] whose six vertices sit at radius
    [max(width, height) * p * 1.5] and angles [i * 60] degrees,
    [i = 0 .. 5]; on the 1280 x 720 canvas at [p = 0.5] that radius is 960. *)
Theorem polygon_wipe_rule props isPlaying refs scene time p :
  transitionType scene = PolygonWipe ->
  let out := fst (renderSceneFrame props isPlaying refs scene time p true) in
  let inc := fst (renderSceneFrame props isPlaying refs scene time p false) in
  let size := Qmax (width props) (height props) * p * 1.5 in
  let vertex := fun i : nat =>
    ({| c_base := width props / 2; c_radius := size; c_trig := Cos i |},
     {| c_base := height props / 2; c_radius := size; c_trig := Sin i |}) in
  sr_opacity out == 1 /\ sr_clip out = None
  /\ sr_opacity inc == 1
  /\ sr_clip inc
     = Some [ MoveTo (fst (vertex 0%nat)) (snd (vertex 0%nat));
              LineTo (fst (vertex 1%nat)) (snd (vertex 1%nat));
              LineTo (fst (vertex 2%nat)) (snd (vertex 2%nat));
              LineTo (fst (vertex 3%nat)) (snd (vertex 3%nat));
              LineTo (fst (vertex 4%nat)) (snd (vertex 4%nat));
              LineTo (fst (vertex 5%nat)) (snd (vertex 5%nat)) ]
  /\ (aspectRatio props = Ratio16x9 -> p == 0.5 -> size == 960).
Proof.
  intros Ht out inc size vertex. unfold out, inc.
  rewrite !renderSceneFrame_opacity, !renderSceneFrame_clip, Ht.
  repeat split; try reflexivity.
  intros Ha Hp. unfold size, width, height. rewrite Ha. cbn [getDimensions fst snd].
  rewrite Hp. reflexivity.
Qed.

Lemma polygon_wipe_rule_witness :
  let props := plainProps [sceneClip] in
  transitionType sceneClip = PolygonWipe /\
  sr_opacity (fst (renderSceneFrame props true demoRefs sceneClip 0.5 0.5 true)) == 1 /\
  sr_opacity (fst (renderSceneFrame props true demoRefs sceneClip 0.5 0.5 false)) == 1 /\
  Qmax (width props) (height props) * 0.5 * 1.5 == 960.
Proof.
  intro props.
  pose proof (polygon_wipe_rule props true demoRefs sceneClip 0.5 0.5 eq_refl)
    as (H1 & _ & H3 & _ & H5).
  split; [reflexivity|]. split; [exact H1|]. split; [exact H3|].
  apply H5; reflexivity.
Defined.

(* ================================================================== *)
(** * The ember layer *)
(* ================================================================== *)

Lemma spawnParticle_length props det r ps :
  (length ps <= 50)%nat -> (length (spawnParticle props det r ps) <= 50)%nat.
Proof.
  intro H. unfold spawnParticle.
  destruct (Nat.ltb_spec (length ps) 50); simpl; [|assumption].
  destruct (det || Qltb 0.6 (r_spawn r)); [|assumption].
  rewrite length_app. simpl. lia.
Qed.

Lemma sweepParticles_kept (ps : list Particle) :
  snd (sweepParticles ps) = filter (fun p => negb (expired p)) (map moveParticle ps).
Proof.
  induction ps as [|p ps IH]; simpl; [reflexivity|].
  destruct (sweepParticles ps) as [drawn kept]. simpl in *.
  destruct (expired (moveParticle p)); simpl; now rewrite IH.
Qed.

Lemma sweepParticles_length (ps : list Particle) :
  (length (snd (sweepParticles ps)) <= length ps)%nat.
Proof.
  rewrite sweepParticles_kept.
  etransitivity; [apply filter_length_le|]. now rewrite length_map.
Qed.

Lemma updateParticles_length props det r ps :
  (length ps <= 50)%nat ->
  (length (snd (updateParticles props det r ps)) <= 50)%nat.
Proof.
  intro H. unfold updateParticles.
  destruct (enableEmbers props); simpl; [|lia].
  pose proof (sweepParticles_length (spawnParticle props det r ps)) as Hs.
  pose proof (spawnParticle_length props det r ps H) as Hp.
  destruct (sweepParticles (spawnParticle props det r ps)) as [drawn kept].
  simpl in *. lia.
Qed.

Lemma populations_capped props (ticks : list (bool * EmberDraws)) : forall ps,
  (length ps <= 50)%nat -> Forall (fun n => (n <= 50)%nat) (populations props ticks ps).
Proof.
  induction ticks as [|[det r] ticks IH]; intros ps H; simpl; [constructor|].
  constructor; [|constructor].
  - destruct (enableEmbers props); [now apply spawnParticle_length|simpl; lia].
  - now apply updateParticles_length.
  - apply IH. now apply updateParticles_length.
Qed.

(** C8.  Starting from the empty particle list, over any run of ticks in
    either mode the ember population is at most 50, both right after the
    spawn and when [updateParticles] returns.  A particle is pushed only
    when fewer than 50 are alive, then always in deterministic mode and
    otherwise when the random draw exceeds 0.6; after moving, the
    particles whose life is at most zero or whose [y] is below [-20] are
    removed.  In particular 200 deterministic ticks stay within 50. *)
Theorem ember_population_cap props :
  (forall ticks, Forall (fun n => (n <= 50)%nat) (populations props ticks []))
  /\ (forall det r ps,
        spawnParticle props det r ps = ps ++ [newParticle props r]
        \/ spawnParticle props det r ps = ps)
  /\ (forall det r ps,
        spawnParticle props det r ps = ps ++ [newParticle props r] ->
        (length ps < 50)%nat /\ (det = true \/ 0.6 < r_spawn r))
  /\ (forall r ps,
        (length ps < 50)%nat ->
        spawnParticle props true r ps = ps ++ [newParticle props r])
  /\ (forall ps,
        snd (sweepParticles ps)
        = filter (fun p => negb ((p_life p <=? 0)%Z || Qltb (p_y p) (-20)))
                 (map moveParticle ps))
  /\ (forall rs : list EmberDraws,
        length rs = 200%nat ->
        Forall (fun n => (n <= 50)%nat)
               (populations props (map (fun r => (true, r)) rs) [])).
Proof.
  split; [|split; [|split; [|split; [|split]]]].
  - intro ticks. apply populations_capped. simpl. lia.
  - intros det r ps. unfold spawnParticle.
    destruct ((length ps <? 50)%nat && (det || Qltb 0.6 (r_spawn r))); auto.
  - intros det r ps H. unfold spawnParticle in H.
    destruct (Nat.ltb_spec (length ps) 50) as [Hl|Hl]; simpl in H.
    + split; [assumption|].
      destruct det; [now left|right]. simpl in H.
      destruct (Qltb 0.6 (r_spawn r)) eqn:E; [now apply Qltb_lt|].
      exfalso. apply (f_equal (@length Particle)) in H.
      rewrite length_app in H. simpl in H. lia.
    + exfalso. apply (f_equal (@length Particle)) in H.
      rewrite length_app in H. simpl in H. lia.
  - intros r ps H. unfold spawnParticle.
    apply Nat.ltb_lt in H. now rewrite H.
  - intro ps. apply sweepParticles_kept.
  - intros rs _. apply populations_capped. simpl. lia.
Qed.

(** Sixty deterministic ticks: the population climbs to the cap and
    stays there. *)
Example embers_reach_cap :
  let sizes := populations emberProps (repeat (true, noDraws) 60) [] in
  length sizes = 120%nat /\ fold_right Nat.max 0%nat sizes = 50%nat.
Proof. vm_compute. split; reflexivity. Qed.

(* ================================================================== *)
(** * The two render loops *)
(* ================================================================== *)

(** [exportLoop] composes no overlay pass and no letterbox pass, whatever
    the props say. *)
Lemma exportFrame_kinds props isPlaying r refs t :
  Forall (fun l => layerKind l <> KVapor /\ layerKind l <> KLetterbox)
         (fst (exportFrame props isPlaying r refs t)).
Proof.
  set (P := fun l => layerKind l <> KVapor /\ layerKind l <> KLetterbox).
  assert (P1 : forall l, (layerKind l = KBlack \/ layerKind l = KScene \/
                          layerKind l = KEmbers \/ layerKind l = KGrain) -> P l).
  { intros l [H|[H|[H|H]]]; unfold P; rewrite H; split; discriminate. }
  unfold exportFrame.
  set (s := match findActive (scenes props) t with
            | Some i => nth_error (scenes props) i
            | None => None
            end).
  assert (Hb : Forall P (blankPass s)).
  { unfold blankPass. destruct s as [sc|].
    - destruct (negb (truthy (imageUrl sc)) && negb (truthy (videoClipUrl sc)));
        [constructor; [apply P1; simpl; auto|constructor]|constructor].
    - constructor; [apply P1; simpl; auto|constructor]. }
  assert (Hm : forall rs, Forall P (map LScene rs)).
  { induction rs; simpl; constructor; auto; apply P1; simpl; auto. }
  assert (He : forall refs1, Forall P (fst (embersPass props true r refs1))).
  { intro refs1. unfold embersPass. destruct (enableEmbers props); [|constructor].
    destruct (updateParticles props true r (particlesRef refs1)) as [[drawn|] kept];
      simpl; [constructor; [apply P1; simpl; auto|constructor]|constructor]. }
  assert (Hg : forall refs1, Forall P (grainPass props refs1)).
  { intro refs1. unfold grainPass.
    destruct (Qltb 0 (filmGrainStrength props) && grainCacheRef refs1);
      [constructor; [apply P1; simpl; auto|constructor]|constructor]. }
  destruct (findActive (scenes props) t) as [i|]; [destruct s as [sc|]|].
  - destruct (renderScenes props isPlaying (preload refs sc) i sc t) as [rs refs1].
    specialize (He refs1).
    destruct (embersPass props true r refs1) as [embers refs2].
    cbn [fst] in *. repeat (apply Forall_app; split); auto.
  - specialize (He refs).
    destruct (embersPass props true r refs) as [embers refs2].
    cbn [fst] in *. repeat (apply Forall_app; split); auto.
  - specialize (He refs).
    destruct (embersPass props true r refs) as [embers refs2].
    cbn [fst] in *. repeat (apply Forall_app; split); auto.
Qed.

(** [draw] ends with the letterbox pass whenever the bars are enabled. *)
Lemma draw_letterbox_last props isPlaying r refs t :
  enableLetterboxing props = true ->
  exists f, fst (draw props isPlaying false r refs t)
            = f ++ [LLetterbox (height props * 0.1)].
Proof.
  intro H. unfold draw, letterboxPass. rewrite H.
  destruct (findActive (scenes props) t) as [i|];
    [destruct (nth_error (scenes props) i) as [sc|]|].
  - destruct (renderScenes props isPlaying (preload refs sc) i sc t) as [rs refs1].
    destruct (embersPass props false r refs1) as [embers refs2]. cbn [fst].
    eexists. rewrite !app_assoc. reflexivity.
  - destruct (embersPass props false r refs) as [embers refs2]. cbn [fst].
    eexists. rewrite !app_assoc. reflexivity.
  - destruct (embersPass props false r refs) as [embers refs2]. cbn [fst].
    eexists. rewrite !app_assoc. reflexivity.
Qed.

(** C2 at a failing input: one scene with its image loaded, the ambient
    overlay and the letterbox bars enabled, clock at 1 s.  [draw] composes
    the black clear, the scene, the overlay and the bars; [exportLoop]
    composes the same scene render and nothing else. *)
Theorem draw_and_export_differ :
  let props := cinemaProps [sceneA] in
  let shown := fst (draw props true false noDraws demoRefs 1) in
  let exported := fst (exportFrame props true noDraws demoRefs 1) in
  map layerKind shown = [KBlack; KScene; KVapor; KLetterbox]
  /\ map layerKind exported = [KScene]
  /\ sceneRenders shown = sceneRenders exported
  /\ shown <> exported.
Proof.
  intros props shown exported.
  split; [reflexivity|]. split; [reflexivity|]. split; [reflexivity|].
  intro H. apply (f_equal (map layerKind)) in H. discriminate H.
Qed.

(* ================================================================== *)
(** * Cancelling an export *)
(* ================================================================== *)

(** With the liveness flag cleared, a call of [exportLoop] draws nothing,
    reschedules nothing and touches neither the refs nor any other field
    of the run. *)
Lemma exportLoop_cancelled props isPlaying totalT hasCanvas currentT r st refs :
  isExportingRef st = false ->
  exportLoop props isPlaying totalT hasCanvas currentT r st refs
  = ([], {| isExportingRef := isExportingRef st; isExporting := isExporting st;
            audioCtx := audioCtx st; recorder := recorder st;
            stopQueued := stopQueued st; loopScheduled := false;
            downloads := downloads st; status := status st;
            laterExport := laterExport st |}, refs).
Proof.
  intro H. unfold exportLoop. rewrite H. reflexivity.
Qed.

Lemma exportLoop_inv props isPlaying totalT hasCanvas currentT r st refs :
  loopScheduled st = true ->
  export_inv st ->
  export_inv (snd (fst (exportLoop props isPlaying totalT hasCanvas currentT r st refs))).
Proof.
  intros Hloop Hinv. destruct (Hinv Hloop) as [Hq Hd]. unfold exportLoop.
  destruct (isExportingRef st) eqn:Hflag; simpl; [|intro; discriminate].
  destruct hasCanvas; simpl; [|intro; discriminate].
  destruct (exportFrame props isPlaying r refs currentT) as [frame refs'].
  destruct (Qltb currentT totalT); simpl.
  - intros _. split; simpl; rewrite ?Hflag; assumption.
  - destruct (recorder st) eqn:Hrec; simpl; intro; discriminate.
Qed.

Lemma export_step_inv props isPlaying totalT s s' :
  export_step props isPlaying totalT s s' -> export_inv (fst s) -> export_inv (fst s').
Proof.
  intros Hstep Hinv.
  destruct Hstep as [st refs hasCanvas currentT r Hl
                    |st refs Hrec|st refs Hq|st refs Hflag|st refs crashed Hlater];
    simpl in *.
  - now apply exportLoop_inv.
  - intro Hloop. simpl in Hloop. destruct (Hinv Hloop) as [_ Hd].
    split; simpl; [reflexivity|].
    destruct Hd as [Hd|[Hd Hd']]; [now left|congruence].
  - intro Hloop. simpl in Hloop. destruct (Hinv Hloop) as [Hq' _].
    split; simpl; [discriminate|].
    right. split; [reflexivity|now apply Hq'].
  - intro Hloop. simpl in Hloop. destruct (Hinv Hloop) as [Hq' Hd].
    split; simpl; [assumption|].
    destruct Hd as [[Hd _]|Hd]; [congruence|now right].
  - intro Hloop. simpl in Hloop. destruct (Hinv Hloop) as [Hq' Hd].
    split; simpl; [assumption|].
    destruct Hd as [[_ Hd]|Hd]; [congruence|now right].
Qed.

Lemma export_reachable_inv props isPlaying totalT refs0 s :
  export_reachable props isPlaying totalT refs0 s -> export_inv (fst s).
Proof.
  induction 1 as [|rec|s s' _ IH Hstep].
  - intros _. split; simpl; [discriminate|left; split; reflexivity].
  - intro H. discriminate H.
  - exact (export_step_inv _ _ _ _ _ Hstep IH).
Qed.

(** C9.  In any state an export run can reach, if a call of [exportLoop]
    is pending and the liveness flag is clear, that call returns at once:
    it draws nothing, leaves the refs and the reported status as they
    were (no failure is signalled), schedules no further call; and the
    run's audio context is closed and its recorder inactive. *)
Theorem export_cancel_releases props isPlaying totalT refs0 st refs
        hasCanvas currentT r :
  export_reachable props isPlaying totalT refs0 (st, refs) ->
  loopScheduled st = true ->
  isExportingRef st = false ->
  let result := exportLoop props isPlaying totalT hasCanvas currentT r st refs in
  let st' := snd (fst result) in
  fst (fst result) = []
  /\ snd result = refs
  /\ loopScheduled st' = false
  /\ status st' = status st
  /\ isExportingRef st' = false
  /\ audioCtx st' = CtxClosed
  /\ recorder st' = RecInactive.
Proof.
  intros Hreach Hloop Hflag result st'.
  apply export_reachable_inv in Hreach. destruct (Hreach Hloop) as [_ Hd]. simpl in Hd.
  destruct Hd as [[Hd _]|[Hctx Hrec]]; [congruence|].
  unfold st', result. rewrite (exportLoop_cancelled _ _ _ _ _ _ _ _ Hflag). simpl.
  repeat split; assumption.
Qed.

(** A run whose recording the browser ended while a frame was pending. *)
Lemma export_cancel_releases_witness :
  let props := cinemaProps [sceneA] in
  let stopped :=
    {| isExportingRef := true; isExporting := true;
       audioCtx := CtxRunning; recorder := RecInactive;
       stopQueued := true; loopScheduled := true;
       downloads := 0; status := StatusWarming; laterExport := false |} in
  let st := onstop stopped in
  export_reachable props true 10 demoRefs (st, demoRefs) /\
  loopScheduled st = true /\ isExportingRef st = false /\
  audioCtx (snd (fst (exportLoop props true 10 true 1 noDraws st demoRefs))) = CtxClosed /\
  recorder (snd (fst (exportLoop props true 10 true 1 noDraws st demoRefs))) = RecInactive.
Proof.
  intros props stopped st.
  assert (Hr : export_reachable props true 10 demoRefs (st, demoRefs)).
  { eapply reach_step; [eapply reach_step; [apply reach_start|]|].
    - apply (step_recorder_ends props true 10 exportStarted demoRefs). reflexivity.
    - apply (step_onstop props true 10 stopped demoRefs). reflexivity. }
  split; [exact Hr|]. split; [reflexivity|]. split; [reflexivity|].
  pose proof (export_cancel_releases props true 10 demoRefs st demoRefs true 1 noDraws
                Hr eq_refl eq_refl) as H.
  split; apply H.
Defined.

(* ================================================================== *)
(** * Further properties of the trimmer *)
(* ================================================================== *)

(** ** Quantisation *)

Lemma Qtrunc_nonneg (q : Q) : 0 <= q -> Qtrunc q = Qfloor q.
Proof.
  destruct q as [n d]. unfold Qle, Qtrunc, Qfloor. simpl. intro H.
  apply Z.quot_div_nonneg; lia.
Qed.

Lemma Qtrunc_nonpos (q : Q) : q <= 0 -> Qtrunc q = Qceiling q.
Proof.
  destruct q as [n d]. unfold Qle, Qtrunc, Qceiling, Qfloor. simpl. intro H.
  replace n with (- - n)%Z at 1 by lia.
  rewrite Z.quot_opp_l by discriminate. f_equal.
  apply Z.quot_div_nonneg; lia.
Qed.

Lemma Qtrunc_le (p q : Q) : p <= q -> (Qtrunc p <= Qtrunc q)%Z.
Proof.
  intro H.
  destruct (Qlt_le_dec p 0) as [Hp|Hp]; destruct (Qlt_le_dec q 0) as [Hq|Hq].
  - rewrite !Qtrunc_nonpos by lra. now apply Qceiling_resp_le.
  - rewrite (Qtrunc_nonpos p), (Qtrunc_nonneg q) by lra.
    assert (Qceiling p <= 0)%Z.
    { change 0%Z with (Qceiling 0). apply Qceiling_resp_le. lra. }
    assert (0 <= Qfloor q)%Z.
    { change 0%Z with (Qfloor 0). now apply Qfloor_resp_le. }
    lia.
  - lra.
  - rewrite !Qtrunc_nonneg by lra. now apply Qfloor_resp_le.
Qed.

Lemma Qtrunc_inject (z : Z) : Qtrunc (inject_Z z) = z.
Proof. unfold Qtrunc. simpl. apply Z.quot_1_r. Qed.

Lemma Qtrunc_comp (p q : Q) : p == q -> Qtrunc p = Qtrunc q.
Proof.
  intro H. apply Z.le_antisymm; apply Qtrunc_le; rewrite H; apply Qle_refl.
Qed.

Lemma Qtrunc_bounds (q : Q) (N : Z) :
  - inject_Z N <= q -> q <= inject_Z N -> (- N <= Qtrunc q <= N)%Z.
Proof.
  intros Hlo Hhi. rewrite <- inject_Z_opp in Hlo.
  apply Qtrunc_le in Hlo. apply Qtrunc_le in Hhi.
  rewrite Qtrunc_inject in *. lia.
Qed.

Lemma toInt16_small (q : Q) :
  - inject_Z 32767 <= q -> q <= inject_Z 32767 -> toInt16 q = Qtrunc q.
Proof.
  intros Hlo Hhi. pose proof (Qtrunc_bounds q 32767 Hlo Hhi) as H.
  unfold toInt16. rewrite Z.mod_small by lia. lia.
Qed.

(** X1.  Every stored sample lies in [[-32767, 32767]]: the clamp keeps the
    16-bit store from wrapping (and [-32768] is never produced); samples
    at or beyond full scale are stored as [32767] and [-32767], silence
    and an undefined sample as [0]; and a larger sample is never stored
    as a smaller number. *)
Theorem quantize_range :
  (forall v, (-32767 <= quantize v <= 32767)%Z)
  /\ (forall x, 1 <= x -> quantize (Some x) = 32767%Z)
  /\ (forall x, x <= -1 -> quantize (Some x) = (-32767)%Z)
  /\ (forall x, x == 0 -> quantize (Some x) = 0%Z)
  /\ quantize None = 0%Z
  /\ (forall x y, x <= y -> (quantize (Some x) <= quantize (Some y))%Z).
Proof.
  assert (Hc : forall x, - inject_Z 32767 <= Qmax (-1) (Qmin 1 x) * 32767
                         /\ Qmax (-1) (Qmin 1 x) * 32767 <= inject_Z 32767).
  { intro x. change (inject_Z 32767) with 32767. split; split_minmax; lra. }
  assert (Hq : forall x, quantize (Some x) = Qtrunc (Qmax (-1) (Qmin 1 x) * 32767)).
  { intro x. simpl. apply toInt16_small; apply Hc. }
  split; [|split; [|split; [|split; [|split]]]].
  - intros [x|]; [|simpl; lia].
    rewrite Hq. apply (Qtrunc_bounds _ 32767); apply Hc.
  - intros x Hx. rewrite Hq.
    rewrite (Qtrunc_comp _ (inject_Z 32767)); [apply Qtrunc_inject|].
    change (inject_Z 32767) with 32767. split_minmax; lra.
  - intros x Hx. rewrite Hq.
    rewrite (Qtrunc_comp _ (inject_Z (-32767))); [apply Qtrunc_inject|].
    change (inject_Z (-32767)) with (-32767). split_minmax; lra.
  - intros x Hx. rewrite Hq.
    rewrite (Qtrunc_comp _ (inject_Z 0)); [apply Qtrunc_inject|].
    change (inject_Z 0) with 0. split_minmax; lra.
  - reflexivity.
  - intros x y Hxy. rewrite !Hq. apply Qtrunc_le. split_minmax; lra.
Qed.

(** ** Narration without long pauses *)

Lemma scanPrefix_quiet_head (channelData : list Q) (sampleRate : Z) (i0 : nat) :
  (forall j y, (j < i0)%nat -> nth_error channelData j = Some y -> loud y = false) ->
  scanPrefix channelData sampleRate i0 = scan_init.
Proof.
  intro H. unfold scanPrefix. apply scan_loop_quiet_idle; [|reflexivity].
  apply Forall_forall. intros y Hy.
  apply In_nth_error in Hy. destruct Hy as (j & Hj).
  assert (Hlt : (j < i0)%nat).
  { apply nth_error_length in Hj. rewrite length_firstn in Hj. lia. }
  rewrite nth_error_firstn in Hj.
  destruct (Nat.ltb_spec j i0); [|lia]. eauto.
Qed.

Lemma scanPrefix_dense (channelData : list Q) (sampleRate : Z) (i0 : nat) (x0 : Q) :
  nth_error channelData i0 = Some x0 -> loud x0 = true ->
  (forall j y, (j < i0)%nat -> nth_error channelData j = Some y -> loud y = false) ->
  (forall i, (i0 < i < length channelData)%nat ->
     exists j y, (i0 <= j <= i)%nat /\ nth_error channelData j = Some y /\
                 loud y = true /\ Qi i - Qi j <= minSilenceSamplesOf sampleRate) ->
  forall k, (i0 < k <= length channelData)%nat ->
    let st := scanPrefix channelData sampleRate k in
    isSilent st = false
    /\ currentSegmentStart st = Qmax 0 (Qi i0 - paddingSamplesOf sampleRate)
    /\ keepSegments st = []
    /\ (i0 <= silenceStart st < k)%nat
    /\ (forall j y, (silenceStart st < j < k)%nat ->
                    nth_error channelData j = Some y -> loud y = false).
Proof.
  intros H0 Hx0 Hhead Hdense k. induction k as [|k IH]; [lia|].
  intros [Hk1 Hk2].
  destruct (Nat.eq_dec k i0) as [E|E].
  - subst k. cbv zeta. rewrite (scanPrefix_S _ _ _ _ H0).
    rewrite (scanPrefix_quiet_head _ _ _ Hhead).
    unfold scan_step. rewrite Hx0. simpl.
    repeat split; try lia; intros; lia.
  - destruct IH as (Hs & Hc & Hseg & HL & Hq); [lia|].
    destruct (nth_error channelData k) as [y|] eqn:Ek;
      [|apply nth_error_None in Ek; lia].
    cbv zeta. rewrite (scanPrefix_S _ _ _ _ Ek).
    set (st := scanPrefix channelData sampleRate k) in *.
    unfold scan_step. destruct (loud y) eqn:Hy; simpl.
    + rewrite Hc. rewrite Qeq_bool_minus1_nonneg by apply Q.le_max_l.
      repeat split; try assumption; try lia; intros; lia.
    + rewrite Hs. simpl.
      assert (Hno : Qltb (minSilenceSamplesOf sampleRate) (Qi k - Qi (silenceStart st)) = false).
      { apply Qltb_ge.
        destruct (Hdense k) as (j & z & Hj & Hjz & Hzl & Hd); [lia|].
        assert (Hjl : (j <= silenceStart st)%nat).
        { destruct (Nat.le_gt_cases j (silenceStart st)) as [|Hgt]; [assumption|].
          destruct (Nat.eq_dec j k) as [Ejk|Ejk]; [subst j; congruence|].
          assert (loud z = false) by (apply (Hq j z); [lia|assumption]). congruence. }
        pose proof (Qi_le _ _ Hjl). lra. }
      rewrite Hno. repeat split; try assumption; try lia.
      intros j z Hj Hjz.
      destruct (Nat.eq_dec j k) as [Ejk|Ejk]; [subst j; congruence|].
      apply (Hq j z); [lia|assumption].
Qed.

(** X2.  A recording whose sound, once it has begun, never pauses for more
    than [minSilenceSamples] comes back as one segment that runs from
    [paddingSamples] before the first loud sample (or from 0) to the end:
    only leading silence beyond the padding is dropped, and nothing at all
    when the sound begins within the first [paddingSamples]. *)
Theorem trim_keeps_dense_audio (channelData : list Q) (sampleRate : Z) (i0 : nat) (x0 : Q) :
  (0 < sampleRate)%Z ->
  nth_error channelData i0 = Some x0 -> loud x0 = true ->
  (forall j y, (j < i0)%nat -> nth_error channelData j = Some y -> loud y = false) ->
  (forall i, (i0 < i < length channelData)%nat ->
     exists j y, (i0 <= j <= i)%nat /\ nth_error channelData j = Some y /\
                 loud y = true /\ Qi i - Qi j <= minSilenceSamplesOf sampleRate) ->
  computeKeepSegments channelData sampleRate
  = [ {| seg_start := Qmax 0 (Qi i0 - paddingSamplesOf sampleRate);
         seg_end := Qi (length channelData) |} ]
  /\ (Qi i0 <= paddingSamplesOf sampleRate ->
      totalSamples (computeKeepSegments channelData sampleRate)
      == Qi (length channelData)).
Proof.
  intros Hrate H0 Hx0 Hhead Hdense.
  pose proof (nth_error_length _ _ _ H0) as Hlen.
  destruct (scanPrefix_dense channelData sampleRate i0 x0 H0 Hx0 Hhead Hdense
              (length channelData)) as (Hs & Hc & Hseg & _); [lia|].
  assert (E : computeKeepSegments channelData sampleRate
              = [ {| seg_start := Qmax 0 (Qi i0 - paddingSamplesOf sampleRate);
                     seg_end := Qi (length channelData) |} ]).
  { unfold computeKeepSegments, scan_finish.
    unfold scanPrefix in Hs, Hc, Hseg. rewrite firstn_all in Hs, Hc, Hseg.
    rewrite Hc, Hseg. rewrite Qeq_bool_minus1_nonneg by apply Q.le_max_l.
    reflexivity. }
  split; [exact E|].
  intro Hpad. rewrite E. unfold totalSamples. simpl.
  assert (Hm : Qmax 0 (Qi i0 - paddingSamplesOf sampleRate) == 0)
    by (apply Q.max_l; lra).
  rewrite Hm. lra.
Qed.

Lemma trim_keeps_dense_audio_witness :
  let channelData := [0; 0.5; 0; 0; 0.5; 0] in
  (0 < 10)%Z /\ nth_error channelData 1 = Some 0.5 /\ loud 0.5 = true /\
  computeKeepSegments channelData 10
  = [ {| seg_start := Qmax 0 (Qi 1 - paddingSamplesOf 10);
         seg_end := Qi (length channelData) |} ].
Proof.
  intro channelData.
  split; [reflexivity|]. split; [reflexivity|]. split; [reflexivity|].
  apply (trim_keeps_dense_audio channelData 10 1 0.5 eq_refl eq_refl eq_refl).
  - intros j y Hj Hy. assert (j = 0%nat) by lia. subst j.
    inversion Hy; subst y. reflexivity.
  - intros i Hi. simpl in Hi.
    assert (Hc : (i = 2 \/ i = 3 \/ i = 4 \/ i = 5)%nat) by lia.
    destruct Hc as [E|[E|[E|E]]]; subst i.
    + exists 1%nat, 0.5. repeat split; try lia; reflexivity || (unfold Qle; simpl; lia).
    + exists 1%nat, 0.5. repeat split; try lia; reflexivity || (unfold Qle; simpl; lia).
    + exists 4%nat, 0.5. repeat split; try lia; reflexivity || (unfold Qle; simpl; lia).
    + exists 4%nat, 0.5. repeat split; try lia; reflexivity || (unfold Qle; simpl; lia).
Defined.

(** ** What the output holds *)

Lemma nth_error_block {A} (l : list A) (a n : nat) :
  (a + n <= length l)%nat ->
  map (fun k => nth_error l (a + k)) (seq 0 n) = map Some (firstn n (skipn a l)).
Proof.
  revert a l. induction n as [|n IH]; intros a l H; [reflexivity|].
  cbn [seq map]. rewrite <- seq_shift, map_map.
  destruct (skipn a l) as [|x rest] eqn:E.
  - apply (f_equal (@length A)) in E. rewrite length_skipn in E. simpl in E. lia.
  - simpl. f_equal.
    + rewrite Nat.add_0_r. rewrite <- (firstn_skipn a l) at 1.
      rewrite nth_error_app2 by (rewrite length_firstn; lia).
      rewrite length_firstn, Nat.min_l, Nat.sub_diag, E by lia. reflexivity.
    + assert (Er : rest = skipn (S a) l).
      { replace (S a) with (1 + a)%nat by lia.
        rewrite <- skipn_skipn, E. reflexivity. }
      rewrite Er, <- (IH (S a) l) by lia.
      apply map_ext. intro k. f_equal. lia.
Qed.

Section WholeSegments.

Variable channelData : list Q.

(** A segment with whole bounds [a < b <= length]. *)
Let whole (s : Segment) : Prop :=
  exists a b : nat, seg_start s == Qi a /\ seg_end s == Qi b /\
                    (a < b <= length channelData)%nat.

Lemma whole_segSamples (s : Segment) (a b : nat) :
  seg_start s == Qi a -> seg_end s == Qi b ->
  segSamples channelData s = firstn (b - a) (skipn a channelData).
Proof.
  intros Ha Hb. unfold segSamples.
  rewrite (Qfloor_comp _ _ Ha), (Qfloor_comp _ _ Hb).
  unfold Qi. rewrite !Qfloor_Z, !Nat2Z.id. reflexivity.
Qed.

Lemma whole_stores (s : Segment) :
  whole s ->
  map (fun j => quantize (readSample channelData j)) (segPositions s)
  = map (fun x => quantize (Some x)) (segSamples channelData s)
  /\ seg_end s - seg_start s == Qi (length (segSamples channelData s)).
Proof.
  intros (a & b & Ha & Hb & Hab).
  rewrite (whole_segSamples s a b Ha Hb).
  assert (Hd : seg_end s - seg_start s == Qi (b - a)).
  { rewrite Ha, Hb, Qi_sub by lia. reflexivity. }
  split.
  - unfold segPositions.
    rewrite (Qceiling_comp _ _ Hd).
    change (Qceiling (Qi (b - a))) with (Qceiling (inject_Z (Z.of_nat (b - a)))).
    rewrite Qceiling_Z, Nat2Z.id.
    rewrite map_map.
    transitivity (map quantize (map (fun k => nth_error channelData (a + k))
                                    (seq 0 (b - a)))).
    + rewrite map_map. apply map_ext. intro k. f_equal.
      apply readSample_index. rewrite Ha, Qi_add. reflexivity.
    + rewrite nth_error_block by lia. now rewrite map_map.
  - rewrite Hd, length_firstn, length_skipn, Nat.min_l by lia. reflexivity.
Qed.

Lemma whole_buildPcm (segs : list Segment) :
  Forall whole segs ->
  buildPcm channelData segs
  = Some (flat_map (fun s => map (fun x => quantize (Some x)) (segSamples channelData s))
                   segs).
Proof.
  intro H.
  set (out := flat_map (fun s => map (fun x => quantize (Some x))
                                     (segSamples channelData s)) segs).
  assert (Hst : flat_map (fun seg => map (fun j => quantize (readSample channelData j))
                                         (segPositions seg)) segs = out
                /\ sumLen segs == Qi (length out)).
  { unfold out. induction H as [|s segs Hs _ IH]; simpl; [split; reflexivity|].
    destruct IH as [IH1 IH2]. destruct (whole_stores s Hs) as [H1 H2].
    rewrite H1, IH1. split; [reflexivity|].
    rewrite length_app, length_map, Qi_add, H2, IH2. reflexivity. }
  destruct Hst as [Hst Hsum].
  unfold buildPcm. rewrite Hst.
  assert (Htot : totalSamples segs == Qi (length out))
    by (rewrite totalSamples_sumLen; exact Hsum).
  assert (E : Qltb (totalSamples segs) 0 = false).
  { apply Qltb_ge. rewrite Htot. apply Qi_nonneg. }
  rewrite E, (Qfloor_comp _ _ Htot).
  change (Qfloor (Qi (length out))) with (Qfloor (inject_Z (Z.of_nat (length out)))).
  rewrite Qfloor_Z, Nat2Z.id.
  rewrite firstn_app, firstn_all, Nat.sub_diag. simpl. now rewrite app_nil_r.
Qed.

End WholeSegments.

(** X3.  At a sample rate that is a positive multiple of ten, the PCM the
    trimmer builds is, segment after segment, the block of input samples
    between the segment's bounds, each clamped to [[-1, 1]], scaled by
    32767 and truncated: nothing is reordered, repeated or invented. *)
Theorem trim_output_samples (channelData : list Q) (sampleRate : Z) :
  (0 < sampleRate)%Z -> (10 | sampleRate)%Z ->
  let segs := computeKeepSegments channelData sampleRate in
  buildPcm channelData segs
  = Some (flat_map (fun s => map (fun x => quantize (Some x)) (segSamples channelData s))
                   segs)
  /\ Forall (fun s =>
       exists a b : nat,
         seg_start s == Qi a /\ seg_end s == Qi b /\ (a < b <= length channelData)%nat /\
         channelData = firstn a channelData ++ segSamples channelData s
                       ++ skipn b channelData) segs.
Proof.
  intros Hpos Hdiv segs.
  pose proof (keepSegments_integral channelData sampleRate Hpos Hdiv) as Hint.
  destruct (computeKeepSegments_inv channelData sampleRate Hpos) as [Hwf _].
  fold segs in Hint, Hwf.
  assert (Hwhole : Forall (fun s => exists a b : nat,
                     seg_start s == Qi a /\ seg_end s == Qi b /\
                     (a < b <= length channelData)%nat) segs).
  { rewrite Forall_forall in *. intros s Hs.
    destruct (Hint s Hs) as (a & b & Ha & Hb).
    destruct (Hwf s Hs) as (_ & Hlt & Hle).
    exists a, b. split; [assumption|]. split; [assumption|].
    rewrite Ha, Hb in Hlt. rewrite Hb in Hle.
    apply Qi_lt_inv in Hlt.
    assert (~ (length channelData < b)%nat).
    { intro Hc. apply Qi_lt in Hc. lra. }
    lia. }
  split; [now apply whole_buildPcm|].
  eapply Forall_impl; [|exact Hwhole]. intros s (a & b & Ha & Hb & Hab).
  exists a, b. repeat split; try assumption; try lia.
  rewrite (whole_segSamples channelData s a b Ha Hb).
  rewrite <- (firstn_skipn a channelData) at 1. f_equal.
  rewrite <- (firstn_skipn (b - a) (skipn a channelData)) at 1. f_equal.
  rewrite skipn_skipn. f_equal. lia.
Qed.

Lemma trim_output_samples_witness :
  let channelData := [0.5; 0; 0; 0; 0; 0; 0; -1] in
  (0 < 10)%Z /\ (10 | 10)%Z /\
  buildPcm channelData (computeKeepSegments channelData 10)
  = Some (flat_map (fun s => map (fun x => quantize (Some x)) (segSamples channelData s))
                   (computeKeepSegments channelData 10)).
Proof.
  intro channelData.
  assert (H1 : (0 < 10)%Z) by reflexivity.
  assert (H2 : (10 | 10)%Z) by (exists 1%Z; reflexivity).
  split; [exact H1|]. split; [exact H2|].
  apply (trim_output_samples channelData 10 H1 H2).
Defined.

(** ** The trimmer end to end *)

(** X4.  Whenever the decoder yields a buffer at a positive sample rate that
    fits the header, with fewer than [2^31 - 18] samples, the trimmer
    resolves: to the original blob when nothing is loud, and otherwise to
    an "audio/wav" blob whose header re-parses as mono, 16-bit, at the
    buffer's sample rate, with a data chunk that is exactly the bytes
    after the header and holds no more samples than the input had. *)
Theorem trim_resolves_to_wav
    (decodeAudioData : Blob -> option AudioBuffer) (blob : Blob) (audioBuffer : AudioBuffer) :
  decodeAudioData blob = Some audioBuffer ->
  let channelData := getChannelData audioBuffer in
  let sampleRate := buffer_sampleRate audioBuffer in
  (0 < sampleRate < 4294967296)%Z ->
  (36 + 2 * Z.of_nat (length channelData) < 4294967296)%Z ->
  exists out,
    trimSilenceFromAudio decodeAudioData blob = Some out
    /\ (Forall (fun x => Qabs x <= threshold) channelData -> out = blob)
    /\ (Exists (fun x => threshold < Qabs x) channelData ->
        blob_type out = "audio/wav"%string
        /\ exists h,
             parseWavHeader (blob_bytes out) = Some h
             /\ wav_sampleRate h = sampleRate
             /\ wav_channels h = 1%Z
             /\ wav_bitsPerSample h = 16%Z
             /\ wav_dataSize h = Z.of_nat (length (skipn 44 (blob_bytes out)))
             /\ (wav_dataSize h <= 2 * Z.of_nat (length channelData))%Z).
Proof.
  intros Hdec channelData sampleRate Hrate Hlen.
  unfold trimSilenceFromAudio. rewrite Hdec. fold channelData sampleRate. cbv zeta.
  destruct (computeKeepSegments channelData sampleRate) as [|s segs] eqn:Hsegs.
  - exists blob. split; [reflexivity|]. split; [reflexivity|].
    intro Hex. exfalso.
    apply no_segments_iff_all_quiet in Hsegs.
    apply Exists_exists in Hex. destruct Hex as (x & Hin & Hx).
    rewrite Forall_forall in Hsegs. specialize (Hsegs x Hin). lra.
  - cbn [length Nat.eqb].
    assert (Hpos : (0 < sampleRate)%Z) by lia.
    destruct (computeKeepSegments_inv channelData sampleRate Hpos) as [Hwf Hsorted].
    rewrite Hsegs in Hwf, Hsorted.
    assert (Hsum : 0 <= sumLen (s :: segs)
                   /\ sumLen (s :: segs) <= Qi (length channelData) - 0).
    { apply sumLen_bound; try assumption; [apply Qi_nonneg|].
      eapply Forall_impl; [|exact Hwf]. intros s' Hs'. apply Hs'. }
    destruct Hsum as [Hs0 Hs1].
    pose proof (totalSamples_sumLen (s :: segs)) as Htot.
    destruct (buildPcm_length channelData (s :: segs)) as (pcm & Hpcm & _ & Hpl);
      [lra|lra|].
    rewrite Hpcm. eexists. split; [reflexivity|]. split.
    + intro Hq. exfalso.
      apply (all_quiet_no_segments channelData sampleRate) in Hq. congruence.
    + intros _. split; [reflexivity|].
      eexists. split; [apply parse_createWavBlob|].
      cbn [wav_sampleRate wav_channels wav_bitsPerSample wav_dataSize].
      rewrite createWavBlob_bytes.
      pose proof (int16Buffer_length pcm) as Hb.
      assert (Hskip : skipn 44 (wavHeaderBytes (Z.of_nat (length (int16Buffer pcm)))
                                  sampleRate ++ int16Buffer pcm) = int16Buffer pcm)
        by reflexivity.
      rewrite Hskip, Hb. rewrite !Z.mod_small by lia.
      repeat split; lia.
Qed.

Lemma trim_resolves_to_wav_witness :
  let blob := {| blob_bytes := [82; 73; 70; 70]%Z; blob_type := "audio/mpeg" |} in
  let audioBuffer := {| getChannelData := [0.5; 0; -0.25]; buffer_sampleRate := 24000 |} in
  let decodeAudioData := fun _ : Blob => Some audioBuffer in
  decodeAudioData blob = Some audioBuffer /\
  (0 < 24000 < 4294967296)%Z /\
  exists out, trimSilenceFromAudio decodeAudioData blob = Some out.
Proof.
  intros blob audioBuffer decodeAudioData.
  assert (H1 : (0 < 24000 < 4294967296)%Z) by lia.
  assert (H2 : (36 + 2 * Z.of_nat (length (getChannelData audioBuffer)) < 4294967296)%Z)
    by (simpl; lia).
  split; [reflexivity|]. split; [exact H1|].
  destruct (trim_resolves_to_wav decodeAudioData blob audioBuffer eq_refl H1 H2)
    as (out & Hout & _).
  exists out. exact Hout.
Defined.

(** ** Loud samples survive *)

Lemma keptAround_snoc len pad segs s j :
  keptAround len pad segs j -> keptAround len pad (segs ++ [s]) j.
Proof. unfold keptAround. intro H. apply Exists_app. now left. Qed.

Lemma scanPrefix_keeps (channelData : list Q) (sampleRate : Z) :
  (0 < sampleRate)%Z ->
  forall k, (k <= length channelData)%nat ->
  scan_keeps channelData (paddingSamplesOf sampleRate) k
             (scanPrefix channelData sampleRate k).
Proof.
  intros Hrate.
  pose proof (padding_nonneg _ Hrate) as Hpad.
  set (pad := paddingSamplesOf sampleRate) in *.
  set (minS := minSilenceSamplesOf sampleRate).
  induction k as [|k IH]; intro Hk.
  - split; [discriminate|]. intros j x Hj. lia.
  - destruct (nth_error channelData k) as [xk|] eqn:Ek;
      [|apply nth_error_None in Ek; lia].
    rewrite (scanPrefix_S _ _ _ _ Ek).
    assert (Hk' : (k <= length channelData)%nat) by lia.
    specialize (IH Hk'). destruct IH as [Hopen Hkept].
    pose proof (scanPrefix_inv channelData sampleRate k Hrate Hk') as (_ & _ & Hinv).
    fold pad in Hinv.
    set (st := scanPrefix channelData sampleRate k) in *.
    pose proof (Qi_S k) as HS. pose proof (Qi_nonneg k) as Hk0.
    unfold scan_step. fold pad minS.
    destruct (loud xk) eqn:Eloud.
    + (* a loud sample: the segment is opened or stays open *)
      assert (Hstart : (if Qeq_bool (currentSegmentStart st) (-1)
                        then Qmax 0 (Qi k - pad) else currentSegmentStart st)
                       <= Qmax 0 (Qi k - pad)
                       /\ forall j, (j <= silenceStart st)%nat -> isSilent st = false ->
                            currentSegmentStart st <= Qmax 0 (Qi j - pad) ->
                            (if Qeq_bool (currentSegmentStart st) (-1)
                             then Qmax 0 (Qi k - pad) else currentSegmentStart st)
                            <= Qmax 0 (Qi j - pad)).
      { destruct (isSilent st) eqn:Es.
        - destruct Hinv as [Hc _]. rewrite Hc.
          change (Qeq_bool (-1) (-1)) with true. cbv iota. split; [lra|].
          intros j _ Hd. discriminate.
        - destruct Hinv as (Hc0 & _ & HL & _).
          rewrite (Qeq_bool_minus1_nonneg _ Hc0).
          split; [|intros; assumption].
          specialize (Hopen eq_refl).
          assert (Qi (silenceStart st) <= Qi k) by (apply Qi_le; lia).
          revert Hopen. split_minmax; lra. }
      destruct Hstart as [Hs1 Hs2].
      split; cbn [isSilent silenceStart currentSegmentStart keepSegments].
      * intros _. exact Hs1.
      * intros j x Hj Hx Hl.
        destruct (Nat.eq_dec j k) as [->|Hne].
        -- right. split; [reflexivity|]. split; [exact Hs1|lia].
        -- destruct (Hkept j x) as [Hin|(Hs & Hc & HjL)]; try assumption; [lia|now left|].
           right. split; [reflexivity|]. split; [now apply Hs2|].
           destruct (isSilent st); [discriminate|]. destruct Hinv as (_ & _ & HL & _). lia.
    + destruct (negb (isSilent st) && Qltb minS (Qi k - Qi (silenceStart st))) eqn:Ecut.
      * (* the cut: the open segment is pushed *)
        apply andb_true_iff in Ecut. destruct Ecut as [Es Egap].
        apply negb_true_iff in Es. apply Qltb_lt in Egap.
        split; cbn [isSilent silenceStart currentSegmentStart keepSegments];
          [discriminate|].
        intros j x Hj Hx Hl.
        assert (Hjk : j <> k) by (intros ->; congruence).
        destruct (Hkept j x) as [Hin|(_ & Hc & HjL)]; try assumption; [lia| |].
        -- left. now apply keptAround_snoc.
        -- left. unfold keptAround. apply Exists_app. right. constructor.
           cbn [seg_start seg_end].
           assert (Qi j <= Qi (silenceStart st)) by (apply Qi_le; lia).
           assert (Qi j + 1 <= Qi (length channelData)).
           { apply Qi_lt. apply nth_error_Some. congruence. }
           split; [exact Hc|]. split; split_minmax; lra.
      * (* a quiet sample that cuts nothing *)
        split; [exact Hopen|].
        intros j x Hj Hx Hl.
        assert (Hjk : j <> k) by (intros ->; congruence).
        apply (Hkept j x); try assumption. lia.
Qed.

(** X5.  No loud sample is ever cut: at a positive sample rate, every sample
    louder than the threshold lies in a kept segment, and that segment
    also holds the [paddingSamples] positions before and after it, as far
    as the signal reaches. *)
Theorem trim_keeps_every_loud_sample (channelData : list Q) (sampleRate : Z)
        (j : nat) (x : Q) :
  (0 < sampleRate)%Z ->
  nth_error channelData j = Some x ->
  threshold < Qabs x ->
  exists s,
    In s (computeKeepSegments channelData sampleRate)
    /\ seg_start s <= Qi j /\ Qi j < seg_end s
    /\ seg_start s <= Qmax 0 (Qi j - paddingSamplesOf sampleRate)
    /\ Qmin (Qi (length channelData)) (Qi j + paddingSamplesOf sampleRate) <= seg_end s.
Proof.
  intros Hrate Hj Hx.
  pose proof (padding_nonneg _ Hrate) as Hpad.
  assert (Hloud : loud x = true).
  { unfold loud, Qltb. destruct (Qle_bool (Qabs x) threshold) eqn:E; [|reflexivity].
    apply Qle_bool_iff in E. lra. }
  assert (Hlen : (j < length channelData)%nat) by (apply nth_error_Some; congruence).
  destruct (scanPrefix_keeps channelData sampleRate Hrate (length channelData)
              (Nat.le_refl _)) as [_ Hkept].
  pose proof (scanPrefix_inv channelData sampleRate (length channelData) Hrate
                (Nat.le_refl _)) as (_ & _ & Hinv).
  assert (Hfin : computeKeepSegments channelData sampleRate
                 = scan_finish (length channelData)
                               (scanPrefix channelData sampleRate (length channelData))).
  { unfold computeKeepSegments, scanPrefix. now rewrite firstn_all. }
  rewrite Hfin. clear Hfin.
  set (st := scanPrefix channelData sampleRate (length channelData)) in *.
  pose proof (Qi_nonneg j) as Hj0. pose proof (Qi_lt _ _ Hlen) as HjQ.
  assert (Hgoal : keptAround (length channelData) (paddingSamplesOf sampleRate)
                             (scan_finish (length channelData) st) j).
  { unfold scan_finish.
    destruct (Hkept j x Hlen Hj Hloud) as [Hin|(Hs & Hc & _)].
    - destruct (Qeq_bool (currentSegmentStart st) (-1)); [assumption|].
      now apply keptAround_snoc.
    - rewrite Hs in Hinv. destruct Hinv as (Hc0 & _).
      rewrite (Qeq_bool_minus1_nonneg _ Hc0).
      unfold keptAround. apply Exists_app. right. constructor.
      cbn [seg_start seg_end]. split; [exact Hc|]. split; [split_minmax; lra|lra]. }
  unfold keptAround in Hgoal. apply Exists_exists in Hgoal.
  destruct Hgoal as (s & Hin & H1 & H2 & H3).
  exists s. split; [exact Hin|].
  split; [revert H1; split_minmax; lra|]. repeat split; assumption.
Qed.

Lemma trim_keeps_every_loud_sample_witness :
  let channelData := [0; 0.5; 0; 0; 0; 0; 0; 0; -1; 0] in
  (0 < 10)%Z /\ nth_error channelData 8 = Some (-1) /\ threshold < Qabs (-1) /\
  exists s, In s (computeKeepSegments channelData 10)
            /\ seg_start s <= Qi 8 /\ Qi 8 < seg_end s.
Proof.
  intro channelData.
  assert (H1 : (0 < 10)%Z) by lia.
  assert (H2 : nth_error channelData 8 = Some (-1)) by reflexivity.
  assert (H3 : threshold < Qabs (-1)) by reflexivity.
  repeat (split; [assumption|]).
  destruct (trim_keeps_every_loud_sample channelData 10 8 (-1) H1 H2 H3)
    as (s & Hin & Ha & Hb & _).
  exists s. repeat split; assumption.
Defined.

(* ================================================================== *)
(** * Further properties of the compositor *)
(* ================================================================== *)

(** ** Motion parameters and cover-fit drawing *)

Lemma renderSceneFrame_motion props isPlaying refs scene time tp isOutgoing :
  let r := fst (renderSceneFrame props isPlaying refs scene time tp isOutgoing) in
  let ease := easeInOut (sceneProgress scene time) in
  let scale0 := if sceneMoves props scene
                then 1.0 + kenBurnsStrength props * 0.15 + ease * 0.05 else 1.0 in
  sr_xOffset r = (if sceneMoves props scene then ease * 20 * panSeed (id scene) else 0)
  /\ sr_yOffset r = 0
  /\ sr_scale r = match isOutgoing, transitionType scene with
                  | true, ZoomThrough => scale0 * (1 + tp * 4)
                  | _, _ => scale0
                  end.
Proof.
  unfold renderSceneFrame, sceneMoves, easeInOut, sceneProgress.
  destruct isOutgoing, (transitionType scene);
    destruct (srcMatches (video1 refs) (videoClipUrl scene));
    destruct (srcMatches (video2 refs) (videoClipUrl scene));
    destruct (truthy (videoClipUrl scene));
    destruct (2 <=? readyState (video1 refs))%nat;
    destruct (2 <=? readyState (video2 refs))%nat; repeat split; reflexivity.
Qed.

Lemma sceneProgress_range scene time : 0 <= sceneProgress scene time <= 1.
Proof. unfold sceneProgress. split_minmax; lra. Qed.

Lemma easeInOut_range p : 0 <= p <= 1 -> 0 <= easeInOut p <= 1.
Proof.
  intros [H0 H1]. unfold easeInOut.
  destruct (Qltb p 0.5) eqn:E.
  - apply Qltb_lt in E. split; nra.
  - apply Qltb_ge in E. split; nra.
Qed.

Lemma easeInOut_pos p : 0 < p <= 1 -> 0 < easeInOut p.
Proof.
  intros [H0 H1]. unfold easeInOut.
  destruct (Qltb p 0.5) eqn:E.
  - apply Qltb_lt in E. nra.
  - apply Qltb_ge in E. nra.
Qed.

Lemma Qi_pos k : (0 < k)%nat -> 0 < Qi k.
Proof.
  intro H. unfold Qi. change 0 with (inject_Z 0). rewrite <- Zlt_Qlt. lia.
Qed.

Lemma width_height_cases props :
  (width props == 1280 /\ height props == 720 /\ aspectRatio props = Ratio16x9)
  \/ (width props == 720 /\ 720 <= height props /\ aspectRatio props <> Ratio16x9).
Proof.
  unfold width, height, getDimensions.
  destruct (aspectRatio props); cbn [fst snd].
  - left. repeat split; reflexivity.
  - right. repeat split; try reflexivity; discriminate.
  - right. repeat split; try reflexivity; discriminate.
Qed.

Lemma drawMediaToCanvas_rect props (mWidth mHeight : nat) (scale opacity xOffset yOffset : Q) :
  (0 < mWidth)%nat -> (0 < mHeight)%nat -> 0 < scale ->
  exists d,
    drawMediaToCanvas props mWidth mHeight scale opacity xOffset yOffset = Some d
    /\ di_alpha d = opacity
    /\ di_width d * Qi mHeight == di_height d * Qi mWidth
    /\ di_x d + di_width d / 2 == width props / 2 + xOffset
    /\ di_y d + di_height d / 2 == height props / 2 + yOffset
    /\ width props * scale <= di_width d
    /\ height props * scale <= di_height d
    /\ (di_width d == width props * scale \/ di_height d == height props * scale)
    /\ (Qabs xOffset <= (scale - 1) * width props / 2 ->
        Qabs yOffset <= (scale - 1) * height props / 2 ->
        coversCanvas props d).
Proof.
  intros HW HH Hs.
  unfold drawMediaToCanvas, coversCanvas.
  destruct (mWidth =? 0)%nat eqn:E1; [apply Nat.eqb_eq in E1; lia|].
  destruct (mHeight =? 0)%nat eqn:E2; [apply Nat.eqb_eq in E2; lia|].
  cbn [orb]. eexists. split; [reflexivity|].
  cbn [di_x di_y di_width di_height di_alpha].
  pose proof (Qi_pos _ HW) as PW. pose proof (Qi_pos _ HH) as PH.
  set (W := Qi mWidth) in *. set (H := Qi mHeight) in *.
  set (w := width props). set (h := height props).
  assert (Ea : W * (w / W) == w) by (field; lra).
  assert (Eb : H * (h / H) == h) by (field; lra).
  set (a := w / W) in *. set (b := h / H) in *.
  assert (Hm : (a <= Qmax a b /\ b <= Qmax a b) /\ (Qmax a b == a \/ Qmax a b == b)).
  { destruct (Q.max_spec a b) as [[? ->]|[? ->]]; split; try split; try lra;
      auto with qarith. }
  destruct Hm as [[Ha Hb] Hc].
  set (m := Qmax a b) in *.
  assert (HWm : w <= W * m) by nra.
  assert (HHm : h <= H * m) by nra.
  assert (HWs : w * scale <= W * (m * scale)) by nra.
  assert (HHs : h * scale <= H * (m * scale)) by nra.
  split; [reflexivity|].
  split; [ring|].
  split; [field|].
  split; [field|].
  split; [exact HWs|].
  split; [exact HHs|].
  split.
  - destruct Hc as [Hc|Hc]; [left|right]; rewrite Hc; nra.
  - intros Hx Hy.
    assert (Ax : - ((scale - 1) * w / 2) <= xOffset <= (scale - 1) * w / 2).
    { apply Qabs_Qle_condition. exact Hx. }
    assert (Ay : - ((scale - 1) * h / 2) <= yOffset <= (scale - 1) * h / 2).
    { apply Qabs_Qle_condition. exact Hy. }
    destruct Ax, Ay.
    clear Hx Hy Hc. clearbody m a b w h W H.
    unfold Qdiv in *. change (/ 2) with (1 # 2) in *. repeat split; nra.
Qed.

(** X6.  For a medium of non-zero width and height, [drawMediaToCanvas]
    issues one [drawImage] at the
    opacity it was given, which keeps the medium's proportions, is centred
    on the canvas centre displaced by the offsets, and is the smallest such
    rectangle to cover the canvas scaled by [scale]: both sides reach the
    scaled canvas side and one of them equals it.  Offsets within the
    margin that [scale] leaves keep the whole canvas covered. *)
Theorem drawMedia_cover_fit props (mWidth mHeight : nat)
        (scale opacity xOffset yOffset : Q) :
  (0 < mWidth)%nat -> (0 < mHeight)%nat -> 0 < scale ->
  exists d,
    drawMediaToCanvas props mWidth mHeight scale opacity xOffset yOffset = Some d
    /\ di_alpha d = opacity
    /\ di_width d * Qi mHeight == di_height d * Qi mWidth
    /\ di_x d + di_width d / 2 == width props / 2 + xOffset
    /\ di_y d + di_height d / 2 == height props / 2 + yOffset
    /\ width props * scale <= di_width d
    /\ height props * scale <= di_height d
    /\ (di_width d == width props * scale \/ di_height d == height props * scale)
    /\ (Qabs xOffset <= (scale - 1) * width props / 2 ->
        Qabs yOffset <= (scale - 1) * height props / 2 ->
        coversCanvas props d).
Proof. exact (drawMediaToCanvas_rect props mWidth mHeight scale opacity xOffset yOffset). Qed.

Lemma drawMedia_cover_fit_witness :
  (0 < 1920)%nat /\ (0 < 1080)%nat /\ 0 < 1.2 /\
  exists d, drawMediaToCanvas (plainProps []) 1920 1080 1.2 1 20 0 = Some d
            /\ di_width d == 1536 /\ di_height d == 864
            /\ di_x d == -108 /\ di_y d == -72.
Proof.
  assert (H1 : (0 < 1920)%nat) by lia.
  assert (H2 : (0 < 1080)%nat) by lia.
  assert (H3 : 0 < 1.2) by reflexivity.
  repeat (split; [assumption|]).
  destruct (drawMedia_cover_fit (plainProps []) 1920 1080 1.2 1 20 0 H1 H2 H3)
    as (d & Hd & _).
  exists d. split; [exact Hd|].
  vm_compute in Hd. injection Hd as <-. repeat split; reflexivity.
Defined.

Lemma panSeed_cases sceneId : panSeed sceneId = 1 \/ panSeed sceneId = -1.
Proof.
  unfold panSeed. destruct (lastCharCode sceneId) as [c|]; [|now right].
  destruct (Nat.even c); [now left|now right].
Qed.

Lemma drawMediaToCanvas_None props mWidth mHeight scale opacity xOffset yOffset :
  drawMediaToCanvas props mWidth mHeight scale opacity xOffset yOffset = None
  <-> mWidth = 0%nat \/ mHeight = 0%nat.
Proof.
  unfold drawMediaToCanvas.
  destruct (mWidth =? 0)%nat eqn:E1; destruct (mHeight =? 0)%nat eqn:E2; cbn [orb];
    rewrite ?Nat.eqb_eq, ?Nat.eqb_neq in *; split; intro H;
    try reflexivity; try discriminate; try tauto.
Qed.

(** X7.  With a non-negative Ken Burns strength and transition progress, every
    render of a scene of positive length draws its media at a scale of at
    least 1 and a pan of at most 20 px, with no vertical displacement.
    On the 1280-wide canvas, and on the 720-wide ones whenever the
    strength is at least 1/27, the picture it draws covers the whole
    canvas. *)
Theorem pan_keeps_canvas_covered props isPlaying refs scene time tp isOutgoing
        (mWidth mHeight : nat) :
  startTime scene < endTime scene ->
  0 <= kenBurnsStrength props ->
  0 <= tp ->
  (0 < mWidth)%nat -> (0 < mHeight)%nat ->
  let r := fst (renderSceneFrame props isPlaying refs scene time tp isOutgoing) in
  1 <= sr_scale r
  /\ Qabs (sr_xOffset r) <= 20
  /\ sr_yOffset r = 0
  /\ (aspectRatio props = Ratio16x9 \/ 1 / 27 <= kenBurnsStrength props ->
      exists d, drawLayer props r mWidth mHeight = Some d /\ coversCanvas props d).
Proof.
  intros Hdur Hk Htp HW HH r.
  destruct (renderSceneFrame_motion props isPlaying refs scene time tp isOutgoing)
    as (Hx & Hy & Hs).
  fold r in Hx, Hy, Hs.
  pose proof (easeInOut_range _ (sceneProgress_range scene time)) as [He0 He1].
  set (ease := easeInOut (sceneProgress scene time)) in *.
  set (k := kenBurnsStrength props) in *.
  set (scale0 := if sceneMoves props scene then 1.0 + k * 0.15 + ease * 0.05 else 1.0) in *.
  assert (Hs0 : 1 <= scale0 /\ (sceneMoves props scene = true ->
                                 scale0 == 1 + k * 0.15 + ease * 0.05)).
  { unfold scale0. destruct (sceneMoves props scene); split; intros;
      try lra; try discriminate. }
  destruct Hs0 as [Hs0 Hs0'].
  assert (Hscale : scale0 <= sr_scale r).
  { rewrite Hs. destruct isOutgoing, (transitionType scene); try lra. nra. }
  assert (Hxo : - (20 * ease) <= sr_xOffset r <= 20 * ease
                /\ (sceneMoves props scene = false -> sr_xOffset r == 0)).
  { rewrite Hx. destruct (sceneMoves props scene).
    - destruct (panSeed_cases (id scene)) as [-> | ->]; split; try split;
        try lra; intros; discriminate.
    - split; [lra|]. intros _. reflexivity. }
  destruct Hxo as [[Hx0 Hx1] Hx2].
  split; [lra|].
  split; [apply Qabs_Qle_condition; lra|].
  split; [exact Hy|].
  intros Hcanvas.
  assert (Hpos : 0 < sr_scale r) by lra.
  destruct (drawMediaToCanvas_rect props mWidth mHeight (sr_scale r) (sr_opacity r)
              (sr_xOffset r) (sr_yOffset r) HW HH Hpos)
    as (d & Hd & _ & _ & _ & _ & _ & _ & _ & Hcov).
  exists d. split; [exact Hd|]. apply Hcov.
  - apply Qabs_Qle_condition.
    destruct (sceneMoves props scene) eqn:Em.
    + specialize (Hs0' eq_refl).
      destruct (width_height_cases props) as [(Hw & _ & _)|(Hw & _ & Hn)].
      * unfold Qdiv. change (/ 2) with (1 # 2). rewrite Hw. split; nra.
      * destruct Hcanvas as [Hc|Hc]; [contradiction|].
        unfold Qdiv in *. change (/ 2) with (1 # 2).
        change (1 * / 27) with (1 # 27) in Hc. rewrite Hw. split; nra.
    + specialize (Hx2 eq_refl).
      assert (0 <= width props)
        by (destruct (width_height_cases props) as [(Hw & _)|(Hw & _)]; lra).
      unfold Qdiv. change (/ 2) with (1 # 2). rewrite Hx2. split; nra.
  - rewrite Hy.
    assert (0 <= height props)
      by (destruct (width_height_cases props) as [(_ & Hh & _)|(_ & Hh & _)]; lra).
    unfold Qdiv. change (/ 2) with (1 # 2).
    change (Qabs 0) with 0. nra.
Qed.

Lemma pan_keeps_canvas_covered_witness :
  let props := plainProps [sceneA] in
  startTime sceneA < endTime sceneA /\
  0 <= kenBurnsStrength props /\ 0 <= 1 /\
  (0 < 640)%nat /\ (0 < 480)%nat /\
  Qabs (sr_xOffset (fst (renderSceneFrame props true demoRefs sceneA 2 1 false))) <= 20.
Proof.
  intro props.
  assert (H1 : startTime sceneA < endTime sceneA) by reflexivity.
  assert (H2 : 0 <= kenBurnsStrength props) by discriminate.
  assert (H3 : 0 <= 1) by discriminate.
  assert (H4 : (0 < 640)%nat) by lia.
  assert (H5 : (0 < 480)%nat) by lia.
  repeat (split; [assumption|]).
  exact (proj1 (proj2 (pan_keeps_canvas_covered props true demoRefs sceneA 2 1 false
                         640 480 H1 H2 H3 H4 H5))).
Defined.

(** X8.  On the 720-wide canvases, with the Ken Burns strength at zero, a
    'parallax-2.5d' scene of positive length that has started is drawn
    with a strip of [2 * ease] px of the canvas left unpainted, for any
    medium that is no wider than the canvas in proportion: on the left
    when the pan goes right, on the right when it goes left. *)
Theorem parallax_pan_leaves_strip props isPlaying refs scene time tp isOutgoing
        (mWidth mHeight : nat) :
  startTime scene < endTime scene ->
  startTime scene < time ->
  transitionType scene = Parallax25d ->
  kenBurnsStrength props == 0 ->
  aspectRatio props <> Ratio16x9 ->
  (0 < mWidth)%nat -> (0 < mHeight)%nat ->
  height props * Qi mWidth <= width props * Qi mHeight ->
  let r := fst (renderSceneFrame props isPlaying refs scene time tp isOutgoing) in
  let ease := easeInOut (sceneProgress scene time) in
  0 < ease
  /\ exists d,
       drawLayer props r mWidth mHeight = Some d
       /\ (panSeed (id scene) = 1 -> di_x d == 2 * ease)
       /\ (panSeed (id scene) = -1 -> di_x d + di_width d == width props - 2 * ease).
Proof.
  intros Hdur Hstart Htt Hk Hratio HW HH Hfit r ease.
  assert (Hp : 0 < sceneProgress scene time <= 1).
  { split; [|apply sceneProgress_range].
    unfold sceneProgress.
    assert (0 < (time - startTime scene) / (endTime scene - startTime scene)).
    { apply Qlt_shift_div_l; lra. }
    split_minmax; lra. }
  pose proof (easeInOut_pos _ Hp) as Hease. fold ease in Hease.
  split; [exact Hease|].
  destruct (renderSceneFrame_motion props isPlaying refs scene time tp isOutgoing)
    as (Hx & Hy & Hs).
  fold r ease in Hx, Hy, Hs.
  assert (Hm : sceneMoves props scene = true) by (unfold sceneMoves; now rewrite Htt).
  rewrite Hm in Hx, Hs. rewrite Htt in Hs.
  assert (Hs' : sr_scale r = 1.0 + kenBurnsStrength props * 0.15 + ease * 0.05)
    by (rewrite Hs; now destruct isOutgoing).
  destruct (width_height_cases props) as [(_ & _ & Hc)|(Hw & _ & _)]; [contradiction|].
  unfold drawLayer, drawMediaToCanvas.
  destruct (mWidth =? 0)%nat eqn:E1; [apply Nat.eqb_eq in E1; lia|].
  destruct (mHeight =? 0)%nat eqn:E2; [apply Nat.eqb_eq in E2; lia|].
  cbn [orb]. eexists. split; [reflexivity|].
  cbn [di_x di_width].
  pose proof (Qi_pos _ HW) as PW. pose proof (Qi_pos _ HH) as PH.
  assert (Hmax : Qmax (width props / Qi mWidth) (height props / Qi mHeight)
                 == width props / Qi mWidth).
  { apply Q.max_l. apply Qle_shift_div_l; [assumption|].
    setoid_replace (height props / Qi mHeight * Qi mWidth)
      with (height props * Qi mWidth / Qi mHeight) by (field; lra).
    apply Qle_shift_div_r; [assumption|]. exact Hfit. }
  rewrite Hmax, Hs', Hx, Hk, Hw.
  split; intros ->; field; lra.
Qed.

Lemma parallax_pan_leaves_strip_witness :
  let scene := {| id := "s2"; startTime := 0; endTime := 10;
                  imageUrl := Some "b.png"%string; videoClipUrl := None;
                  transitionType := Parallax25d |} in
  let props := {| scenes := [scene]; aspectRatio := Ratio9x16; enableEmbers := false;
                  kenBurnsStrength := 0; filmGrainStrength := 0;
                  enableVaporOverlay := false; vaporOverlayOpacity := 0;
                  enableLetterboxing := false; enablePolygonAssembly := false |} in
  startTime scene < endTime scene /\ startTime scene < 10 /\
  transitionType scene = Parallax25d /\ kenBurnsStrength props == 0 /\
  aspectRatio props <> Ratio16x9 /\
  height props * Qi 720 <= width props * Qi 1280 /\
  exists d,
    drawLayer props (fst (renderSceneFrame props true demoRefs scene 10 1 false)) 720 1280
    = Some d /\ di_x d == 2.
Proof.
  intros scene props.
  assert (H1 : startTime scene < endTime scene) by reflexivity.
  assert (H2 : startTime scene < 10) by reflexivity.
  assert (H3 : transitionType scene = Parallax25d) by reflexivity.
  assert (H4 : kenBurnsStrength props == 0) by reflexivity.
  assert (H5 : aspectRatio props <> Ratio16x9) by discriminate.
  assert (H6 : (0 < 720)%nat) by lia.
  assert (H7 : (0 < 1280)%nat) by lia.
  assert (H8 : height props * Qi 720 <= width props * Qi 1280) by (vm_compute; discriminate).
  repeat (split; [assumption|]).
  destruct (parallax_pan_leaves_strip props true demoRefs scene 10 1 false 720 1280
              H1 H2 H3 H4 H5 H6 H7 H8) as (_ & d & Hd & Hl & _).
  exists d. split; [exact Hd|].
  rewrite (Hl eq_refl). reflexivity.
Defined.

(** ** Scene lookup *)

Lemma activeAt_iff t s : activeAt t s = true <-> startTime s <= t /\ t < endTime s.
Proof.
  unfold activeAt. rewrite andb_true_iff, Qle_bool_iff.
  split; intros [H1 H2]; split; try assumption.
  - now apply Qltb_lt.
  - unfold Qltb. destruct (Qle_bool (endTime s) t) eqn:E; [|reflexivity].
    apply Qle_bool_iff in E. lra.
Qed.

Lemma findIndexFrom_first {A} (pred : A -> bool) (l : list A) : forall i k,
  findIndexFrom pred l i = Some k <->
  exists j a, k = (i + j)%nat /\ nth_error l j = Some a /\ pred a = true /\
              forall j' a', (j' < j)%nat -> nth_error l j' = Some a' -> pred a' = false.
Proof.
  induction l as [|b l IH]; intros i k; simpl.
  - split; [discriminate|]. intros (j & a & _ & H & _). destruct j; discriminate.
  - destruct (pred b) eqn:E.
    + split.
      * intro H. inversion H; subst. exists 0%nat, b.
        split; [lia|]. split; [reflexivity|]. split; [assumption|].
        intros j' a' Hlt. lia.
      * intros (j & a & Hk & Hn & Hp & Hfirst).
        destruct j as [|j]; [f_equal; lia|].
        specialize (Hfirst 0%nat b (Nat.lt_0_succ _) eq_refl). congruence.
    + rewrite IH. split.
      * intros (j & a & Hk & Hn & Hp & Hfirst). exists (S j), a.
        split; [lia|]. split; [assumption|]. split; [assumption|].
        intros [|j'] a' Hlt Hn'; simpl in Hn'; [congruence|].
        apply (Hfirst j'); [lia|assumption].
      * intros (j & a & Hk & Hn & Hp & Hfirst).
        destruct j as [|j]; simpl in Hn; [congruence|].
        exists j, a.
        split; [lia|]. split; [assumption|]. split; [assumption|].
        intros j' a' Hlt Hn'. apply (Hfirst (S j')); [lia|assumption].
Qed.

Lemma findIndexFrom_None {A} (pred : A -> bool) (l : list A) : forall i,
  findIndexFrom pred l i = None <-> Forall (fun a => pred a = false) l.
Proof.
  induction l as [|b l IH]; intro i; simpl.
  - split; auto.
  - destruct (pred b) eqn:E.
    + split; [discriminate|]. intro H. inversion H; congruence.
    + rewrite IH. split; [now constructor|]. intro H. now inversion H.
Qed.

(** X9.  The scene both loops show at clock [t] is the first one, in list
    order, whose half-open interval [[startTime, endTime)] holds [t]:
    where scenes overlap the earlier one wins, and the lookup fails exactly
    when no scene's interval holds [t]. *)
Theorem findActive_first_match (scs : list Scene) (t : Q) :
  (forall i,
     findActive scs t = Some i <->
     exists s, nth_error scs i = Some s
               /\ (startTime s <= t /\ t < endTime s)
               /\ forall j s', (j < i)%nat -> nth_error scs j = Some s' ->
                               ~ (startTime s' <= t /\ t < endTime s'))
  /\ (findActive scs t = None <->
      forall s, In s scs -> ~ (startTime s <= t /\ t < endTime s)).
Proof.
  unfold findActive. split.
  - intro i. rewrite findIndexFrom_first. split.
    + intros (j & s & Hi & Hn & Hp & Hfirst). simpl in Hi. subst j.
      exists s. split; [assumption|]. split; [now apply activeAt_iff|].
      intros j s' Hlt Hn' Hact. apply activeAt_iff in Hact.
      rewrite (Hfirst j s' Hlt Hn') in Hact. discriminate.
    + intros (s & Hn & Hact & Hfirst). exists i, s.
      split; [reflexivity|]. split; [assumption|].
      split; [now apply activeAt_iff|].
      intros j s' Hlt Hn'. destruct (activeAt t s') eqn:E; [|reflexivity].
      exfalso. apply (Hfirst j s' Hlt Hn'). now apply activeAt_iff.
  - rewrite findIndexFrom_None, Forall_forall. split; intros H s Hin.
    + intro Hact. apply activeAt_iff in Hact. rewrite (H s Hin) in Hact. discriminate.
    + destruct (activeAt t s) eqn:E; [|reflexivity].
      exfalso. apply (H s Hin). now apply activeAt_iff.
Qed.

(** ** Preview and export *)


Lemma exportFrame_sceneRenders props isPlaying r refs t idx active :
  findActive (scenes props) t = Some idx ->
  nth_error (scenes props) idx = Some active ->
  sceneRenders (fst (exportFrame props isPlaying r refs t))
  = fst (renderScenes props isPlaying (preload refs active) idx active t).
Proof.
  intros Hidx Hact. unfold exportFrame. rewrite Hidx, Hact.
  destruct (renderScenes props isPlaying (preload refs active) idx active t) as [rs refs1].
  pose proof (sceneRenders_embers props true r refs1) as He.
  destruct (embersPass props true r refs1) as [embers refs2]. simpl in He.
  destruct (sceneRenders_effects props refs2) as (_ & Hg & _).
  cbn [fst]. rewrite !sceneRenders_app, sceneRenders_blank, He, Hg.
  rewrite sceneRenders_map. now rewrite app_nil_r.
Qed.


(** X11.  Outside the transition window, that is for the first scene at any
    time and for a later scene from [TRANSITION_DURATION] after its start,
    a tick renders the active scene alone, as incoming and fully opaque;
    it is clipped only if its transition is the polygon wipe. *)
Theorem stable_phase_single_render props isPlaying r refs t idx active :
  findActive (scenes props) t = Some idx ->
  nth_error (scenes props) idx = Some active ->
  idx = 0%nat \/ TRANSITION_DURATION <= t - startTime active ->
  exists one,
    sceneRenders (fst (draw props isPlaying false r refs t)) = [one]
    /\ sr_scene one = id active
    /\ sr_outgoing one = false
    /\ sr_opacity one == 1
    /\ (sr_clip one = None <-> transitionType active <> PolygonWipe).
Proof.
  intros Hidx Hact Hstable.
  rewrite (draw_sceneRenders _ _ _ _ _ _ _ Hidx Hact).
  unfold renderScenes.
  assert (Hcond : (if (0 <? idx)%nat && Qltb (t - startTime active) TRANSITION_DURATION
                   then nth_error (scenes props) (idx - 1) else None) = None).
  { destruct Hstable as [-> | Hge]; [reflexivity|].
    destruct (Qltb (t - startTime active) TRANSITION_DURATION) eqn:E.
    - apply Qltb_lt in E. lra.
    - now rewrite andb_false_r. }
  rewrite Hcond.
  set (refs0 := preload refs active).
  pose proof (renderSceneFrame_who props isPlaying refs0 active t 1.0 false) as [Hw Ho].
  pose proof (renderSceneFrame_opacity props isPlaying refs0 active t 1.0 false) as Hop.
  pose proof (renderSceneFrame_clip props isPlaying refs0 active t 1.0 false) as Hc.
  destruct (renderSceneFrame props isPlaying refs0 active t 1.0 false) as [one refs1].
  cbn [fst] in *. exists one. split; [reflexivity|].
  split; [assumption|]. split; [assumption|]. split.
  - rewrite Hop. destruct (transitionType active); reflexivity.
  - rewrite Hc. destruct (transitionType active); split; intro H;
      try reflexivity; try discriminate; try congruence.
Qed.

Lemma stable_phase_single_render_witness :
  let props := plainProps [sceneA; sceneB] in
  findActive (scenes props) 7 = Some 1%nat /\
  nth_error (scenes props) 1 = Some sceneB /\
  TRANSITION_DURATION <= 7 - startTime sceneB /\
  exists one,
    sceneRenders (fst (draw props true false noDraws demoRefs 7)) = [one]
    /\ sr_scene one = "s2"%string /\ sr_opacity one == 1.
Proof.
  intro props.
  assert (H1 : findActive (scenes props) 7 = Some 1%nat) by reflexivity.
  assert (H2 : nth_error (scenes props) 1 = Some sceneB) by reflexivity.
  assert (H3 : TRANSITION_DURATION <= 7 - startTime sceneB) by (vm_compute; discriminate).
  repeat (split; [assumption|]).
  destruct (stable_phase_single_render props true noDraws demoRefs 7 1 sceneB
              H1 H2 (or_intror H3)) as (one & Hone & Hs & _ & Hop & _).
  exists one. repeat split; assumption.
Defined.



(** ** Clip pre-loading *)

Lemma srcMatches_loadClip url :
  srcMatches (loadClip url) (Some url) = true.
Proof. unfold srcMatches, loadClip. cbn [src]. apply String.eqb_refl. Qed.

(** X14.  After the pre-loading block has run for a scene, the marker names that
    scene; if the scene has a clip, one of the two video elements carries
    it; an element that already carried it is not reloaded, and then the
    other is not touched either; a clip is loaded into the first element
    only when that one is paused, and otherwise into the second whatever
    its state; and running the block again for the same scene changes
    nothing. *)
Theorem preload_holds_clip (refs : Refs) (activeScene : Scene) :
  let refs' := preload refs activeScene in
  lastActiveSceneId refs' = Some (id activeScene)
  /\ preload refs' activeScene = refs'
  /\ (lastActiveSceneId refs <> Some (id activeScene) ->
      truthy (videoClipUrl activeScene) = true ->
      srcMatches (video1 refs') (videoClipUrl activeScene) = true
      \/ srcMatches (video2 refs') (videoClipUrl activeScene) = true)
  /\ (srcMatches (video1 refs) (videoClipUrl activeScene) = true
      \/ srcMatches (video2 refs) (videoClipUrl activeScene) = true ->
      video1 refs' = video1 refs /\ video2 refs' = video2 refs)
  /\ (video1 refs' <> video1 refs -> paused (video1 refs) = true)
  /\ (paused (video1 refs) = true -> video2 refs' = video2 refs)
  /\ imageCache refs' = imageCache refs /\ particlesRef refs' = particlesRef refs.
Proof.
  cbv zeta.
  assert (Hmark : lastActiveSceneId (preload refs activeScene) = Some (id activeScene)).
  { unfold preload.
    destruct (lastActiveSceneId refs) as [last|] eqn:El;
      [destruct (String.eqb (id activeScene) last) eqn:Eid|].
    - apply String.eqb_eq in Eid. now subst last.
    - destruct (videoClipUrl activeScene) as [url|]; [|reflexivity].
      destruct (negb _ && negb _ && _); [|reflexivity].
      destruct (paused _); reflexivity.
    - destruct (videoClipUrl activeScene) as [url|]; [|reflexivity].
      destruct (negb _ && negb _ && _); [|reflexivity].
      destruct (paused _); reflexivity. }
  split; [exact Hmark|].
  split; [unfold preload at 1; rewrite Hmark, String.eqb_refl; reflexivity|].
  clear Hmark. unfold preload.
  destruct (match lastActiveSceneId refs with
            | Some last => String.eqb (id activeScene) last
            | None => false
            end) eqn:Esame.
  - split.
    + intros Hne. exfalso. apply Hne.
      destruct (lastActiveSceneId refs) as [last|]; [|discriminate].
      apply String.eqb_eq in Esame. now subst.
    + repeat split; try reflexivity; try tauto; try congruence.
  - cbn [video1 video2 setLastActive].
    destruct (videoClipUrl activeScene) as [url|] eqn:Eurl.
    + destruct (srcMatches (video1 refs) (Some url)) eqn:E1;
        destruct (srcMatches (video2 refs) (Some url)) eqn:E2;
        destruct (truthy (Some url)) eqn:Et;
        destruct (paused (video1 refs)) eqn:Ep;
        cbn [negb andb video1 video2 imageCache particlesRef setVideo1 setVideo2
             setLastActive];
        rewrite ?srcMatches_loadClip, ?E1, ?E2;
        repeat split; try reflexivity; try tauto; try congruence;
        try (intros [H|H]; discriminate H);
        try match goal with H : _ \/ _ |- _ => destruct H; discriminate end; auto.
    + repeat split; try reflexivity; try tauto; try congruence;
        try (intros _ H; discriminate H).
Qed.

(** ** Embers *)

Lemma sweepParticles_drawn (ps : list Particle) :
  fst (sweepParticles ps) = rev (map moveParticle ps).
Proof.
  induction ps as [|p ps IH]; [reflexivity|]. simpl.
  destruct (sweepParticles ps) as [drawn kept]. simpl in *. now rewrite IH.
Qed.

Lemma newParticle_alive props r : emberAlive (newParticle props r).
Proof.
  unfold emberAlive, newParticle. cbn [p_life p_y]. split; [lia|].
  destruct (width_height_cases props) as [(_ & Hh & _)|(_ & Hh & _)]; lra.
Qed.

(** X15.  The embers [particlesRef] holds between ticks all have life left and
    are not above the canvas: if that holds before [updateParticles] it
    holds after, with every life below 180.  Each ember is drawn once per
    tick, after its move, also on the tick that removes it, with an alpha
    between 0 and 0.7. *)
Theorem embers_stay_alive props det r (ps : list Particle) :
  Forall emberAlive ps ->
  Forall (fun p => emberAlive p /\ (p_life p < 180)%Z)
         (snd (updateParticles props det r ps))
  /\ forall drawn,
       fst (updateParticles props det r ps) = Some drawn ->
       drawn = rev (map moveParticle (spawnParticle props det r ps))
       /\ Forall (fun p => (0 <= p_life p < 180)%Z
                           /\ 0 <= emberAlpha p /\ emberAlpha p <= 0.7) drawn.
Proof.
  intro Hps. unfold updateParticles.
  destruct (enableEmbers props); cbn [negb].
  2:{ split; [constructor|]. intros drawn H. discriminate H. }
  assert (Hsp : Forall emberAlive (spawnParticle props det r ps)).
  { unfold spawnParticle.
    destruct ((length ps <? 50)%nat && (det || Qltb 0.6 (r_spawn r))); [|assumption].
    apply Forall_app. split; [assumption|].
    constructor; [apply newParticle_alive|constructor]. }
  pose proof (sweepParticles_kept (spawnParticle props det r ps)) as Hk.
  pose proof (sweepParticles_drawn (spawnParticle props det r ps)) as Hd.
  destruct (sweepParticles (spawnParticle props det r ps)) as [drawn kept].
  cbn [fst snd] in *. subst kept drawn. split.
  - rewrite Forall_forall. intros p Hin.
    apply filter_In in Hin. destruct Hin as [Hin Hexp].
    apply in_map_iff in Hin. destruct Hin as (p0 & <- & Hin0).
    rewrite Forall_forall in Hsp. destruct (Hsp p0 Hin0) as [Hl Hy].
    unfold expired in Hexp. apply negb_true_iff, orb_false_iff in Hexp.
    destruct Hexp as [He1 He2]. apply Z.leb_gt in He1. apply Qltb_ge in He2.
    unfold emberAlive. cbn [moveParticle p_life p_y] in *. repeat split; try lia; lra.
  - intros drawn H. injection H as <-. split; [reflexivity|].
    apply Forall_rev. rewrite Forall_forall. intros p Hin.
    apply in_map_iff in Hin. destruct Hin as (p0 & <- & Hin0).
    rewrite Forall_forall in Hsp. destruct (Hsp p0 Hin0) as [Hl Hy].
    unfold emberAlpha. cbn [moveParticle p_life].
    assert (Hq : 0 <= inject_Z (p_life p0 - 1) / 60).
    { apply Qle_shift_div_l; [reflexivity|]. rewrite Qmult_0_l.
      change 0 with (inject_Z 0). rewrite <- Zle_Qle. lia. }
    split; [lia|]. split_minmax; lra.
Qed.

Lemma embers_stay_alive_witness :
  let ps := [newParticle emberProps noDraws] in
  Forall emberAlive ps /\
  Forall (fun p => emberAlive p /\ (p_life p < 180)%Z)
         (snd (updateParticles emberProps true noDraws ps)).
Proof.
  intro ps.
  assert (H : Forall emberAlive ps).
  { constructor; [|constructor]. split; [cbn; lia|]. vm_compute. discriminate. }
  split; [exact H|].
  exact (proj1 (embers_stay_alive emberProps true noDraws ps H)).
Defined.

(** ** Export progress and delivery *)

Lemma jsRound_le x y : x <= y -> (jsRound x <= jsRound y)%Z.
Proof. intro H. unfold jsRound. apply Qfloor_resp_le. lra. Qed.

Lemma findActive_lt scs t i : findActive scs t = Some i -> (i < length scs)%nat.
Proof.
  unfold findActive. intro H. apply findIndexFrom_Some in H.
  destruct H as (_ & a & Hn & _). rewrite Nat.sub_0_r in Hn.
  apply nth_error_Some. congruence.
Qed.

(** X16.  While the run holds the liveness flag and has its canvas, each
    [exportLoop] call reports an integer progress between 0 and 99, never
    100, that does not decrease as the audio clock advances and is 99 once
    the clock has reached the end of the narration; the part it names is
    the active scene's position counted from one, 0 when no scene is
    active, out of the number of scenes. *)
Theorem export_progress_bounds props isPlaying totalT (currentT currentT' : Q)
        r r' (st st' : ExportState) (refs refs' : Refs) :
  0 < totalT ->
  0 <= currentT -> currentT <= currentT' ->
  isExportingRef st = true -> isExportingRef st' = true ->
  let reported := status (snd (fst (exportLoop props isPlaying totalT true currentT r st refs))) in
  let later := status (snd (fst (exportLoop props isPlaying totalT true currentT' r' st' refs'))) in
  (exists progress part,
     reported = StatusExporting progress part (length (scenes props))
     /\ (0 <= part <= Z.of_nat (length (scenes props)))%Z
     /\ (part = 0%Z <-> findActive (scenes props) currentT = None)
     /\ (forall i, findActive (scenes props) currentT = Some i -> part = Z.of_nat (S i)))
  /\ (0 <= statusProgress reported <= statusProgress later)%Z
  /\ (statusProgress later <= 99)%Z
  /\ (totalT <= currentT -> statusProgress reported = 99%Z).
Proof.
  intros HT H0 Hle Hflag Hflag'.
  assert (Hst : forall c rr s rf,
             isExportingRef s = true ->
             status (snd (fst (exportLoop props isPlaying totalT true c rr s rf)))
             = StatusExporting (Z.min 99 (jsRound (c / totalT * 100)))
                 (match findActive (scenes props) c with
                  | Some i => Z.of_nat i
                  | None => (-1)%Z
                  end + 1)
                 (length (scenes props))).
  { intros c rr s rf Hs. unfold exportLoop. rewrite Hs. cbn [negb].
    destruct (exportFrame props isPlaying rr rf c) as [frame rf'].
    destruct (Qltb c totalT); [reflexivity|].
    cbn [recorder]. destruct (recorder s); reflexivity. }
  cbv zeta. rewrite (Hst _ _ _ _ Hflag), (Hst _ _ _ _ Hflag'). cbn [statusProgress].
  assert (Hi : 0 < / totalT) by now apply Qinv_lt_0_compat.
  assert (Hmono : currentT / totalT * 100 <= currentT' / totalT * 100).
  { unfold Qdiv. nra. }
  assert (Hnn : 0 <= currentT / totalT * 100).
  { unfold Qdiv. nra. }
  pose proof (jsRound_le _ _ Hmono) as Hr.
  pose proof (jsRound_le _ _ Hnn) as Hr0.
  change (jsRound 0) with 0%Z in Hr0.
  split; [|split; [lia|split; [lia|]]].
  - eexists _, _. split; [reflexivity|].
    destruct (findActive (scenes props) currentT) as [i|] eqn:Ei.
    + apply findActive_lt in Ei.
      split; [lia|]. split; [split; [lia|discriminate]|].
      intros j Hj. injection Hj as <-. lia.
    + split; [lia|]. split; [split; reflexivity|]. intros i Hi'. discriminate.
  - intro Hend.
    assert (H100 : 100 <= currentT / totalT * 100).
    { assert (1 <= currentT / totalT) by (apply Qle_shift_div_l; lra). lra. }
    pose proof (jsRound_le _ _ H100) as Hr1.
    change (jsRound 100) with 100%Z in Hr1. lia.
Qed.

Lemma export_progress_bounds_witness :
  let props := plainProps [sceneA; sceneB] in
  0 < 10 /\ 0 <= 2.5 /\ 2.5 <= 7 /\ isExportingRef exportStarted = true /\
  (statusProgress (status (snd (fst (exportLoop props true 10 true 7 noDraws
                                                exportStarted demoRefs)))) <= 99)%Z.
Proof.
  intro props.
  assert (H1 : 0 < 10) by reflexivity.
  assert (H2 : 0 <= 2.5) by discriminate.
  assert (H3 : 2.5 <= 7) by discriminate.
  assert (H4 : isExportingRef exportStarted = true) by reflexivity.
  repeat (split; [assumption|]).
  exact (proj1 (proj2 (proj2 (export_progress_bounds props true 10 2.5 7 noDraws noDraws
                                exportStarted exportStarted demoRefs demoRefs
                                H1 H2 H3 H4 H4)))).
Defined.

Lemma exportLoop_once props isPlaying totalT hasCanvas currentT r st refs :
  export_once st ->
  export_once (snd (fst (exportLoop props isPlaying totalT hasCanvas currentT r st refs))).
Proof.
  intros [Ht Hd]. unfold exportLoop, export_once, exportTokens in *.
  destruct (isExportingRef st); cbn [negb]; [|split; assumption].
  destruct hasCanvas; cbn [negb]; [|split; assumption].
  destruct (exportFrame props isPlaying r refs currentT) as [frame refs'].
  destruct (Qltb currentT totalT); cbn [fst snd]; [split; assumption|].
  cbn [recorder]. destruct (recorder st) eqn:Er; cbn [fst snd downloads stopQueued
    recorder audioCtx]; [split; assumption|].
  split; [|assumption]. destruct (stopQueued st); lia.
Qed.

Lemma export_step_once props isPlaying totalT s s' :
  export_step props isPlaying totalT s s' -> export_once (fst s) -> export_once (fst s').
Proof.
  intros Hstep Hinv.
  destruct Hstep as [st refs hasCanvas currentT r Hl
                    |st refs Hrec|st refs Hq|st refs Hflag|st refs crashed Hlater];
    cbn [fst] in *.
  - now apply exportLoop_once.
  - destruct Hinv as [Ht Hd]. unfold export_once, exportTokens in *.
    rewrite Hrec in Ht. cbn [downloads stopQueued recorder audioCtx].
    split; [|assumption]. destruct (stopQueued st); lia.
  - destruct Hinv as [Ht Hd]. unfold export_once, exportTokens, onstop in *.
    rewrite Hq in Ht. cbn [downloads stopQueued recorder audioCtx].
    split; [|reflexivity]. destruct (recorder st); lia.
  - exact Hinv.
  - exact Hinv.
Qed.

Lemma export_reachable_once props isPlaying totalT refs0 s :
  export_reachable props isPlaying totalT refs0 s -> export_once (fst s).
Proof.
  induction 1 as [|rec|s s' _ IH Hstep].
  - split; cbn; [lia|discriminate].
  - split; [|cbn; discriminate]. unfold exportTokens. cbn. destruct rec; lia.
  - exact (export_step_once _ _ _ _ _ Hstep IH).
Qed.

(** X17.  A started export run, or one whose set-up crashed, clicks the
    download link at most once, whatever the order in which frames, the
    recorder ending by itself, the 'stop' event and later export calls
    interleave.  Once it has, its audio context is closed, its recorder
    has stopped and no further 'stop' event is queued. *)
Theorem export_downloads_once props isPlaying totalT refs0 st refs :
  export_reachable props isPlaying totalT refs0 (st, refs) ->
  (downloads st <= 1)%nat
  /\ (downloads st = 1%nat ->
      audioCtx st = CtxClosed /\ recorder st = RecInactive /\ stopQueued st = false).
Proof.
  intro Hreach. apply export_reachable_once in Hreach.
  destruct Hreach as [Ht Hd]. cbn [fst] in *. unfold exportTokens in Ht.
  split; [lia|]. intro H1. split; [now apply Hd|].
  destruct (recorder st), (stopQueued st); try lia; split; reflexivity.
Qed.

Lemma export_downloads_once_witness :
  let props := cinemaProps [sceneA] in
  let stopped :=
    {| isExportingRef := true; isExporting := true;
       audioCtx := CtxRunning; recorder := RecInactive;
       stopQueued := true; loopScheduled := true;
       downloads := 0; status := StatusWarming; laterExport := false |} in
  let st := onstop stopped in
  export_reachable props true 10 demoRefs (st, demoRefs) /\
  downloads st = 1%nat /\ audioCtx st = CtxClosed.
Proof.
  intros props stopped st.
  assert (Hr : export_reachable props true 10 demoRefs (st, demoRefs)).
  { eapply reach_step; [eapply reach_step; [apply reach_start|]|].
    - apply (step_recorder_ends props true 10 exportStarted demoRefs). reflexivity.
    - apply (step_onstop props true 10 stopped demoRefs). reflexivity. }
  split; [exact Hr|]. split; [reflexivity|].
  exact (proj1 (proj2 (export_downloads_once props true 10 demoRefs st demoRefs Hr)
                 eq_refl)).
Defined.

(** ** Transitions of any type *)

(** X12.  Inside the transition window of a scene that is not the first, a tick
    renders the previous scene as outgoing and then the active one as
    incoming, whatever their transition types, and each layer follows the
    type of its own scene: the outgoing one fades with [1 - p] unless its
    scene is a polygon wipe, which stays opaque, and is enlarged by
    [1 + 4 p], from 1 to 5 times, when its scene is a zoom-through; the
    incoming one fades in with [p] unless its scene is a polygon wipe,
    which is opaque and the only one to be clipped. *)
Theorem transition_layers_follow_own_scene props isPlaying r refs t idx prev active :
  findActive (scenes props) t = Some idx ->
  (0 < idx)%nat ->
  nth_error (scenes props) (idx - 1) = Some prev ->
  nth_error (scenes props) idx = Some active ->
  t - startTime active < TRANSITION_DURATION ->
  let p := (t - startTime active) / TRANSITION_DURATION in
  0 <= p /\ p < 1 /\
  exists out inc,
    sceneRenders (fst (draw props isPlaying false r refs t)) = [out; inc]
    /\ sr_scene out = id prev /\ sr_outgoing out = true
    /\ sr_scene inc = id active /\ sr_outgoing inc = false
    /\ sr_opacity out == match transitionType prev with
                         | PolygonWipe => 1
                         | _ => 1 - p
                         end
    /\ sr_opacity inc == match transitionType active with
                         | PolygonWipe => 1
                         | _ => p
                         end
    /\ sr_scale out == match transitionType prev with
                       | ZoomThrough => restScale props prev t * (1 + 4 * p)
                       | _ => restScale props prev t
                       end
    /\ sr_scale inc == restScale props active t
    /\ sr_clip out = None
    /\ (sr_clip inc = None <-> transitionType active <> PolygonWipe).
Proof.
  intros Hidx Hpos Hprev Hact Hwin p.
  assert (Hstart : startTime active <= t).
  { destruct (findIndexFrom_Some _ _ _ _ Hidx) as (_ & a & Ha & Hp).
    rewrite Nat.sub_0_r, Hact in Ha. inversion Ha; subst a.
    now apply activeAt_iff in Hp. }
  unfold TRANSITION_DURATION in Hwin.
  assert (Hp : p == t - startTime active).
  { unfold p, TRANSITION_DURATION. field. }
  split; [lra|]. split; [lra|].
  rewrite (draw_sceneRenders _ _ _ _ _ _ _ Hidx Hact).
  unfold renderScenes.
  assert (Hc : ((0 <? idx)%nat && Qltb (t - startTime active) TRANSITION_DURATION) = true).
  { apply andb_true_intro. split; [now apply Nat.ltb_lt|].
    apply Qltb_lt. unfold TRANSITION_DURATION. exact Hwin. }
  rewrite Hc, Hprev. fold p.
  set (refs0 := preload refs active).
  pose proof (renderSceneFrame_opacity props isPlaying refs0 prev t p true) as Ho.
  pose proof (renderSceneFrame_who props isPlaying refs0 prev t p true) as [Ho1 Ho2].
  pose proof (renderSceneFrame_clip props isPlaying refs0 prev t p true) as Hoc.
  pose proof (renderSceneFrame_motion props isPlaying refs0 prev t p true) as (_ & _ & Hos).
  destruct (renderSceneFrame props isPlaying refs0 prev t p true) as [out refs1].
  pose proof (renderSceneFrame_opacity props isPlaying refs1 active t p false) as Hi.
  pose proof (renderSceneFrame_who props isPlaying refs1 active t p false) as [Hi1 Hi2].
  pose proof (renderSceneFrame_clip props isPlaying refs1 active t p false) as Hic.
  pose proof (renderSceneFrame_motion props isPlaying refs1 active t p false) as (_ & _ & His).
  destruct (renderSceneFrame props isPlaying refs1 active t p false) as [inc refs2].
  cbn [fst] in *. exists out, inc.
  split; [reflexivity|]. do 4 (split; [assumption|]).
  split; [rewrite Ho; destruct (transitionType prev); reflexivity|].
  split; [rewrite Hi; destruct (transitionType active); reflexivity|].
  split; [rewrite Hos; unfold restScale; destruct (transitionType prev);
          try reflexivity; ring|].
  split; [rewrite His; unfold restScale; destruct (transitionType active); reflexivity|].
  split; [rewrite Hoc; destruct (transitionType prev); reflexivity|].
  rewrite Hic. destruct (transitionType active); split; intro H;
    try reflexivity; try discriminate; congruence.
Qed.

Lemma transition_layers_follow_own_scene_witness :
  let zoom := {| id := "s1"; startTime := 0; endTime := 5;
                 imageUrl := Some "a.png"%string; videoClipUrl := None;
                 transitionType := ZoomThrough |} in
  let props := plainProps [zoom; sceneB] in
  findActive (scenes props) 5.5 = Some 1%nat /\
  (0 < 1)%nat /\
  nth_error (scenes props) (1 - 1) = Some zoom /\
  nth_error (scenes props) 1 = Some sceneB /\
  5.5 - startTime sceneB < TRANSITION_DURATION /\
  exists out inc,
    sceneRenders (fst (draw props true false noDraws demoRefs 5.5)) = [out; inc]
    /\ sr_scale out == 3 /\ sr_opacity out == 0.5 /\ sr_opacity inc == 0.5.
Proof.
  intros zoom props.
  assert (H1 : findActive (scenes props) 5.5 = Some 1%nat) by reflexivity.
  assert (H2 : (0 < 1)%nat) by lia.
  assert (H3 : nth_error (scenes props) (1 - 1) = Some zoom) by reflexivity.
  assert (H4 : nth_error (scenes props) 1 = Some sceneB) by reflexivity.
  assert (H5 : 5.5 - startTime sceneB < TRANSITION_DURATION) by reflexivity.
  repeat (split; [assumption|]).
  destruct (transition_layers_follow_own_scene props true noDraws demoRefs 5.5 1 zoom sceneB
              H1 H2 H3 H4 H5)
    as (_ & _ & out & inc & Hf & _ & _ & _ & _ & Hoo & Hio & Hos & _).
  exists out, inc. split; [exact Hf|].
  split; [rewrite Hos; reflexivity|]. split; [rewrite Hoo|rewrite Hio]; reflexivity.
Defined.

(* ================================================================== *)
(** * Properties of the retry engine *)
(* ================================================================== *)

Lemma delayMsOf_exact status (retries' : nat) :
  delayMsOf status (S retries') == baseDelayOf status * 2 ^ (2 - Z.of_nat retries')
  /\ 0 < delayMsOf status (S retries') /\ delayMsOf status (S retries') <= 20000.
Proof.
  unfold delayMsOf.
  replace (3 - Z.of_nat (S retries'))%Z with (2 - Z.of_nat retries')%Z by lia.
  assert (Hp : 0 < 2 ^ (2 - Z.of_nat retries')) by (apply Qpower_0_lt; reflexivity).
  assert (Hle : 2 ^ (2 - Z.of_nat retries') <= 2 ^ 2).
  { apply Qpower_le_compat_l; [lia|discriminate]. }
  change (2 ^ 2) with 4 in Hle.
  assert (Hb : baseDelayOf status = 5000 \/ baseDelayOf status = 1000).
  { unfold baseDelayOf. destruct status as [[|p|p]|]; auto.
    destruct (Pos.eq_dec p 429) as [->|Hn]; [now left|right].
    repeat (destruct p as [p|p|]; try reflexivity); exfalso; apply Hn; reflexivity. }
  set (pw := 2 ^ (2 - Z.of_nat retries')) in *. clearbody pw.
  destruct Hb as [-> | ->]; split_minmax; repeat split; try nra; try lra.
Qed.

Section RetryFacts.

Context {T State : Type}.
Variable apiKey : option string.
Variable operation : State -> (T + ApiError) * State.

Local Abbreviation run := (executeWithRetry apiKey operation).

(** X18.  With a usable key, a call of the engine calls the operation between
    once and [retries + 1] times, each time on the state the previous call
    left, and waits once between consecutive calls.  Every call but the
    last failed with a transient error; the engine ends as the last call
    did, returning its value or rethrowing its error; and it gives up on a
    transient error only when all [retries + 1] calls have been made. *)
Theorem retry_engine_attempts (retries : nat) (s : State) :
  keyMissing apiKey = false ->
  exists earlier last,
    callsOf (snd (fst (run retries s))) = earlier ++ [last]
    /\ Forall transientFailure earlier
    /\ (length earlier <= retries)%nat
    /\ length (waitsOf (snd (fst (run retries s)))) = length earlier
    /\ fst (fst (run retries s)) = settles last
    /\ (transientFailure last -> length earlier = retries)
    /\ snd (run retries s) = afterCalls operation (S (length earlier)) s
    /\ earlier ++ [last]
       = map (fun k => fst (operation (afterCalls operation k s)))
             (seq 0 (S (length earlier))).
Proof.
  intro Hkey. revert s. induction retries as [|r IH]; intro s.
  - cbn [executeWithRetry]. rewrite Hkey.
    destruct (operation s) as [[value|error] s1] eqn:Eop.
    + exists [], (inl value). cbn. rewrite Eop. repeat split; auto; try (intros H; destruct H).
    + exists [], (inr error). cbn. rewrite Eop. repeat split; auto.
  - cbn [executeWithRetry]. rewrite Hkey.
    destruct (operation s) as [[value|error] s1] eqn:Eop.
    + exists [], (inl value). cbn. rewrite Eop. repeat split; auto; try lia; try (intros H; destruct H).
    + destruct (isTransient (statusOf error)) eqn:Et.
      * destruct (IH s1) as (earlier & last & Hc & Hf & Hl & Hw & Hr & Hlast & Hs & Hm).
        destruct (run r s1) as [[result log] s2]. cbn [fst snd] in *.
        exists (inr error :: earlier), last. cbn [callsOf waitsOf length app].
        rewrite Hc, Hw, Hr.
        split; [reflexivity|]. split; [constructor; assumption|].
        split; [lia|]. split; [reflexivity|]. split; [reflexivity|].
        split; [intro H; f_equal; auto|].
        split.
        { rewrite Hs. cbn [afterCalls]. now rewrite Eop. }
        { rewrite Hm. cbn [seq map afterCalls]. rewrite Eop. cbn [fst snd].
          f_equal. rewrite <- !seq_shift, !map_map. cbn [afterCalls].
          rewrite Eop. reflexivity. }
      * exists [], (inr error). cbn. rewrite Eop.
        repeat split; auto; try lia. unfold transientFailure. congruence.
Qed.

(** X19.  The wait after the [k]-th failed call (counting from 0) of a run with
    [retries] retries lasts [baseDelay * 2 ^ (3 - retries + k)] ms, where
    [baseDelay] is 5000 after a 429 and 1000 otherwise: each wait is
    positive and at most 20000 ms, so the 45000 ms cap never applies. *)
Theorem retry_delay_schedule (retries : nat) (s : State) (k : nat) (d : Q) :
  keyMissing apiKey = false ->
  nth_error (waitsOf (snd (fst (run retries s)))) k = Some d ->
  exists error,
    nth_error (callsOf (snd (fst (run retries s)))) k = Some (inr error)
    /\ d == baseDelayOf (statusOf error) * 2 ^ (3 - Z.of_nat retries + Z.of_nat k)
    /\ 0 < d /\ d <= 20000.
Proof.
  intro Hkey. revert s k d. induction retries as [|r IH]; intros s k d.
  - cbn [executeWithRetry]. rewrite Hkey.
    destruct (operation s) as [[value|error] s1]; cbn; destruct k; discriminate.
  - cbn [executeWithRetry]. rewrite Hkey.
    destruct (operation s) as [[value|error] s1] eqn:Eop;
      [cbn; destruct k; discriminate|].
    destruct (isTransient (statusOf error)) eqn:Et;
      [|cbn; destruct k; discriminate].
    specialize (IH s1).
    destruct (run r s1) as [[result log] s2]. cbn [fst snd callsOf waitsOf] in *.
    destruct k as [|k]; cbn [nth_error].
    + intro H. injection H as <-. exists error. split; [reflexivity|].
      destruct (delayMsOf_exact (statusOf error) r) as (He & Hp & Hle).
      split; [|split; assumption].
      rewrite He. replace (3 - Z.of_nat (S r) + Z.of_nat 0)%Z with (2 - Z.of_nat r)%Z by lia.
      reflexivity.
    + intro H. destruct (IH k d H) as (e & Hc & Hd & Hp & Hle).
      exists e. split; [assumption|]. split; [|split; assumption].
      rewrite Hd.
      replace (3 - Z.of_nat (S r) + Z.of_nat (S k))%Z
        with (3 - Z.of_nat r + Z.of_nat k)%Z by lia.
      reflexivity.
Qed.

(** X20.  Without a usable key the engine throws its own error at once: the
    operation is not called, nothing is waited for, the state is
    untouched. *)
Theorem retry_without_key (retries : nat) (s : State) :
  keyMissing apiKey = true ->
  run retries s = (inr MissingKey, [], s).
Proof. intro Hkey. destruct retries; cbn [executeWithRetry]; now rewrite Hkey. Qed.

(** X21.  An error that is not transient (a status other than 429 that is
    non-zero and below 500) is rethrown after a single call, with no
    wait, however many retries were allowed. *)
Theorem retry_stops_on_client_error (retries : nat) (s : State) (error : ApiError) :
  keyMissing apiKey = false ->
  fst (operation s) = inr error ->
  isTransient (statusOf error) = false ->
  run retries s = (inr (Thrown error), [Called (inr error)], snd (operation s)).
Proof.
  intros Hkey Hop Ht.
  destruct (operation s) as [out s1] eqn:Eop. cbn [fst snd] in *. subst out.
  destruct retries; cbn [executeWithRetry]; rewrite Hkey, Eop; [reflexivity|].
  now rewrite Ht.
Qed.

End RetryFacts.

Lemma retry_engine_attempts_witness :
  keyMissing (Some "k"%string) = false /\
  fst (fst (executeWithRetry (Some "k"%string) (scripted [503; 429]%Z) 3 0%nat))
  = inl 2%nat /\
  length (waitsOf (snd (fst (executeWithRetry (Some "k"%string)
                                              (scripted [503; 429]%Z) 3 0%nat)))) = 2%nat.
Proof.
  assert (Hk : keyMissing (Some "k"%string) = false) by reflexivity.
  split; [exact Hk|].
  destruct (retry_engine_attempts (Some "k"%string) (scripted [503; 429]%Z) 3 0%nat Hk)
    as (earlier & last & _).
  split; reflexivity.
Defined.

Lemma retry_delay_schedule_witness :
  keyMissing (Some "k"%string) = false /\
  nth_error (waitsOf (snd (fst (executeWithRetry (Some "k"%string)
                                                 (scripted [503; 429]%Z) 3 0%nat)))) 1
  = Some 10000 /\
  10000 <= 20000.
Proof.
  assert (Hk : keyMissing (Some "k"%string) = false) by reflexivity.
  assert (Hn : nth_error (waitsOf (snd (fst (executeWithRetry (Some "k"%string)
                                    (scripted [503; 429]%Z) 3 0%nat)))) 1 = Some 10000)
    by reflexivity.
  split; [exact Hk|]. split; [exact Hn|].
  destruct (retry_delay_schedule (Some "k"%string) (scripted [503; 429]%Z) 3 0%nat 1 10000
              Hk Hn) as (e & _ & _ & _ & Hle).
  exact Hle.
Defined.

Lemma retry_without_key_witness :
  keyMissing (Some "undefined"%string) = true /\
  executeWithRetry (Some "undefined"%string) (scripted []) 3 0%nat
  = (inr MissingKey, [], 0%nat).
Proof.
  assert (Hk : keyMissing (Some "undefined"%string) = true) by reflexivity.
  split; [exact Hk|].
  exact (retry_without_key (Some "undefined"%string) (scripted []) 3 0%nat Hk).
Defined.

Lemma retry_stops_on_client_error_witness :
  let error := {| err_status := Some 400%Z; err_responseStatus := None |} in
  keyMissing (Some "k"%string) = false /\
  fst (scripted [400%Z] 0%nat) = inr error /\
  isTransient (statusOf error) = false /\
  executeWithRetry (Some "k"%string) (scripted [400%Z]) 5 0%nat
  = (inr (Thrown error), [Called (inr error)], 1%nat).
Proof.
  intro error.
  assert (Hk : keyMissing (Some "k"%string) = false) by reflexivity.
  assert (Ho : fst (scripted [400%Z] 0%nat) = inr error) by reflexivity.
  assert (Ht : isTransient (statusOf error) = false) by reflexivity.
  repeat (split; [assumption|]).
  exact (retry_stops_on_client_error (Some "k"%string) (scripted [400%Z]) 5 0%nat error
           Hk Ho Ht).
Defined.

(* ================================================================== *)
(** * Properties of scene generation *)
(* ================================================================== *)

Lemma nth_error_map_indexed {A B} (f : nat * A -> B) (l : list A) : forall a i,
  nth_error (map f (combine (seq a (length l)) l)) i
  = option_map (fun x => f ((a + i)%nat, x)) (nth_error l i).
Proof.
  induction l as [|x l IH]; intros a i; cbn [length seq combine map].
  - destruct i; reflexivity.
  - destruct i as [|i]; cbn [nth_error option_map].
    + now rewrite Nat.add_0_r.
    + rewrite IH. now replace (S a + i)%nat with (a + S i)%nat by lia.
Qed.

Lemma generateScenes_length dateNow scenesData totalDuration :
  length (generateScenes dateNow scenesData totalDuration) = length scenesData.
Proof.
  unfold generateScenes. rewrite length_map, length_combine, length_seq. lia.
Qed.

Lemma generateScenes_times dateNow scenesData totalDuration i scene :
  nth_error (map fst (generateScenes dateNow scenesData totalDuration)) i = Some scene ->
  (i < length scenesData)%nat
  /\ startTime scene = Qi i * (totalDuration / Qi (length scenesData))
  /\ endTime scene = (Qi i + 1) * (totalDuration / Qi (length scenesData))
  /\ imageUrl scene = None /\ videoClipUrl scene = None.
Proof.
  intro H. rewrite nth_error_map in H.
  unfold generateScenes in H. rewrite nth_error_map_indexed in H.
  destruct (nth_error scenesData i) as [s|] eqn:Es; [|discriminate].
  assert (Hi : (i < length scenesData)%nat) by (apply nth_error_Some; congruence).
  destruct (0 <? length scenesData)%nat eqn:E0; [|apply Nat.ltb_ge in E0; lia].
  cbn in H. injection H as <-. cbn. repeat split; assumption.
Qed.



(** ** Identifiers of generated scenes *)

Lemma string_of_uint_dashFree (d : Decimal.uint) :
  dashFree (NilEmpty.string_of_uint d) = true.
Proof. induction d; cbn; auto. Qed.

Lemma string_of_uint_inj (d d' : Decimal.uint) :
  NilEmpty.string_of_uint d = NilEmpty.string_of_uint d' -> d = d'.
Proof.
  intro H. apply (f_equal NilEmpty.uint_of_string) in H.
  rewrite !NilEmpty.usu in H. congruence.
Qed.

Lemma append_dash_inj (a a' b b' : string) :
  dashFree a = true -> dashFree a' = true ->
  (a ++ String "-" b)%string = (a' ++ String "-" b')%string -> a = a'.
Proof.
  revert a'. induction a as [|c a IH]; intros [|c' a'] Ha Ha' H; cbn in *.
  - reflexivity.
  - injection H as Hc _. subst c'. cbn in Ha'. discriminate.
  - injection H as Hc _. subst c. cbn in Ha. discriminate.
  - injection H as -> H.
    apply andb_true_iff in Ha. apply andb_true_iff in Ha'.
    f_equal. apply IH; tauto.
Qed.

Lemma map_combine_seq {A B} (g : nat -> B) (l : list A) : forall a,
  map (fun p : nat * A => g (fst p)) (combine (seq a (length l)) l)
  = map g (seq a (length l)).
Proof.
  induction l as [|x l IH]; intro a; cbn [length seq combine map]; [reflexivity|].
  cbn [fst]. now rewrite IH.
Qed.

(** X23.  The scenes of one generation carry pairwise distinct identifiers,
    whatever the clock returns while they are made: the position of a
    scene is spelled out in its identifier. *)
Theorem generated_ids_distinct dateNow (scenesData : list SceneData) (totalDuration : Q) :
  NoDup (map (fun s => id (fst s)) (generateScenes dateNow scenesData totalDuration))
  /\ forall i s,
       nth_error (generateScenes dateNow scenesData totalDuration) i = Some s ->
       id (fst s)
       = ("scene-" ++ decimalOfNat i ++ "-" ++ decimalOfN (dateNow i))%string.
Proof.
  split.
  - unfold generateScenes. rewrite map_map.
    set (sceneId := fun i : nat =>
           ("scene-" ++ decimalOfNat i ++ "-" ++ decimalOfN (dateNow i))%string).
    rewrite (map_ext _ (fun p : nat * SceneData => sceneId (fst p)))
      by (intros [i s]; reflexivity).
    rewrite map_combine_seq.
    apply NoDup_map_NoDup_ForallPairs; [|apply seq_NoDup].
    intros i j _ _ H. unfold sceneId in H. cbn in H.
    repeat match type of H with String _ _ = String _ _ => injection H as H end.
    apply append_dash_inj in H; try apply string_of_uint_dashFree.
    apply string_of_uint_inj in H. now apply Unsigned.to_uint_inj.
  - intros i s H. unfold generateScenes in H. rewrite nth_error_map_indexed in H.
    destruct (nth_error scenesData i); [|discriminate].
    cbn in H. injection H as <-. reflexivity.
Qed.

(* ================================================================== *)
(** * Properties of narration chunking and merging *)
(* ================================================================== *)

Lemma lastIndexDown_Some s : forall k j,
  lastIndexDown s k = Some j ->
  (j <= k)%nat /\ periodSpaceAt s j = true
  /\ forall j', (j < j' <= k)%nat -> periodSpaceAt s j' = false.
Proof.
  induction k as [|k IH]; intros j H; cbn [lastIndexDown] in H.
  - destruct (periodSpaceAt s 0) eqn:E; [|discriminate].
    injection H as <-. repeat split; auto. intros j' Hj. lia.
  - destruct (periodSpaceAt s (S k)) eqn:E.
    + injection H as <-. repeat split; auto. intros j' Hj. lia.
    + destruct (IH j H) as (Hle & Hp & Hmax). repeat split; auto.
      intros j' Hj. destruct (Nat.eq_dec j' (S k)) as [->|Hn]; [assumption|].
      apply Hmax. lia.
Qed.

Lemma lastIndexDown_None s : forall k,
  lastIndexDown s k = None -> forall j', (j' <= k)%nat -> periodSpaceAt s j' = false.
Proof.
  induction k as [|k IH]; intros H j' Hj; cbn [lastIndexDown] in H.
  - destruct (periodSpaceAt s 0) eqn:E; [discriminate|].
    now replace j' with 0%nat by lia.
  - destruct (periodSpaceAt s (S k)) eqn:E; [discriminate|].
    destruct (Nat.eq_dec j' (S k)) as [->|Hn]; [assumption|]. apply IH; [assumption|lia].
Qed.

Lemma periodSpaceAt_bound s k : periodSpaceAt s k = true -> (k + 2 <= length s)%nat.
Proof.
  unfold periodSpaceAt. destruct (nth_error s k) eqn:E1; [|discriminate].
  destruct (nth_error s (S k)) eqn:E2; [|discriminate]. intros _.
  assert (S k < length s)%nat by (apply nth_error_Some; congruence). lia.
Qed.

(** How one iteration of the chunking loop settles [end]. *)
Lemma chunkEnd_cases (s : JsString) (pos : nat) :
  (pos < length s)%nat ->
  let e := chunkEnd s pos in
  (pos < e <= length s)%nat /\ (e <= pos + 801)%nat
  /\ ((e = length s /\ (length s <= pos + 800)%nat)
      \/ (e = (pos + 800)%nat /\ (e < length s)%nat
          /\ forall k, (pos < k <= pos + 800)%nat -> periodSpaceAt s k = false)
      \/ ((pos + 1 < e)%nat /\ (e < length s)%nat
          /\ periodSpaceAt s (e - 1) = true
          /\ forall k, (e <= k <= pos + 800)%nat -> periodSpaceAt s k = false)).
Proof.
  intros Hpos. cbv zeta. unfold chunkEnd.
  destruct (Nat.min (pos + 800) (length s) <? length s)%nat eqn:Elt.
  - apply Nat.ltb_lt in Elt.
    assert (Hmin : Nat.min (pos + 800) (length s) = (pos + 800)%nat) by lia.
    rewrite Hmin in *. unfold lastIndexOf.
    destruct (length s <? 2)%nat eqn:E2; [apply Nat.ltb_lt in E2; lia|].
    apply Nat.ltb_ge in E2.
    destruct (lastIndexDown s (Nat.min (pos + 800) (length s - 2))) as [lp|] eqn:El.
    + apply lastIndexDown_Some in El. destruct El as (Hle & Hp & Hmax).
      pose proof (periodSpaceAt_bound _ _ Hp) as Hb.
      destruct (pos <? lp)%nat eqn:Ep.
      * apply Nat.ltb_lt in Ep. split; [lia|]. split; [lia|].
        right. right. split; [lia|]. split; [lia|].
        split; [now replace (lp + 1 - 1)%nat with lp by lia|].
        intros k Hk.
        destruct (Nat.le_gt_cases k (length s - 2)) as [Hk2|Hk2].
        -- apply Hmax. lia.
        -- destruct (periodSpaceAt s k) eqn:Ek; [|reflexivity].
           apply periodSpaceAt_bound in Ek. lia.
      * apply Nat.ltb_ge in Ep. split; [lia|]. split; [lia|].
        right. left. split; [reflexivity|]. split; [assumption|].
        intros k Hk.
        destruct (Nat.le_gt_cases k (length s - 2)) as [Hk2|Hk2].
        -- apply Hmax. lia.
        -- destruct (periodSpaceAt s k) eqn:Ek; [|reflexivity].
           apply periodSpaceAt_bound in Ek. lia.
    + split; [lia|]. split; [lia|].
      right. left. split; [reflexivity|]. split; [assumption|].
      intros k Hk.
      destruct (Nat.le_gt_cases k (length s - 2)) as [Hk2|Hk2].
      * apply (lastIndexDown_None _ _ El). lia.
      * destruct (periodSpaceAt s k) eqn:Ek; [|reflexivity].
        apply periodSpaceAt_bound in Ek. lia.
  - apply Nat.ltb_ge in Elt. split; [lia|]. split; [lia|]. left. lia.
Qed.

Lemma substring_ordered (s : JsString) (a b : nat) :
  (a <= b <= length s)%nat -> substring s a b = firstn (b - a) (skipn a s).
Proof.
  intros [Hab Hb]. unfold substring.
  replace (Nat.min a (length s)) with a by lia.
  replace (Nat.min b (length s)) with b by lia.
  replace (Nat.min a b) with a by lia. replace (Nat.max a b) with b by lia.
  reflexivity.
Qed.

Lemma skipn_substring (s : JsString) (a b : nat) :
  (a <= b <= length s)%nat -> skipn a s = substring s a b ++ skipn b s.
Proof.
  intros H. rewrite substring_ordered by assumption.
  rewrite <- (firstn_skipn (b - a) (skipn a s)) at 1. f_equal.
  rewrite skipn_skipn. f_equal. lia.
Qed.

Lemma trimStart_length (s : JsString) : (length (trimStart s) <= length s)%nat.
Proof.
  induction s as [|c s IH]; cbn; [lia|]. destruct (isWhiteSpace c); cbn; lia.
Qed.

Lemma trim_length (s : JsString) : (length (trim s) <= length s)%nat.
Proof.
  unfold trim, trimEnd. rewrite length_rev.
  etransitivity; [apply trimStart_length|]. rewrite length_rev. apply trimStart_length.
Qed.

Lemma chunkLoop_cuts (s : JsString) : forall fuel pos,
  (length s - pos <= fuel)%nat ->
  chunkLoop fuel s pos
  = Some (map (fun c => trim (substring s (fst c) (snd c))) (chunkCuts fuel s pos)).
Proof.
  induction fuel as [|fuel IH]; intros pos Hf; cbn [chunkLoop chunkCuts].
  - destruct (pos <? length s)%nat eqn:E; [apply Nat.ltb_lt in E; lia|reflexivity].
  - destruct (pos <? length s)%nat eqn:E; [|reflexivity].
    apply Nat.ltb_lt in E.
    destruct (chunkEnd_cases s pos E) as ((He & _) & _).
    rewrite IH by lia. reflexivity.
Qed.

Lemma chunkCuts_chain (s : JsString) : forall fuel pos,
  (length s - pos <= fuel)%nat -> (pos <= length s)%nat ->
  cutsChain pos (length s) (chunkCuts fuel s pos)
  /\ concat (map (fun c => substring s (fst c) (snd c)) (chunkCuts fuel s pos))
     = skipn pos s
  /\ Forall (fun c => (fst c < length s)%nat /\ snd c = chunkEnd s (fst c))
            (chunkCuts fuel s pos).
Proof.
  induction fuel as [|fuel IH]; intros pos Hf Hp; cbn [chunkCuts].
  - destruct (pos <? length s)%nat eqn:E; [apply Nat.ltb_lt in E; lia|].
    assert (pos = length s) by lia. subst pos. cbn.
    rewrite skipn_all. repeat split; auto.
  - destruct (pos <? length s)%nat eqn:E.
    + apply Nat.ltb_lt in E.
      destruct (chunkEnd_cases s pos E) as ((He & He') & _).
      destruct (IH (chunkEnd s pos)) as (Hc & Hcat & Hall); [lia|lia|].
      cbn [cutsChain map concat fst snd]. rewrite Hcat.
      split; [split; [reflexivity|assumption]|].
      split; [symmetry; apply skipn_substring; lia|].
      constructor; [split; [assumption|reflexivity]|assumption].
    + apply Nat.ltb_ge in E. assert (pos = length s) by lia. subst pos. cbn.
      rewrite skipn_all. repeat split; auto.
Qed.

Lemma chunkCuts_fuel (s : JsString) : forall fuel fuel' pos,
  (length s - pos <= fuel)%nat -> (length s - pos <= fuel')%nat ->
  chunkCuts fuel s pos = chunkCuts fuel' s pos.
Proof.
  induction fuel as [|fuel IH]; intros fuel' pos Hf Hf'.
  - destruct fuel'; cbn [chunkCuts];
      (destruct (pos <? length s)%nat eqn:E; [apply Nat.ltb_lt in E; lia|reflexivity]).
  - destruct fuel' as [|fuel']; cbn [chunkCuts];
      (destruct (pos <? length s)%nat eqn:E; [apply Nat.ltb_lt in E|reflexivity]);
      [lia|].
    destruct (chunkEnd_cases s pos E) as ((He & _) & _).
    f_equal. apply IH; lia.
Qed.

(** X24.  The chunking loop terminates within as many iterations as the text
    has code units, and more fuel changes nothing.  Its cuts are
    consecutive from 0 to the end of the text, so the pieces it takes,
    before trimming, concatenate to the text.  Each piece holds between 1
    and 801 code units, hence each chunk sent for synthesis at most 801.
    A piece that stops short of the end of the text either is exactly 800
    units long, when no ['. '] starts after its first unit within reach,
    or stops right after the last period-then-space in reach. *)
Theorem voiceover_chunks_cover_text (cleanedText : JsString) :
  let n := length cleanedText in
  exists cuts,
    (forall fuel, (n <= fuel)%nat ->
       chunkLoop fuel cleanedText 0
       = Some (map (fun c => trim (substring cleanedText (fst c) (snd c))) cuts))
    /\ cutsChain 0 n cuts
    /\ concat (map (fun c => substring cleanedText (fst c) (snd c)) cuts) = cleanedText
    /\ Forall (fun c =>
         let pos := fst c in
         let e := snd c in
         (pos < e <= n)%nat /\ (e <= pos + 801)%nat
         /\ (length (trim (substring cleanedText pos e)) <= 801)%nat
         /\ ((e = n /\ (n <= pos + 800)%nat)
             \/ (e = (pos + 800)%nat /\ (e < n)%nat
                 /\ forall k, (pos < k <= pos + 800)%nat ->
                              periodSpaceAt cleanedText k = false)
             \/ ((pos + 1 < e)%nat /\ (e < n)%nat
                 /\ periodSpaceAt cleanedText (e - 1) = true
                 /\ forall k, (e <= k <= pos + 800)%nat ->
                              periodSpaceAt cleanedText k = false))) cuts.
Proof.
  intro n. exists (chunkCuts n cleanedText 0).
  destruct (chunkCuts_chain cleanedText n 0) as (Hc & Hcat & Hall); [lia|lia|].
  split; [|split; [exact Hc|split; [exact Hcat|]]].
  - intros fuel Hf. rewrite chunkLoop_cuts by lia.
    f_equal. f_equal. apply chunkCuts_fuel; lia.
  - eapply Forall_impl; [|exact Hall]. intros [pos e] [Hpos He]. cbn [fst snd] in *.
    subst e. destruct (chunkEnd_cases cleanedText pos Hpos) as (Hb & Hb' & Hcases).
    split; [assumption|]. split; [assumption|]. split; [|exact Hcases].
    etransitivity; [apply trim_length|].
    rewrite substring_ordered by lia. rewrite length_firstn. lia.
Qed.

(** ** Text cleaning *)

Lemma trimStart_split (s : JsString) :
  exists lead, s = lead ++ trimStart s /\ Forall (fun c => isWhiteSpace c = true) lead.
Proof.
  induction s as [|c s (lead & Hs & Hl)]; [exists []; split; [reflexivity|constructor]|].
  cbn [trimStart]. destruct (isWhiteSpace c) eqn:E.
  - exists (c :: lead). split; [cbn; now f_equal|now constructor].
  - exists []. split; [reflexivity|constructor].
Qed.

Lemma trimStart_head (s : JsString) c rest :
  trimStart s = c :: rest -> isWhiteSpace c = false.
Proof.
  induction s as [|x s IH]; cbn [trimStart]; [discriminate|].
  destruct (isWhiteSpace x) eqn:E; [exact IH|]. intro H. injection H as <- _. exact E.
Qed.

Lemma trimStart_fixed (s : JsString) :
  (forall c rest, s = c :: rest -> isWhiteSpace c = false) -> trimStart s = s.
Proof.
  destruct s as [|c s]; [reflexivity|]. intro H. cbn [trimStart].
  now rewrite (H c s eq_refl).
Qed.

Lemma trimStart_idem (s : JsString) : trimStart (trimStart s) = trimStart s.
Proof. apply trimStart_fixed. intros c rest. apply trimStart_head. Qed.

Lemma trimStart_snoc (s : JsString) c :
  isWhiteSpace c = false -> trimStart (s ++ [c]) = trimStart s ++ [c].
Proof.
  intro Hc. induction s as [|x s IH]; cbn [app trimStart].
  - now rewrite Hc.
  - destruct (isWhiteSpace x); [exact IH|reflexivity].
Qed.

Lemma trimEnd_split (s : JsString) :
  exists trail, s = trimEnd s ++ trail /\ Forall (fun c => isWhiteSpace c = true) trail.
Proof.
  unfold trimEnd. destruct (trimStart_split (rev s)) as (lead & Hs & Hl).
  exists (rev lead). split.
  - rewrite <- rev_app_distr, <- Hs. now rewrite rev_involutive.
  - now apply Forall_rev.
Qed.

Lemma trimEnd_last (s : JsString) c front :
  trimEnd s = front ++ [c] -> isWhiteSpace c = false.
Proof.
  unfold trimEnd. intro H.
  apply (f_equal (@rev N)) in H. rewrite rev_involutive, rev_app_distr in H.
  cbn in H. exact (trimStart_head _ _ _ H).
Qed.

Lemma trimEnd_head (s : JsString) c rest :
  isWhiteSpace c = false -> exists rest', trimEnd (c :: rest) = c :: rest'.
Proof.
  intro Hc. unfold trimEnd. cbn [rev]. rewrite trimStart_snoc by assumption.
  rewrite rev_app_distr. cbn. eauto.
Qed.

Lemma trimEnd_idem (s : JsString) : trimEnd (trimEnd s) = trimEnd s.
Proof. unfold trimEnd. now rewrite rev_involutive, trimStart_idem. Qed.

Lemma trim_head (s : JsString) c rest : trim s = c :: rest -> isWhiteSpace c = false.
Proof.
  unfold trim. destruct (trimStart s) as [|x t] eqn:E; [discriminate|].
  pose proof (trimStart_head _ _ _ E) as Hx.
  destruct (trimEnd_head t x t Hx) as [rest' Hr]. rewrite Hr.
  intro H. injection H as <- _. exact Hx.
Qed.

Lemma trim_idem (s : JsString) : trim (trim s) = trim s.
Proof.
  unfold trim at 1. rewrite (trimStart_fixed (trim s)) by apply trim_head.
  unfold trim. apply trimEnd_idem.
Qed.

Lemma trim_split (s : JsString) :
  exists lead trail,
    s = lead ++ trim s ++ trail
    /\ Forall (fun c => isWhiteSpace c = true) lead
    /\ Forall (fun c => isWhiteSpace c = true) trail.
Proof.
  destruct (trimStart_split s) as (lead & Hs & Hl).
  destruct (trimEnd_split (trimStart s)) as (trail & Ht & Htl).
  exists lead, trail. unfold trim. split; [|split; assumption].
  now rewrite <- Ht.
Qed.

(** X25.  The text sent for synthesis holds none of the characters [*_#~`] and
    neither starts nor ends with white space; it is the input with those
    characters deleted and the white space at both ends stripped, nothing
    else, and cleaning it again leaves it as it is. *)
Theorem clean_text_is_stripped (text : JsString) :
  let cleaned := cleanText text in
  Forall (fun c => isMarkup c = false) cleaned
  /\ (forall c rest, cleaned = c :: rest -> isWhiteSpace c = false)
  /\ (forall c front, cleaned = front ++ [c] -> isWhiteSpace c = false)
  /\ (exists lead trail,
        filter (fun c => negb (isMarkup c)) text = lead ++ cleaned ++ trail
        /\ Forall (fun c => isWhiteSpace c = true) lead
        /\ Forall (fun c => isWhiteSpace c = true) trail)
  /\ (length cleaned <= length text)%nat
  /\ cleanText cleaned = cleaned.
Proof.
  cbv zeta. unfold cleanText.
  set (kept := filter (fun c => negb (isMarkup c)) text).
  assert (Hk : Forall (fun c => isMarkup c = false) kept).
  { rewrite Forall_forall. intros c Hin. apply filter_In in Hin.
    destruct Hin as [_ H]. now apply negb_true_iff in H. }
  destruct (trim_split kept) as (lead & trail & Hs & Hl & Ht).
  assert (Hc : Forall (fun c => isMarkup c = false) (trim kept)).
  { rewrite Hs in Hk. apply Forall_app in Hk. destruct Hk as [_ Hk].
    apply Forall_app in Hk. now destruct Hk. }
  split; [exact Hc|]. split; [apply trim_head|].
  split; [intros c front; unfold trim; apply trimEnd_last|].
  split; [exists lead, trail; auto|]. split.
  - etransitivity; [apply trim_length|]. apply filter_length_le.
  - assert (Hf : filter (fun c => negb (isMarkup c)) (trim kept) = trim kept).
    { apply forallb_filter_id. apply forallb_forall. rewrite Forall_forall in Hc.
      intros c Hin. now rewrite (Hc c Hin). }
    rewrite Hf. apply trim_idem.
Qed.

(** ** Merging the synthesised audio *)

Lemma totalLen_concat (audioChunks : list (list Z)) : forall acc,
  fold_left (fun acc curr => (acc + length curr)%nat) audioChunks acc
  = (acc + length (concat audioChunks))%nat.
Proof.
  induction audioChunks as [|c cs IH]; intro acc; cbn [fold_left concat].
  - cbn [length]. lia.
  - rewrite IH, length_app. lia.
Qed.

Lemma merge_fold (audioChunks : list (list Z)) : forall done zeros,
  (length (concat audioChunks) <= length zeros)%nat ->
  fold_left (fun state chunk =>
               match state with
               | Some (merged, offset) =>
                   match typedArraySet merged chunk offset with
                   | Some merged' => Some (merged', (offset + length chunk)%nat)
                   | None => None
                   end
               | None => None
               end)
            audioChunks (Some (done ++ zeros, length done))
  = Some (done ++ concat audioChunks ++ skipn (length (concat audioChunks)) zeros,
          (length done + length (concat audioChunks))%nat).
Proof.
  induction audioChunks as [|c cs IH]; intros done zeros Hlen;
    cbn [fold_left concat] in *.
  - cbn. now rewrite Nat.add_0_r.
  - rewrite length_app in Hlen. unfold typedArraySet at 2.
    rewrite length_app.
    destruct (length done + length c <=? length done + length zeros)%nat eqn:E;
      [|apply Nat.leb_gt in E; lia].
    rewrite firstn_app, firstn_all, Nat.sub_diag, firstn_O, app_nil_r.
    rewrite skipn_app, skipn_all2 by lia.
    replace (length done + length c - length done)%nat with (length c) by lia.
    cbn [app].
    replace (done ++ c ++ skipn (length c) zeros)
      with ((done ++ c) ++ skipn (length c) zeros) by now rewrite app_assoc.
    replace (length done + length c)%nat with (length (done ++ c))
      by now rewrite length_app.
    rewrite IH by (rewrite length_skipn; lia).
    rewrite skipn_skipn, !length_app, <- !app_assoc.
    rewrite (Nat.add_comm (length (concat cs)) (length c)), Nat.add_assoc.
    reflexivity.
Qed.

(** X26.  The merge never overruns the array it allocated and yields the audio
    chunks' bytes end to end, in order.  Wrapped by [createWavBlob], they
    follow a header that re-parses as mono, 16-bit, 24000 Hz, with a data
    size equal to their number, as long as that number fits the 32-bit
    size fields. *)
Theorem voiceover_merge_is_concat (audioChunks : list (list Z)) :
  mergePcm audioChunks = Some (concat audioChunks)
  /\ exists blob,
       initialBlob audioChunks = Some blob
       /\ blob_type blob = "audio/wav"%string
       /\ skipn 44 (blob_bytes blob) = concat audioChunks
       /\ ((36 + Z.of_nat (length (concat audioChunks)) < 4294967296)%Z ->
           exists h,
             parseWavHeader (blob_bytes blob) = Some h
             /\ wav_sampleRate h = 24000%Z /\ wav_channels h = 1%Z
             /\ wav_bitsPerSample h = 16%Z
             /\ wav_dataSize h = Z.of_nat (length (concat audioChunks))
             /\ wav_riffSize h = (36 + wav_dataSize h)%Z).
Proof.
  assert (Hm : mergePcm audioChunks = Some (concat audioChunks)).
  { unfold mergePcm. rewrite totalLen_concat. cbn [Nat.add].
    pose proof (merge_fold audioChunks [] (repeat 0%Z (length (concat audioChunks)))) as H.
    cbn [app length] in H. rewrite H by (rewrite repeat_length; lia).
    cbn [option_map fst].
    rewrite skipn_all2 by (rewrite repeat_length; lia). now rewrite app_nil_r. }
  split; [exact Hm|].
  unfold initialBlob. rewrite Hm. cbn [option_map].
  eexists. split; [reflexivity|]. split; [reflexivity|].
  split; [rewrite createWavBlob_bytes; reflexivity|].
  intro Hfit. eexists. split; [apply parse_createWavBlob|].
  cbn [wav_sampleRate wav_channels wav_bitsPerSample wav_dataSize wav_riffSize].
  rewrite !Z.mod_small by lia. repeat split; reflexivity.
Qed.

(* ================================================================== *)
(** * Properties of the editor's asset import and batch schedule *)
(* ================================================================== *)

Lemma findIndexFrom_skip {A} (pred : A -> bool) (l1 : list A) (x : A) (l2 : list A) :
  Forall (fun a => pred a = false) l1 -> pred x = true ->
  forall i, findIndexFrom pred (l1 ++ x :: l2) i = Some (i + length l1)%nat.
Proof.
  intros H1 Hx. induction H1 as [|a l1 Ha _ IH]; intro i; cbn [app findIndexFrom length].
  - rewrite Hx. f_equal. lia.
  - rewrite Ha, IH. f_equal. lia.
Qed.

Lemma indexOf_rank (f : SceneObject -> bool) (pre : list SceneObject) (o : SceneObject)
      (post : list SceneObject) :
  NoDup (map so_ref (pre ++ o :: post)) -> f o = true ->
  indexOf (filter f (pre ++ o :: post)) o = Some (length (filter f pre)).
Proof.
  intros Hnd Hf. unfold indexOf. rewrite filter_app. cbn [filter]. rewrite Hf.
  rewrite findIndexFrom_skip; [reflexivity| |apply Nat.eqb_refl].
  rewrite Forall_forall. intros a Ha. apply filter_In in Ha. destruct Ha as [Ha _].
  apply Nat.eqb_neq. intro Heq.
  rewrite map_app in Hnd. cbn [map] in Hnd.
  apply NoDup_remove_2 in Hnd. apply Hnd. apply in_or_app. left.
  rewrite <- Heq. now apply in_map.
Qed.

Lemma nth_error_split_at {A} (l : list A) (i : nat) (x : A) :
  nth_error l i = Some x -> l = firstn i l ++ x :: skipn (S i) l.
Proof.
  revert i. induction l as [|a l IH]; intros [|i] H; cbn in *; try discriminate.
  - now injection H as ->.
  - f_equal. now apply IH.
Qed.

Lemma bulk_assign_nth (f : SceneObject -> bool) (upd : Scene -> string -> Scene)
      (urls : list string) (l : list SceneObject) (i : nat) (scene : SceneObject) :
  NoDup (map so_ref l) ->
  nth_error l i = Some scene ->
  nth_error
    (map (fun scene =>
            if f scene then
              match indexOf (filter f l) scene with
              | Some idx =>
                  match nth_error urls idx with
                  | Some url => (upd (so_scene scene) url, so_info scene)
                  | None => (so_scene scene, so_info scene)
                  end
              | None => (so_scene scene, so_info scene)
              end
            else (so_scene scene, so_info scene)) l) i
  = Some (if f scene then
            match nth_error urls (length (filter f (firstn i l))) with
            | Some url => (upd (so_scene scene) url, so_info scene)
            | None => (so_scene scene, so_info scene)
            end
          else (so_scene scene, so_info scene)).
Proof.
  intros Hnd Hn. rewrite nth_error_map, Hn. cbn [option_map]. f_equal.
  destruct (f scene) eqn:Ef; [|reflexivity].
  pose proof (nth_error_split_at _ _ _ Hn) as Hsplit.
  rewrite Hsplit in Hnd.
  rewrite Hsplit at 1. now rewrite (indexOf_rank f _ _ _ Hnd Ef).
Qed.

(** X27.  When the scene objects are distinct, the imported images go to the
    scenes of medium 'image' in list order: the image scene preceded by
    [k] other image scenes gets the [k]-th picture as its [imageUrl],
    replacing any it had, and keeps everything else; image scenes beyond
    the number of pictures, and all scenes of medium 'video', come back
    unchanged. *)
Theorem bulk_images_assigned_in_order (imageData : list string)
        (prevScenes : list SceneObject) :
  NoDup (map so_ref prevScenes) ->
  let updated := handleBulkImageUpload imageData prevScenes in
  length updated = length prevScenes
  /\ forall i scene,
       nth_error prevScenes i = Some scene ->
       let k := length (filter isImageScene (firstn i prevScenes)) in
       exists scene',
         nth_error updated i = Some (scene', so_info scene)
         /\ id scene' = id (so_scene scene)
         /\ startTime scene' = startTime (so_scene scene)
         /\ endTime scene' = endTime (so_scene scene)
         /\ transitionType scene' = transitionType (so_scene scene)
         /\ videoClipUrl scene' = videoClipUrl (so_scene scene)
         /\ imageUrl scene'
            = match medium (so_info scene), nth_error imageData k with
              | MediumImage, Some url => Some url
              | _, _ => imageUrl (so_scene scene)
              end.
Proof.
  intros Hnd updated. split; [unfold updated, handleBulkImageUpload; apply length_map|].
  intros i scene Hn k.
  pose proof (bulk_assign_nth isImageScene withImageUrl imageData prevScenes i scene
                Hnd Hn) as H.
  unfold updated, handleBulkImageUpload. rewrite H. fold k.
  unfold isImageScene. destruct (medium (so_info scene));
    [destruct (nth_error imageData k)|]; eexists; split; try reflexivity;
    repeat split; reflexivity.
Qed.

(** X28.  The imported clips likewise go to the scenes of medium 'video' in
    list order, as their [videoClipUrl]; scenes of medium 'image' and
    video scenes beyond the number of clips come back unchanged. *)
Theorem bulk_clips_assigned_in_order (fileUrls : list string)
        (prevScenes : list SceneObject) :
  NoDup (map so_ref prevScenes) ->
  let updated := handleBulkVideoUpload fileUrls prevScenes in
  length updated = length prevScenes
  /\ forall i scene,
       nth_error prevScenes i = Some scene ->
       let k := length (filter isVideoScene (firstn i prevScenes)) in
       exists scene',
         nth_error updated i = Some (scene', so_info scene)
         /\ id scene' = id (so_scene scene)
         /\ startTime scene' = startTime (so_scene scene)
         /\ endTime scene' = endTime (so_scene scene)
         /\ transitionType scene' = transitionType (so_scene scene)
         /\ imageUrl scene' = imageUrl (so_scene scene)
         /\ videoClipUrl scene'
            = match medium (so_info scene), nth_error fileUrls k with
              | MediumVideo, Some url => Some url
              | _, _ => videoClipUrl (so_scene scene)
              end.
Proof.
  intros Hnd updated. split; [unfold updated, handleBulkVideoUpload; apply length_map|].
  intros i scene Hn k.
  pose proof (bulk_assign_nth isVideoScene withVideoClipUrl fileUrls prevScenes i scene
                Hnd Hn) as H.
  unfold updated, handleBulkVideoUpload. rewrite H. fold k.
  unfold isVideoScene. destruct (medium (so_info scene));
    [|destruct (nth_error fileUrls k)]; eexists; split; try reflexivity;
    repeat split; reflexivity.
Qed.

Lemma bulk_images_assigned_in_order_witness :
  let objects := [ imageObject 1 sceneA; videoObject 2 sceneClip; imageObject 3 sceneB ] in
  NoDup (map so_ref objects) /\
  map (fun s => imageUrl (fst s)) (handleBulkImageUpload ["x.png"; "y.png"]%string objects)
  = [Some "x.png"; None; Some "y.png"]%string.
Proof.
  intro objects.
  assert (H : NoDup (map so_ref objects)).
  { cbn. repeat constructor; cbn; intuition lia. }
  split; [exact H|].
  destruct (bulk_images_assigned_in_order ["x.png"; "y.png"]%string objects H) as [_ Hn].
  reflexivity.
Defined.

Lemma bulk_clips_assigned_in_order_witness :
  let objects := [ imageObject 1 sceneA; videoObject 2 sceneClip; videoObject 3 sceneB ] in
  NoDup (map so_ref objects) /\
  map (fun s => videoClipUrl (fst s)) (handleBulkVideoUpload ["blob:1"]%string objects)
  = [None; Some "blob:1"; None]%string.
Proof.
  intro objects.
  assert (H : NoDup (map so_ref objects)).
  { cbn. repeat constructor; cbn; intuition lia. }
  split; [exact H|].
  destruct (bulk_clips_assigned_in_order ["blob:1"]%string objects H) as [_ Hn].
  reflexivity.
Defined.

(** ** The batch schedule *)

Lemma mod2_even (b : nat) : (b mod 2 =? 0)%nat = Nat.even b.
Proof.
  destruct (Nat.even b) eqn:E.
  - apply Nat.even_spec in E. destruct E as [m ->].
    rewrite Nat.mul_comm, Nat.Div0.mod_mul. reflexivity.
  - apply Nat.eqb_neq. intro H.
    assert (Ht : Nat.even b = true).
    { apply Nat.even_spec. exists (b / 2)%nat. pose proof (Nat.div_mod_eq b 2). lia. }
    congruence.
Qed.

Lemma countdown_length (n : nat) : length (countdown n) = n.
Proof. induction n; cbn; congruence. Qed.

Lemma batchLoop_fuel {A} (imageScenes : list A) : forall fuel fuel' i,
  (length imageScenes - i <= fuel)%nat -> (length imageScenes - i <= fuel')%nat ->
  batchLoop fuel imageScenes i = batchLoop fuel' imageScenes i.
Proof.
  induction fuel as [|fuel IH]; intros fuel' i Hf Hf'.
  - destruct fuel'; cbn [batchLoop];
      (destruct (i <? length imageScenes)%nat eqn:E; [apply Nat.ltb_lt in E; lia|reflexivity]).
  - destruct fuel' as [|fuel']; cbn [batchLoop];
      (destruct (i <? length imageScenes)%nat eqn:E; [apply Nat.ltb_lt in E|reflexivity]);
      [lia|].
    rewrite (IH fuel' (i + batchSize)%nat) by (unfold batchSize; lia). reflexivity.
Qed.

Lemma batchLoop_rounds {A} (imageScenes : list A) : forall fuel b,
  (length imageScenes - 4 * b <= fuel)%nat ->
  exists rounds,
    batchLoop fuel imageScenes (4 * b) = Some rounds
    /\ concat (map br_scenes rounds) = skipn (4 * b) imageScenes
    /\ length rounds = ((length imageScenes - 4 * b + 3) / 4)%nat
    /\ forall k round,
         nth_error rounds k = Some round ->
         br_number round = S (b + k)
         /\ br_scenes round = firstn 4 (skipn (4 * (b + k)) imageScenes)
         /\ (1 <= length (br_scenes round) <= 4)%nat
         /\ ((S k < length rounds)%nat ->
             length (br_scenes round) = 4%nat
             /\ map snd (br_waitTicks round)
                = countdown (if Nat.even (b + k) then 15 else 30))
         /\ (S k = length rounds -> br_waitTicks round = []).
Proof.
  set (n := length imageScenes).
  induction fuel as [|fuel IH]; intros b Hf; cbn [batchLoop]; fold n.
  - destruct (4 * b <? n)%nat eqn:E; [apply Nat.ltb_lt in E; lia|].
    apply Nat.ltb_ge in E.
    exists []. split; [reflexivity|]. cbn [map concat length].
    split; [now rewrite skipn_all2|].
    split; [replace (n - 4 * b + 3)%nat with 3%nat by lia; reflexivity|].
    intros k round H. destruct k; discriminate.
  - destruct (4 * b <? n)%nat eqn:E.
    + apply Nat.ltb_lt in E. unfold batchSize.
      replace (4 * b + 4)%nat with (4 * S b)%nat by lia.
      destruct (IH (S b)) as (rounds & Hr & Hcat & Hlen & Hnth); [lia|].
      rewrite Hr. eexists. split; [reflexivity|].
      cbn [map concat length br_scenes].
      assert (Hs : skipn (4 * S b) imageScenes = skipn 4 (skipn (4 * b) imageScenes))
        by (rewrite skipn_skipn; f_equal; lia).
      split; [rewrite Hcat, Hs; apply firstn_skipn|].
      assert (Hcount : S (length rounds) = ((n - 4 * b + 3) / 4)%nat).
      { rewrite Hlen. destruct (Nat.le_gt_cases n (4 * S b)) as [Hle|Hgt].
        - replace (n - 4 * S b + 3)%nat with 3%nat by lia.
          change (3 / 4)%nat with 0%nat.
          apply (Nat.div_unique _ 4 1 (n - 4 * b + 3 - 4)); lia.
        - replace (n - 4 * b + 3)%nat with ((n - 4 * S b + 3) + 1 * 4)%nat by lia.
          rewrite Nat.div_add by lia. lia. }
      split; [exact Hcount|].
      assert (Hsize : length (firstn 4 (skipn (4 * b) imageScenes)) = Nat.min 4 (n - 4 * b)).
      { rewrite length_firstn, length_skipn. reflexivity. }
      intros [|k] round Hk; cbn [nth_error] in Hk.
      * assert (Hround := f_equal (fun o => match o with Some x => x | None => round end) Hk).
        cbv beta iota in Hround. subst round. clear Hk.
        cbn [br_number br_scenes br_waitTicks].
        rewrite Nat.add_0_r.
        split; [rewrite Nat.mul_comm, Nat.div_mul by lia; lia|].
        split; [reflexivity|]. split; [rewrite Hsize; lia|]. split.
        -- intro Hmore. cbn [length] in Hmore.
           assert (Hnext : (4 * S b < n)%nat).
           { destruct (Nat.le_gt_cases n (4 * S b)) as [Hle|]; [|assumption].
             exfalso. replace (n - 4 * S b + 3)%nat with 3%nat in Hlen by lia.
             change (3 / 4)%nat with 0%nat in Hlen. lia. }
           split; [rewrite Hsize; lia|].
           apply Nat.ltb_lt in Hnext. rewrite Hnext.
           rewrite map_map. cbn [snd]. rewrite map_id.
           replace (4 * S b / 4)%nat with (S b)
             by (rewrite Nat.mul_comm, Nat.div_mul by lia; reflexivity).
           rewrite mod2_even, Nat.even_succ, Nat.negb_odd.
           destruct (Nat.even b); reflexivity.
        -- intro Hlast. cbn [length] in Hlast.
           assert (Hnone : (4 * S b <? n)%nat = false).
           { apply Nat.ltb_ge. destruct (Nat.le_gt_cases n (4 * S b)) as [|Hgt]; [assumption|].
             exfalso. assert (length rounds = 0%nat) by lia.
             assert (1 <= (n - 4 * S b + 3) / 4)%nat.
             { apply Nat.div_le_lower_bound; lia. }
             lia. }
           now rewrite Hnone.
      * destruct (Hnth k round Hk) as (Hnum & Hsc & Hsz & Hmore & Hlast).
        replace (b + S k)%nat with (S b + k)%nat by lia.
        split; [exact Hnum|]. split; [exact Hsc|]. split; [exact Hsz|].
        cbn [length]. split; [intro H; apply Hmore; lia|intro H; apply Hlast; lia].
    + apply Nat.ltb_ge in E.
      exists []. split; [reflexivity|]. cbn [map concat length].
      split; [now rewrite skipn_all2|].
      split; [replace (n - 4 * b + 3)%nat with 3%nat by lia; reflexivity|].
      intros k round H. destruct k; discriminate.
Qed.

(** X29.  The batch loop ends within as many iterations as there are pending
    scenes.  Its rounds split the pending scenes, in order, into batches
    of four with a last one of one to four, numbered from 1; between two
    batches it counts down 15 s after an odd-numbered batch and 30 s after
    an even-numbered one, one status update per second, and after the last
    batch it does not wait. *)
Theorem batch_schedule_partitions_scenes {A} (imageScenes : list A) :
  let n := length imageScenes in
  exists rounds,
    (forall fuel, (n <= fuel)%nat -> batchLoop fuel imageScenes 0 = Some rounds)
    /\ concat (map br_scenes rounds) = imageScenes
    /\ length rounds = ((n + 3) / 4)%nat
    /\ forall k round,
         nth_error rounds k = Some round ->
         br_number round = S k
         /\ br_scenes round = firstn 4 (skipn (4 * k) imageScenes)
         /\ (1 <= length (br_scenes round) <= 4)%nat
         /\ ((S k < length rounds)%nat ->
             length (br_scenes round) = 4%nat
             /\ map snd (br_waitTicks round)
                = countdown (if Nat.even k then 15 else 30))
         /\ (S k = length rounds -> br_waitTicks round = []).
Proof.
  intro n.
  destruct (batchLoop_rounds imageScenes n 0) as (rounds & Hr & Hcat & Hlen & Hnth);
    [fold n; lia|].
  cbn [Nat.mul] in *. rewrite Nat.sub_0_r in Hlen. cbn [skipn] in Hcat.
  exists rounds. split; [|split; [exact Hcat|split; [exact Hlen|exact Hnth]]].
  intros fuel Hf. rewrite <- Hr. apply batchLoop_fuel; fold n; lia.
Qed.

(** ** The timeline *)

(** X30.  For a narration of positive length, the tiles of freshly generated
    scenes fill the track: tile [i] starts at [i * 100 / n] percent and is
    [100 / n] percent wide, so each ends where the next begins and the
    last ends at 100.  The eleven time markers run from 0 to the rounded
    duration without ever decreasing. *)
Theorem timeline_tiles_fill_track dateNow (scenesData : list SceneData) (audioDuration : Q) :
  0 < audioDuration ->
  scenesData <> [] ->
  let generated := map fst (generateScenes dateNow scenesData audioDuration) in
  let n := length scenesData in
  length (tiles audioDuration generated) = n
  /\ (forall i tile,
        nth_error (tiles audioDuration generated) i = Some tile ->
        fst tile == Qi i * (100 / Qi n)
        /\ snd tile == 100 / Qi n
        /\ fst tile + snd tile == Qi (S i) * (100 / Qi n))
  /\ Qi n * (100 / Qi n) == 100
  /\ nth_error (timeMarkers audioDuration) 0 = Some 0%Z
  /\ nth_error (timeMarkers audioDuration) 10 = Some (jsRound audioDuration)
  /\ (forall i j a b, (i <= j)%nat ->
        nth_error (timeMarkers audioDuration) i = Some a ->
        nth_error (timeMarkers audioDuration) j = Some b -> (a <= b)%Z).
Proof.
  intros Hpos Hne generated n.
  assert (Hn : (0 < n)%nat) by (unfold n; destruct scenesData; [congruence|cbn; lia]).
  assert (Hqn : 0 < Qi n) by (apply Qi_pos; exact Hn).
  split; [unfold tiles, generated; now rewrite !length_map, generateScenes_length|].
  split; [|split; [field; lra|split; [|split]]].
  - intros i tile H. unfold tiles in H. rewrite nth_error_map in H.
    destruct (nth_error generated i) as [scene|] eqn:Es; [|discriminate].
    cbn [option_map] in H. injection H as <-. cbn [fst snd].
    apply generateScenes_times in Es. destruct Es as (_ & Hs & He & _).
    unfold getLeft, getWidth. rewrite Hs, He. fold n. rewrite Qi_S.
    repeat split; field; lra.
  - unfold timeMarkers. cbn [seq map nth_error]. f_equal.
    unfold jsRound. change (Qi 0) with 0.
    assert (H : audioDuration / 10 * 0 + 0.5 == 0.5) by ring.
    rewrite H. reflexivity.
  - unfold timeMarkers. cbn [seq map nth_error]. f_equal.
    unfold jsRound. apply Qfloor_comp.
    change (Qi 10) with 10. field.
  - intros i j a b Hij Ha Hb. unfold timeMarkers in Ha, Hb.
    rewrite nth_error_map in Ha, Hb.
    destruct (nth_error (seq 0 11) i) as [i'|] eqn:Ei; [|discriminate].
    destruct (nth_error (seq 0 11) j) as [j'|] eqn:Ej; [|discriminate].
    cbn [option_map] in Ha, Hb. injection Ha as <-. injection Hb as <-.
    assert (Hi' : i' = i).
    { pose proof Ei as Hl. apply nth_error_nth with (d := 0%nat) in Ei.
      rewrite seq_nth in Ei; [lia|].
      assert (i < length (seq 0 11))%nat by (apply nth_error_Some; congruence).
      now rewrite length_seq in *. }
    assert (Hj' : j' = j).
    { pose proof Ej as Hl. apply nth_error_nth with (d := 0%nat) in Ej.
      rewrite seq_nth in Ej; [lia|].
      assert (j < length (seq 0 11))%nat by (apply nth_error_Some; congruence).
      now rewrite length_seq in *. }
    subst i' j'. apply jsRound_le.
    assert (Qi i <= Qi j) by (apply Qi_le; exact Hij).
    unfold Qdiv. change (/ 10) with (1 # 10). nra.
Qed.

Lemma timeline_tiles_fill_track_witness :
  let item := {| sd_scriptSegment := None; sd_visualDescription := None;
                 sd_visualStyle := None; sd_transitionType := None;
                 sd_medium := None |} in
  0 < 30 /\ [item; item; item; item] <> [] /\
  length (tiles 30 (map fst (generateScenes (fun _ => 0%N) [item; item; item; item] 30)))
  = 4%nat.
Proof.
  intro item.
  assert (H1 : 0 < 30) by reflexivity.
  assert (H2 : [item; item; item; item] <> []) by discriminate.
  split; [exact H1|]. split; [exact H2|].
  exact (proj1 (timeline_tiles_fill_track (fun _ => 0%N) _ 30 H1 H2)).
Defined.
